(** * Documentation pipeline of the faker repository

    A shallow embedding of
    - [scripts/apidoc/generate.ts]: the page sequence and the three index
      artifacts handed to the writers;
    - [test/scripts/apidoc/verify-jsdoc-tags.spec.ts]: the materialization
      of examples and the per-callable checks of the harness;
    - [NumberModule.int], [binary], [octal], [hex] and [bigInt] of the
      number module.

    JavaScript strings are held as [string], the UTF-8 bytes of the text.
    Every delimiter the regular expressions of the sources look for is an
    ASCII character and no byte of a multi-byte sequence is ASCII, so a
    scan over bytes stops where the scan over UTF-16 code units stops.  The
    two places where a code point outside ASCII matters (the white space
    removed by [trim], the line terminators that [.] refuses) spell out the
    byte sequences.

    JavaScript numbers are IEEE 754 doubles.  The bounds that [int]
    takes, and what [Math.ceil] and [Math.floor] make of them, are held
    as the rationals they denote; the arithmetic of a draw rounds to the
    nearest double, as [Double] spells out.

    Functions of other files of the repository (the extractors of
    [typedoc.ts], [analyzeSignature], the page processors and the writers
    of [apiDocsWriter.ts]) and of libraries ([validator], [node:path],
    [localeCompare], [toLowerCase], the module loader) are not part of the
    embedded sources: they are fields of the interfaces [Typedoc],
    [Runtime] and [Collaborators] below. *)

From Stdlib Require Import ZArith QArith Qround Qabs Qpower Ascii String List.
From Stdlib Require Import Lia Lqa Permutation Sorted.
From stdpp Require Import base gmap sets list strings.

(** * Part I: definitions *)

(** ** JavaScript string primitives *)
Module Js.

Definition bytes (l : list nat) : string :=
  string_of_list_ascii (map ascii_of_nat l).

Definition LF : string := bytes [10].
Definition DQUOTE : ascii := ascii_of_nat 34.

(** LineTerminator: LF, CR, U+2028, U+2029. *)
Definition lineTerminators : list string :=
  [bytes [10]; bytes [13]; bytes [226; 128; 168]; bytes [226; 128; 169]].

(** WhiteSpace and LineTerminator code points, the ones [trim] removes:
    TAB, LF, VT, FF, CR, SP, U+00A0, U+1680, U+2000..U+200A, U+2028,
    U+2029, U+202F, U+205F, U+3000, U+FEFF. *)
Definition whiteSpace : list string :=
  [bytes [9]; bytes [10]; bytes [11]; bytes [12]; bytes [13]; bytes [32];
   bytes [194; 160]; bytes [225; 154; 128];
   bytes [226; 128; 128]; bytes [226; 128; 129]; bytes [226; 128; 130];
   bytes [226; 128; 131]; bytes [226; 128; 132]; bytes [226; 128; 133];
   bytes [226; 128; 134]; bytes [226; 128; 135]; bytes [226; 128; 136];
   bytes [226; 128; 137]; bytes [226; 128; 138];
   bytes [226; 128; 168]; bytes [226; 128; 169]; bytes [226; 128; 175];
   bytes [226; 129; 159]; bytes [227; 128; 128]; bytes [239; 187; 191]].

(** [s.startsWith(p)] *)
Definition startsWith (s p : string) : bool := String.prefix p s.

(** [s.includes(sub)] *)
Fixpoint includes (s sub : string) : bool :=
  String.prefix sub s ||
  match s with
  | EmptyString => false
  | String _ s' => includes s' sub
  end.

(** [l.join(sep)] *)
Definition join (sep : string) (l : list string) : string :=
  String.concat sep l.

Fixpoint dropBytes (n : nat) (s : string) : string :=
  match n, s with
  | S k, String _ s' => dropBytes k s'
  | _, _ => s
  end.

(** The rest of [s] behind the first element of [ps] that [s] starts
    with. *)
Fixpoint stripOneOf (ps : list string) (s : string) : option string :=
  match ps with
  | [] => None
  | p :: ps' =>
      if startsWith s p then Some (dropBytes (String.length p) s)
      else stripOneOf ps' s
  end.

Definition startsWithAny (ps : list string) (s : string) : bool :=
  match stripOneOf ps s with Some _ => true | None => false end.

Fixpoint stripAllOf (fuel : nat) (ps : list string) (s : string) : string :=
  match fuel with
  | O => s
  | S fuel' =>
      match stripOneOf ps s with
      | Some r => stripAllOf fuel' ps r
      | None => s
      end
  end.

(** [s.trimStart()]: each step removes at least one byte, so the length
    of [s] is fuel enough. *)
Definition trimStart (s : string) : string :=
  stripAllOf (String.length s) whiteSpace s.

(** [s.trimEnd()], on the reversed bytes. *)
Definition trimEnd (s : string) : string :=
  String.rev
    (stripAllOf (String.length s) (map String.rev whiteSpace) (String.rev s)).

(** [s.trim()] *)
Definition trim (s : string) : string := trimEnd (trimStart s).

(** The text before the first [c] and the text behind it. *)
Fixpoint splitAtChar (c : ascii) (s : string) : option (string * string) :=
  match s with
  | EmptyString => None
  | String d s' =>
      if Ascii.eqb d c then Some (EmptyString, s')
      else
        match splitAtChar c s' with
        | Some (before, behind) => Some (String d before, behind)
        | None => None
        end
  end.

(** The text behind the first character when this one is [c]. *)
Definition afterChar (c : ascii) (s : string) : option string :=
  match s with
  | EmptyString => None
  | String d s' => if Ascii.eqb d c then Some s' else None
  end.

(** The character that stands before the text behind [s], [prev] being
    the one before [s]. *)
Fixpoint lastChar (prev : option ascii) (s : string) : option ascii :=
  match s with
  | EmptyString => prev
  | String c s' => lastChar (Some c) s'
  end.

Definition isChar (c : ascii) (prev : option ascii) : bool :=
  match prev with
  | Some p => Ascii.eqb p c
  | None => false
  end.

(** What a greedy [.*] leaves: the text from the first line terminator
    on. *)
Fixpoint dropLine (s : string) : string :=
  if startsWithAny lineTerminators s then s
  else
    match s with
    | EmptyString => EmptyString
    | String _ s' => dropLine s'
    end.

(** A byte that begins a character of UTF-8: not one of the form
    [10xxxxxx]. *)
Definition isLead (c : ascii) : bool :=
  (nat_of_ascii c <? 128) || (192 <=? nat_of_ascii c).

End Js.

(** ** The regular expressions of the sources

    Each pattern is a matcher at one position plus the left-to-right scan
    of a [/g] pattern: after a match the scan resumes behind it, after a
    failure one position further.  No pattern here matches the empty
    string. *)
Module Regex.
Import Js.

Section Global.
Context {A : Type}.
(** [matchAt prev s]: the capture and the length of the match that
    starts at the head of [s], [prev] being the character before it. *)
Variable matchAt : option ascii -> string -> option (A * nat).

(** [skip] counts the characters of the last match still to pass. *)
Fixpoint scan (prev : option ascii) (skip : nat) (s : string) : list A :=
  match s with
  | EmptyString => []
  | String c s' =>
      match skip with
      | S k => scan (Some c) k s'
      | O =>
          match matchAt prev s with
          | Some (a, len) => a :: scan (Some c) (Nat.pred len) s'
          | None => scan (Some c) 0 s'
          end
      end
  end.

Definition matchAll (s : string) : list A := scan None 0 s.
End Global.

(** [/(?<!\.)faker[^.]*(?=\.)/]: the literal [faker], not behind a dot,
    then every character up to the next dot, which has to be there
    (a greedy [[^.]*] stops at a dot or at the end of the text, and only
    the first satisfies the lookahead). *)
Definition importAt (prev : option ascii) (s : string)
  : option (string * nat) :=
  if isChar "." prev then None
  else if startsWith s "faker" then
    match splitAtChar "." (dropBytes 5 s) with
    | Some (run, _) => Some ("faker" +:+ run, 5 + String.length run)
    | None => None
    end
  else None.

(** [text.match(/(?<!\.)faker[^.]*(?=\.)/g)]: [None] is [null]. *)
Definition matchImports (text : string) : option (list string) :=
  match matchAll importAt text with
  | [] => None
  | ms => Some ms
  end.

(** [/\[([^\]]+)\]\(([^)]+)\)/], capture 2. *)
Definition markdownLinkAt (_ : option ascii) (s : string)
  : option (string * nat) :=
  match afterChar "[" s with
  | Some s1 =>
      match splitAtChar "]" s1 with
      | Some (String c t, s2) =>
          match afterChar "(" s2 with
          | Some s3 =>
              match splitAtChar ")" s3 with
              | Some (String d u, _) =>
                  Some (String d u,
                        4 + String.length (String c t)
                          + String.length (String d u))
              | _ => None
              end
          | None => None
          end
      | _ => None
      end
  | None => None
  end.

(** The pattern for rendered HTML: [href=], a double quote, one or more
    characters other than a double quote (capture 2), a double quote. *)
Definition hrefAt (_ : option ascii) (s : string) : option (string * nat) :=
  if startsWith s ("href=" +:+ String DQUOTE "") then
    match splitAtChar DQUOTE (dropBytes 6 s) with
    | Some (String d u, _) => Some (String d u, 7 + String.length (String d u))
    | _ => None
    end
  else None.

(** [/^https?:\/\//.test(s)] *)
Definition matchesHttp (s : string) : bool :=
  startsWith s "http://" || startsWith s "https://".

(** [/<[^>]+>/]: the length of the tag at the head of [s]. *)
Definition tagAt (s : string) : option nat :=
  match afterChar "<" s with
  | Some s1 =>
      match splitAtChar ">" s1 with
      | Some (String c b, _) => Some (2 + String.length (String c b))
      | _ => None
      end
  | None => None
  end.

(** [s.replace(/<[^>]+>/g, '')] *)
Fixpoint stripTagsFrom (skip : nat) (s : string) : string :=
  match s with
  | EmptyString => EmptyString
  | String c s' =>
      match skip with
      | S k => stripTagsFrom k s'
      | O =>
          match tagAt s with
          | Some len => stripTagsFrom (Nat.pred len) s'
          | None => String c (stripTagsFrom 0 s')
          end
      end
  end.

Definition stripTags (s : string) : string := stripTagsFrom 0 s.

(** [s.replace(/\(.*/, '')]: the first parenthesis and the rest of its
    line go; later lines stay. *)
Fixpoint replaceParenTail (s : string) : string :=
  match s with
  | EmptyString => EmptyString
  | String c s' =>
      if Ascii.eqb c "(" then dropLine s'
      else String c (replaceParenTail s')
  end.

(** One code unit that [.] accepts, then the rest.  A code unit is one
    to three bytes; a four-byte sequence is a surrogate pair, of which
    [.] takes the first half only, leaving what no ASCII text matches. *)
Definition dotThen (s : string) : option string :=
  if startsWithAny lineTerminators s then None
  else
    match s with
    | EmptyString => None
    | String c s' =>
        let n := nat_of_ascii c in
        if n <? 128 then Some s'
        else if n <? 192 then None
        else if n <? 224 then Some (dropBytes 1 s')
        else if n <? 240 then Some (dropBytes 2 s')
        else None
    end.

(** [fakerjs.dev\/] at the head of [s]: the rest behind it. *)
Definition docsDomainAt (s : string) : option string :=
  if startsWith s "fakerjs" then
    match dotThen (dropBytes 7 s) with
    | Some r => if startsWith r "dev/" then Some (dropBytes 4 r) else None
    | None => None
    end
  else None.

(** [.*fakerjs.dev\/] from the head of [s]: the greedy [.*] ends at the
    last occurrence of the domain on the line. *)
Fixpoint lastDocsDomainInLine (s : string) : option string :=
  let later :=
    if startsWithAny lineTerminators s then None
    else
      match s with
      | EmptyString => None
      | String _ s' => lastDocsDomainInLine s'
      end in
  match later with
  | Some r => Some r
  | None => docsDomainAt s
  end.

(** The bytes of the line terminator at the head of [s], if any. *)
Definition terminatorBytes (s : string) : nat :=
  match stripOneOf lineTerminators s with
  | Some r => String.length s - String.length r
  | None => 0
  end.

(** [s.replace(/.*fakerjs.dev\//, '/')]: the leftmost match only.  Where
    the pattern fails, the next start is one code unit further: behind
    the whole line terminator when one stands there. *)
Fixpoint stripDocsDomainFrom (skip : nat) (s : string) : string :=
  match s with
  | EmptyString => EmptyString
  | String c s' =>
      match skip with
      | S k => String c (stripDocsDomainFrom k s')
      | O =>
          match lastDocsDomainInLine s with
          | Some r => "/" +:+ r
          | None =>
              String c (stripDocsDomainFrom (Nat.pred (terminatorBytes s)) s')
          end
      end
  end.

Definition stripDocsDomain (s : string) : string := stripDocsDomainFrom 0 s.

End Regex.

(** ** JavaScript numbers

    A finite double is held as the rational it denotes; the arithmetic
    of [Number] is the exact operation followed by the rounding of IEEE
    754 binary64, to nearest with ties to even, with gradual underflow
    and overflow to an infinity.  The two zeros are one value here: no
    operation below tells them apart. *)
Module Double.
Local Open Scope Q_scope.

Definition pow2 (e : Z) : Q := 2 ^ e.

(** The exponent of the power of two at or below [|x|], for [x] other
    than zero. *)
Definition binade (x : Q) : Z :=
  let k := (Z.log2 (Z.abs (Qnum x)) - Z.log2 (Zpos (Qden x)))%Z in
  if Qle_bool (pow2 k) (Qabs x) then k else (k - 1)%Z.

(** The nearest integer, the even one of two that are equally near. *)
Definition roundHalfEven (x : Q) : Z :=
  let f := Qfloor x in
  match Qcompare (x - inject_Z f) (1 # 2) with
  | Lt => f
  | Gt => (f + 1)%Z
  | Eq => if Z.even f then f else (f + 1)%Z
  end.

(** The exponent of the last of the 53 bits of a double near [x]; no
    double has a bit below [2 ^ -1074]. *)
Definition quantum (x : Q) : Z := Z.max (binade x - 52) (-1074).

Definition roundMagnitude (x : Q) : Q :=
  inject_Z (roundHalfEven (x / pow2 (quantum x))) * pow2 (quantum x).

(** The double nearest to [x], were the exponent unbounded above. *)
Definition roundFinite (x : Q) : Q :=
  match Qcompare x 0 with
  | Eq => 0
  | Gt => roundMagnitude x
  | Lt => - roundMagnitude (- x)
  end.

(** [x] is a finite double. *)
Definition isDouble (x : Q) : bool :=
  Qeq_bool (roundFinite x) x && negb (Qle_bool (pow2 1024) (Qabs x)).

Inductive Number :=
| Finite (q : Q)
| PlusInfinity
| MinusInfinity
| NotANumber.

(** The number that an exact result becomes. *)
Definition ofExact (x : Q) : Number :=
  let y := roundFinite x in
  if Qle_bool (pow2 1024) y then PlusInfinity
  else if Qle_bool y (- pow2 1024) then MinusInfinity
  else Finite y.

Definition opp (a : Number) : Number :=
  match a with
  | Finite x => Finite (- x)
  | PlusInfinity => MinusInfinity
  | MinusInfinity => PlusInfinity
  | NotANumber => NotANumber
  end.

(** [a + b] *)
Definition add (a b : Number) : Number :=
  match a, b with
  | NotANumber, _ | _, NotANumber => NotANumber
  | PlusInfinity, MinusInfinity | MinusInfinity, PlusInfinity => NotANumber
  | PlusInfinity, _ | _, PlusInfinity => PlusInfinity
  | MinusInfinity, _ | _, MinusInfinity => MinusInfinity
  | Finite x, Finite y => ofExact (x + y)
  end.

(** [a - b] *)
Definition sub (a b : Number) : Number := add a (opp b).

(** An infinity times a finite number. *)
Definition scaleInfinity (positive : bool) (x : Q) : Number :=
  match Qcompare x 0 with
  | Eq => NotANumber
  | Gt => if positive then PlusInfinity else MinusInfinity
  | Lt => if positive then MinusInfinity else PlusInfinity
  end.

(** [a * b] *)
Definition mul (a b : Number) : Number :=
  match a, b with
  | NotANumber, _ | _, NotANumber => NotANumber
  | Finite x, Finite y => ofExact (x * y)
  | Finite x, PlusInfinity | PlusInfinity, Finite x => scaleInfinity true x
  | Finite x, MinusInfinity | MinusInfinity, Finite x => scaleInfinity false x
  | PlusInfinity, PlusInfinity | MinusInfinity, MinusInfinity => PlusInfinity
  | PlusInfinity, MinusInfinity | MinusInfinity, PlusInfinity => MinusInfinity
  end.

(** [Math.floor(a)] *)
Definition floor (a : Number) : Number :=
  match a with
  | Finite x => Finite (inject_Z (Qfloor x))
  | _ => a
  end.

End Double.

(** ** NumberModule.int

    The bounds and the excluded numbers are finite doubles, held as the
    rationals they denote: [Math.ceil], [Math.floor] and the comparisons
    that the branches take are exact on them.  The arithmetic of the
    closure [generate] rounds, and is that of [Double]. *)
Module NumberModule.
Local Open Scope Q_scope.

(** The randomizer of the faker instance: [next()] yields the reals of
    [stream] one after the other; [consulted] counts the calls. *)
Record Randomizer := {
  stream : nat -> Q;
  consulted : nat
}.

Definition next (r : Randomizer) : Q * Randomizer :=
  (stream r (consulted r),
   {| stream := stream r; consulted := S (consulted r) |}).

(** The argument of [int]: a number, or an object whose fields may be
    absent. *)
Inductive IntOptions :=
| OfNumber (n : Q)
| OfObject (min max : option Q) (exclude : option (list Q)).

Inductive FakerError :=
| NoIntegerBetween (min max : Q)
| MaxNotGreaterThanMin (min max : Q)
| MoreExcludedThanRange.

(** How a call ends: with an integer, with [Infinity] or [NaN], or with
    a throw; [OutOfFuel] is a retry loop cut by the model. *)
Inductive Completion :=
| Returned (value : Z)
| ReturnedNonFinite (value : Double.Number)
| Thrown (error : FakerError)
| OutOfFuel.

Definition MAX_SAFE_INTEGER : Q := inject_Z 9007199254740991.

Definition includesNumber (l : list Q) (x : Q) : bool :=
  existsb (fun y => Qeq_bool y x) l.

(** [[...new Set(l)]]: the first occurrence of every number, in order. *)
Fixpoint uniqueNumbers (seen l : list Q) : list Q :=
  match l with
  | [] => []
  | x :: l' =>
      if includesNumber seen x then uniqueNumbers seen l'
      else x :: uniqueNumbers (x :: seen) l'
  end.

(** The destructuring with defaults, after a number became [{ max }]. *)
Definition minOf (options : IntOptions) : Q :=
  match options with
  | OfNumber _ => 0
  | OfObject min _ _ => default 0 min
  end.

Definition maxOf (options : IntOptions) : Q :=
  match options with
  | OfNumber n => n
  | OfObject _ max _ => default MAX_SAFE_INTEGER max
  end.

Definition excludeOf (options : IntOptions) : list Q :=
  match options with
  | OfNumber _ => []
  | OfObject _ _ exclude => default [] exclude
  end.

Definition effectiveMin (options : IntOptions) : Z := Qceiling (minOf options).
Definition effectiveMax (options : IntOptions) : Z := Qfloor (maxOf options).

Definition uniqueExclude (options : IntOptions) : list Q :=
  List.filter
    (fun value =>
       Qle_bool (inject_Z (effectiveMin options)) value
       && Qle_bool value (inject_Z (effectiveMax options)))
    (uniqueNumbers [] (excludeOf options)).

(** The closure [generate]:
    [Math.floor(real * (effectiveMax + 1 - effectiveMin) + effectiveMin)]. *)
Definition generate (lo hi : Z) (r : Randomizer)
  : Double.Number * Randomizer :=
  let (real, r') := next r in
  let effectiveMin := Double.Finite (inject_Z lo) in
  let effectiveMax := Double.Finite (inject_Z hi) in
  (Double.floor
     (Double.add
        (Double.mul (Double.Finite real)
           (Double.sub (Double.add effectiveMax (Double.Finite 1))
                       effectiveMin))
        effectiveMin),
   r').

(** [uniqueExclude.includes(result)]: the list holds finite numbers. *)
Definition includesResult (excluded : list Q) (result : Double.Number)
  : bool :=
  match result with
  | Double.Finite q => includesNumber excluded q
  | _ => false
  end.

(** [return result] *)
Definition returned (result : Double.Number) : Completion :=
  match result with
  | Double.Finite q => Returned (Qfloor q)
  | _ => ReturnedNonFinite result
  end.

(** [while (uniqueExclude.includes(result)) result = generate()] *)
Fixpoint retry (fuel : nat) (excluded : list Q) (lo hi : Z)
    (result : Double.Number) (r : Randomizer) : Completion * Randomizer :=
  if includesResult excluded result then
    match fuel with
    | O => (OutOfFuel, r)
    | S fuel' =>
        let (result', r') := generate lo hi r in
        retry fuel' excluded lo hi result' r'
    end
  else (returned result, r).

Definition int (options : IntOptions) (fuel : nat) (r : Randomizer)
  : Completion * Randomizer :=
  let min := minOf options in
  let max := maxOf options in
  let lo := effectiveMin options in
  let hi := effectiveMax options in
  let excluded := uniqueExclude options in
  if (lo =? hi)%Z then (Returned lo, r)
  else if (hi <? lo)%Z then
    if Qle_bool min max then (Thrown (NoIntegerBetween min max), r)
    else (Thrown (MaxNotGreaterThanMin min max), r)
  else if (hi - lo + 1 <=? Z.of_nat (length excluded))%Z then
    (Thrown MoreExcludedThanRange, r)
  else
    let (result, r') := generate lo hi r in
    retry fuel excluded lo hi result r'.

End NumberModule.

(** ** Completions of calls that may throw *)
Module Completion.

Inductive result (A : Type) :=
| Ok (value : A)
| Throw (reason : string).
Arguments Ok {A} value.
Arguments Throw {A} reason.

Definition isOk {A : Type} (r : result A) : bool :=
  match r with Ok _ => true | Throw _ => false end.

Definition andThen {A B : Type} (r : result A) (k : A -> result B)
  : result B :=
  match r with
  | Ok a => k a
  | Throw e => Throw e
  end.

(** [expect(...)]: a failed expectation throws its message. *)
Definition expect (holds : bool) (message : string) : result unit :=
  if holds then Ok tt else Throw message.

(** [l.forEach(f)] with a callback that may throw: the first throw ends
    the loop. *)
Fixpoint forEach {A : Type} (f : A -> result unit) (l : list A)
  : result unit :=
  match l with
  | [] => Ok tt
  | x :: l' => andThen (f x) (fun _ => forEach f l')
  end.

Declare Scope result_scope.
Delimit Scope result_scope with result.
Notation "'let?' x ':=' r 'in' k" := (andThen r (fun x => k))
  (at level 10, x binder, r at level 100, k at level 200) : result_scope.

End Completion.

(** ** generate.ts *)
Module Generate.
Import Completion.

Section Pages.
Context {Project Diff Content : Type}.

Record Page := {
  text : string;
  link : string;
  diff : Diff;
  content : Content
}.

(** What [generate] hands to a writer. *)
Inductive Artifact :=
| TypedocJson (project : Project)
| PagesIndex (entries : list (string * string))
| DiffIndex (index : gmap string Diff)
| SearchIndex (pages : list Page)
| SourceBaseUrl (project : Project).

(** The functions [generate] imports; each call returns or throws. *)
Record Collaborators := {
  loadProject : result Project;
  generateJson : Project -> result unit;
  processFakerClasses : Project -> result (list Page);
  processModules : Project -> result (list Page);
  processFakerRandomizer : Project -> result Page;
  processFakerUtilities : Project -> result Page;
  writeApiPagesIndex : list (string * string) -> result unit;
  writeApiDiffIndex : gmap string Diff -> result unit;
  writeApiSearchIndex : list Page -> result unit;
  writeSourceBaseUrl : Project -> result unit;
  localeCompare : string -> string -> Z
}.

(** A run: the artifacts handed over so far, and how the run goes on. *)
Definition Run (A : Type) : Type := list Artifact * result A.

Definition ret {A : Type} (a : A) : Run A := ([], Ok a).

Definition bind {A B : Type} (m : Run A) (k : A -> Run B) : Run B :=
  match m with
  | (written, Ok a) =>
      let (written', r) := k a in (written ++ written', r)
  | (written, Throw e) => (written, Throw e)
  end.

(** A call without an artifact. *)
Definition call {A : Type} (r : result A) : Run A := ([], r).

(** A call of a writer: the artifact is handed over, then the writer
    returns or throws. *)
Definition hand (a : Artifact) (r : result unit) : Run unit := ([a], r).

(** [Array.prototype.sort(cmp)]: the sort is stable, and for a
    consistent comparator the result is the one of inserting each
    element before the first later element that does not precede it. *)
Fixpoint insertBy {A : Type} (cmp : A -> A -> Z) (x : A) (l : list A)
  : list A :=
  match l with
  | [] => [x]
  | y :: l' =>
      if (cmp x y <=? 0)%Z then x :: y :: l' else y :: insertBy cmp x l'
  end.

Definition sortBy {A : Type} (cmp : A -> A -> Z) (l : list A) : list A :=
  foldr (insertBy cmp) [] l.

(** [a] may stand before [b] in the sorted array. *)
Definition precedes {A : Type} (cmp : A -> A -> Z) (a b : A) : Prop :=
  (cmp a b <= 0)%Z.

(** A comparator is consistent on the elements it is given when any
    two of them are comparable and the order is transitive. *)
Definition consistentOn {A : Type} (cmp : A -> A -> Z) (l : list A)
  : bool :=
  forallb
    (fun a =>
       forallb
         (fun b =>
            ((cmp a b <=? 0)%Z || (cmp b a <=? 0)%Z)
            && forallb
                 (fun c =>
                    implb ((cmp a b <=? 0)%Z && (cmp b c <=? 0)%Z)
                          (cmp a c <=? 0)%Z)
                 l)
         l)
    l.

(** [Object.fromEntries(entries)]: the entries are set one after the
    other, a later entry replacing an earlier one of the same key. *)
Definition fromEntries (entries : list (string * Diff))
  : gmap string Diff :=
  foldl (fun obj entry => <[entry.1 := entry.2]> obj) ∅ entries.
End Pages.

Arguments Page : clear implicits.
Arguments Artifact : clear implicits.
Arguments Collaborators : clear implicits.
Arguments Run : clear implicits.

Declare Scope run_scope.
Delimit Scope run_scope with run.
Notation "'let*' x ':=' m 'in' k" := (bind m (fun x => k))
  (at level 10, x binder, m at level 100, k at level 200) : run_scope.

Section Generate.
Context {Project Diff Content : Type}.
Variable env : Collaborators Project Diff Content.
Local Open Scope run_scope.

Definition byTitle (a b : Page Diff Content) : Z :=
  localeCompare env (text a) (text b).

(** The array given to [Promise.all], its elements evaluated from left
    to right. *)
Definition collectPages (project : Project)
  : Run Project Diff Content (list (Page Diff Content)) :=
  let* classes := call (processFakerClasses env project) in
  let* modules := call (processModules env project) in
  let* randomizer := call (processFakerRandomizer env project) in
  let* utilities := call (processFakerUtilities env project) in
  ret (classes ++ sortBy byTitle modules ++ [randomizer; utilities]).

Definition pagesIndexOf (pages : list (Page Diff Content))
  : list (string * string) :=
  map (fun p => (text p, link p)) pages.

Definition diffIndexOf (pages : list (Page Diff Content))
  : gmap string Diff :=
  fromEntries (map (fun p => (text p, diff p)) pages).

Definition generate : Run Project Diff Content unit :=
  let* project := call (loadProject env) in
  let* _ := hand (TypedocJson project) (generateJson env project) in
  let* pages := collectPages project in
  let* _ := hand (PagesIndex (pagesIndexOf pages))
                 (writeApiPagesIndex env (pagesIndexOf pages)) in
  let* _ := hand (DiffIndex (diffIndexOf pages))
                 (writeApiDiffIndex env (diffIndexOf pages)) in
  let* _ := hand (SearchIndex pages) (writeApiSearchIndex env pages) in
  hand (SourceBaseUrl project) (writeSourceBaseUrl env project).
End Generate.

End Generate.

(** ** verify-jsdoc-tags.spec.ts *)
Module Harness.
Import Js Regex Completion.
Local Open Scope result_scope.

Record ParamInfo := {
  name : string;
  description : string
}.

(** The imports from [typedoc.ts] and [signature.ts].  [ModuleRefl] and
    [Signature] are the reflections of a module and of a callable. *)
Class Typedoc (ModuleRefl Signature : Type) := {
  extractModuleFieldName : ModuleRefl -> string;
  extractModuleDescription : ModuleRefl -> string;
  extractDescription : Signature -> string;
  extractJoinedRawExamples : Signature -> string;
  extractDeprecated : Signature -> option string;
  extractTagContent : string -> Signature -> list string;
  extractSeeAlsos : Signature -> list string;
  extractSince : Signature -> option string;
  MISSING_DESCRIPTION : string;
  (** [(await analyzeSignature(signature, accessor, methodName)).parameters] *)
  analyzeSignature : Signature -> string -> string -> list ParamInfo
}.

(** How the promise of a dynamic [import()] settles.  A fulfilled import
    yields a module namespace object, which is never [undefined]. *)
Inductive Settled :=
| Fulfilled
| Rejected (reason : string).

(** One import of a materialized file: how it settled, and the calls of
    [console.warn] that the spy installed before it has recorded when it
    has settled. *)
Record Execution := {
  settled : Settled;
  warnings : nat
}.

(** Library functions and the module loader. *)
Class Runtime := {
  isURL : string -> bool;
  isSemVer : string -> bool;
  toLowerCase : string -> string;
  (** [resolve(a, b)] of [node:path] *)
  resolve : string -> string -> string;
  (** the directories above a path, which a recursive [mkdirSync]
      creates as well *)
  parentDirs : string -> list string;
  (** [resolve(__dirname, 'temp')] *)
  tempDir : string;
  (** [import(specifier)] over the files on disk *)
  importModule : gmap string string -> string -> Execution
}.

Record FileSystem := {
  directories : gset string;
  files : gmap string string
}.

(** [[...new Set(l)]]: the first occurrence of every string, in order. *)
Fixpoint uniqueStrings (seen l : list string) : list string :=
  match l with
  | [] => []
  | x :: l' =>
      if bool_decide (x ∈ seen) then uniqueStrings seen l'
      else x :: uniqueStrings (x :: seen) l'
  end.

(** [[...new Set(examples.match(...))]]; [new Set(null)] is empty. *)
Definition exampleImports (examples : string) : list string :=
  uniqueStrings [] (default [] (matchImports examples)).

(** The text written by the [beforeAll] hook of a callable. *)
Definition materialize (examples : string) : string :=
  "import { " +:+ join ", " (exampleImports examples)
    +:+ " } from '../../../../../src';" +:+ LF +:+ LF +:+ examples.

Section Suite.
Context {ModuleRefl Signature : Type}.
Context {typedoc : Typedoc ModuleRefl Signature} {runtime : Runtime}.

(** [Object.entries(modules)], each value with
    [Object.entries(methodsByName)]. *)
Variable modules : list (string * (ModuleRefl * list (string * Signature))).

Definition resolveDirToModule (moduleName : string) : string :=
  resolve tempDir moduleName.

Definition resolvePathToMethodFile (moduleName methodName : string)
  : string :=
  resolve (resolveDirToModule moduleName) (methodName +:+ ".ts").

Definition referencesOf (entry : ModuleRefl * list (string * Signature))
  : list string :=
  let moduleFieldName := extractModuleFieldName entry.1 in
  map (fun methodName => "faker." +:+ moduleFieldName +:+ "." +:+ methodName)
      (map fst entry.2).

(** The array that the [reduce] over [Object.values(modules)] builds. *)
Definition referenceList : list string :=
  foldl (fun acc entry => acc ++ referencesOf entry) [] (map snd modules).

Definition allowedReferences : gset string := list_to_set referenceList.

Definition linksOf (entry : ModuleRefl * list (string * Signature))
  : list string :=
  let moduleFieldName := extractModuleFieldName entry.1 in
  ("/api/" +:+ moduleFieldName +:+ ".html")
    :: map (fun methodName =>
              "/api/" +:+ moduleFieldName +:+ ".html#"
                +:+ toLowerCase methodName)
           (map fst entry.2).

Definition linkList : list string :=
  foldl (fun acc entry => acc ++ linksOf entry) [] (map snd modules).

Definition allowedLinks : gset string := list_to_set linkList.

Definition descriptionLinks (description : string) (isHtml : bool)
  : list string :=
  if isHtml then matchAll hrefAt description
  else matchAll markdownLinkAt description.

(** The body of the loop of [assertDescription]. *)
Definition assertLink (isHtml : bool) (link : string) : result unit :=
  let? _ :=
    if isHtml then Ok tt
    else
      let? _ := expect (matchesHttp link) "expected to match /^https?:\/\//" in
      expect (isURL link) "expected to satisfy isURL" in
  if (if isHtml then startsWith link "/api/"
      else includes link "fakerjs.dev/api/")
  then
    expect (bool_decide (stripDocsDomain link ∈ allowedLinks))
           (link +:+ " to point to a valid target")
  else Ok tt.

Definition assertDescription (description : string) (isHtml : bool)
  : result unit :=
  forEach (assertLink isHtml) (descriptionLinks description isHtml).

Definition mkdirSyncRecursive (dir : string) (fs : FileSystem)
  : FileSystem :=
  {| directories := list_to_set (dir :: parentDirs dir) ∪ directories fs;
     files := files fs |}.

Definition writeFileSync (path data : string) (fs : FileSystem)
  : FileSystem :=
  {| directories := directories fs;
     files := <[path := data]> (files fs) |}.

(** The [beforeAll] hook of a callable. *)
Definition materializeExamples (moduleName methodName : string)
    (signature : Signature) (fs : FileSystem) : FileSystem :=
  let examples := extractJoinedRawExamples signature in
  let dir := resolveDirToModule moduleName in
  let fs := mkdirSyncRecursive dir fs in
  let path := resolvePathToMethodFile moduleName methodName in
  writeFileSync path (materialize examples) fs.

(** [it('verify description')] of a module and of a callable. *)
Definition verifyModuleDescription (refl : ModuleRefl) : result unit :=
  assertDescription (extractModuleDescription refl) false.

Definition verifyDescription (signature : Signature) : result unit :=
  assertDescription (extractDescription signature) false.

(** [it('verify @example tag')] *)
Definition verifyExampleTag (moduleName methodName : string)
    (signature : Signature) (fs : FileSystem) : result unit :=
  let examples := extractJoinedRawExamples signature in
  let? _ := expect (negb (String.eqb examples ""))
                   (moduleName +:+ "." +:+ methodName +:+ " to have examples") in
  let path := resolvePathToMethodFile moduleName methodName in
  match settled (importModule (files fs) (path +:+ "?scope=example")) with
  | Fulfilled => Ok tt
  | Rejected reason => Throw reason
  end.


(** The callback of the loop of [it('verify @param tags')]. *)
Definition verifyParam (param : ParamInfo) : result unit :=
  let plainDescription := trim (stripTags (description param)) in
  let? _ := expect (negb (String.eqb plainDescription MISSING_DESCRIPTION))
                   ("Expect param " +:+ name param
                      +:+ " to have a description") in
  assertDescription (description param) true.

Definition verifyParamTags (methodName : string) (signature : Signature)
  : result unit :=
  forEach verifyParam (analyzeSignature signature "" methodName).

(** The callback of the loop of [it('verify @see tags')]. *)
Definition verifySee (link : string) : result unit :=
  if startsWith link "faker." then
    let? _ := expect (includes link "(")
                     "Expect method reference to contain ()" in
    let? _ := expect (includes link ")")
                     "Expect method reference to contain ()" in
    expect (bool_decide (replaceParenTail link ∈ allowedReferences))
           "expected the reference to be allowed"
  else Ok tt.

Definition verifySeeTags (signature : Signature) : result unit :=
  forEach verifySee (extractSeeAlsos signature).

(** [it('verify @since tag')] *)
Definition verifySinceTag (signature : Signature) : result unit :=
  match extractSince signature with
  | Some since =>
      let? _ := expect (negb (String.eqb since "")) "@since to be present" in
      expect (isSemVer since) "@since to be a valid semver"
  | None => Throw "@since to be present"
  end.

(** The callables that [describe.each] visits: module name, method
    name, signature. *)
Definition callables : list (string * string * Signature) :=
  flat_map
    (fun entry =>
       map (fun method => (entry.1, method.1, method.2)) entry.2.2)
    modules.
End Suite.

End Harness.

(** ** The words of the specification

    Notions that the statements below need and that the sources do not
    compute. *)
Module Stated.
Import Js Regex.

(** The text before the first [c]; the whole text when there is none. *)
Definition beforeChar (c : ascii) (s : string) : string :=
  match splitAtChar c s with
  | Some (before, _) => before
  | None => s
  end.

(** The dotted path of a reference: what stands before the first opening
    parenthesis. *)
Definition dottedPath (link : string) : string := beforeChar "(" link.

(** No line terminator in the text. *)
Fixpoint singleLine (s : string) : bool :=
  negb (startsWithAny lineTerminators s)
  && match s with
     | EmptyString => true
     | String _ s' => singleLine s'
     end.

(** The host of a URL: what stands between the scheme and the next
    slash. *)
Definition hostOf (url : string) : option string :=
  if startsWith url "https://" then Some (beforeChar "/" (dropBytes 8 url))
  else if startsWith url "http://" then Some (beforeChar "/" (dropBytes 7 url))
  else None.

Definition docsDomain : string := "fakerjs.dev".

Definition isIdentifierStart (c : ascii) : bool :=
  let n := nat_of_ascii c in
  ((65 <=? n) && (n <=? 90)) || ((97 <=? n) && (n <=? 122))
  || (n =? 36) || (n =? 95).

Definition isIdentifierPart (c : ascii) : bool :=
  let n := nat_of_ascii c in
  isIdentifierStart c || ((48 <=? n) && (n <=? 57)).

Fixpoint identifierRun (s : string) : string * string :=
  match s with
  | EmptyString => (EmptyString, EmptyString)
  | String c s' =>
      if isIdentifierPart c then
        let (run, rest) := identifierRun s' in (String c run, rest)
      else (EmptyString, s)
  end.

(** A bare identifier at the head of [s] that is immediately followed by
    a dot and not itself preceded by a dot. *)
Definition identifierBeforeDotAt (prev : option ascii) (s : string)
  : option (string * nat) :=
  let free :=
    match prev with
    | Some p => negb (isIdentifierPart p) && negb (Ascii.eqb p ".")
    | None => true
    end in
  match s with
  | String c _ =>
      if free && isIdentifierStart c then
        let (run, rest) := identifierRun s in
        if startsWith rest "." then Some (run, String.length run) else None
      else None
  | EmptyString => None
  end.

(** The set of distinct such identifiers, in the order of their first
    occurrence. *)
Definition bareIdentifiersBeforeDot (text : string) : list string :=
  Harness.uniqueStrings [] (matchAll identifierBeforeDotAt text).

(** Text made of strings of [ps], one after the other. *)
Inductive madeOf (ps : list string) : string -> Prop :=
| madeOf_empty : madeOf ps ""
| madeOf_more (p s : string) :
    p ∈ ps -> madeOf ps s -> madeOf ps (p +:+ s).

(** Text that is white space and nothing else. *)
Definition blank : string -> Prop := madeOf whiteSpace.

(** [sub] occurs nowhere in [s]. *)
Definition lacks (sub s : string) : Prop :=
  forall before behind, s <> before +:+ sub +:+ behind.

(** [s] does not end with [suffix]. *)
Definition endsWithout (suffix s : string) : Prop :=
  forall before, s <> before +:+ suffix.

(** Text without a line terminator. *)
Definition oneLine (s : string) : Prop :=
  forall t, t ∈ lineTerminators -> lacks t s.

(** Markup: tags one after the other, each an opening angle bracket,
    one or more characters other than a closing one, and a closing
    one. *)
Inductive markup : string -> Prop :=
| markup_empty : markup ""
| markup_tag (body rest : string) :
    body <> "" -> lacks ">" body -> markup rest ->
    markup ("<" +:+ body +:+ ">" +:+ rest).

(** Text that neither begins nor ends with white space and holds no
    opening angle bracket. *)
Definition plainWord (s : string) : Prop :=
  s <> ""
  /\ lacks "<" s
  /\ (forall w t, w ∈ whiteSpace -> s <> w +:+ t /\ s <> t +:+ w).

(** [text] is [word] in markup and white space: white space, tags,
    white space, the word, white space, tags, white space, each of
    them possibly empty. *)
Definition wrapped (word text : string) : Prop :=
  exists outer1 opening inner1 inner2 closing outer2,
    blank outer1 /\ markup opening /\ blank inner1
    /\ blank inner2 /\ markup closing /\ blank outer2
    /\ text = outer1 +:+ opening +:+ inner1 +:+ word +:+ inner2
                +:+ closing +:+ outer2.

(** What opens the value of an [href] attribute: [href=] and a double
    quote. *)
Definition hrefOpening : string := "href=" +:+ String DQUOTE "".

(** [s] begins with a markdown link: [[label](url)], label and URL not
    empty, the label without a closing bracket, the URL without a
    closing parenthesis. *)
Definition linkAhead (s : string) : Prop :=
  exists label url rest,
    label <> "" /\ lacks "]" label /\ url <> "" /\ lacks ")" url
    /\ s = "[" +:+ label +:+ "](" +:+ url +:+ ")" +:+ rest.

(** [s] begins with an [href] attribute: [href=], a double quote, a
    value that is not empty and holds no double quote, a double quote. *)
Definition hrefAhead (s : string) : Prop :=
  exists href rest,
    href <> "" /\ lacks (String DQUOTE "") href
    /\ s = hrefOpening +:+ href +:+ String DQUOTE rest.

(** Nothing of the kind [ahead] begins inside [before], which [behind]
    follows. *)
Definition noneEarlier (ahead : string -> Prop) (before behind : string)
  : Prop :=
  forall b1 b2, before = b1 +:+ b2 -> b2 <> "" -> ~ ahead (b2 +:+ behind).

(** Modelled from the spec: the constant [MISSING_DESCRIPTION] of
    [typedoc.ts], which is not among the sources.  It is a reserved
    sentinel, distinct from an explicit empty string; as the text that
    stands for a parameter nobody documented it holds no markup and no
    white space around it. *)
Definition reservedSentinel (sentinel : string) : Prop := plainWord sentinel.


End Stated.

(** ** Sample projects, for the concrete runs below *)
Module Samples.
Import Completion.

(** A stand-in for [localeCompare]: the order of the bytes. *)
Definition byteOrder (a b : string) : Z :=
  match String.compare a b with
  | Lt => (-1)%Z
  | Eq => 0%Z
  | Gt => 1%Z
  end.

(** A page whose diff is a number and whose content is left out. *)
Definition page (title : string) (d : nat) : Generate.Page nat unit :=
  {| Generate.text := title;
     Generate.link := "/api/" +:+ title +:+ ".html";
     Generate.diff := d;
     Generate.content := tt |}.

(** Collaborators that return the given pages and never throw. *)
Definition returning (classes modules : list (Generate.Page nat unit))
    (randomizer utilities : Generate.Page nat unit)
  : Generate.Collaborators unit nat unit :=
  {| Generate.loadProject := Ok tt;
     Generate.generateJson := fun _ => Ok tt;
     Generate.processFakerClasses := fun _ => Ok classes;
     Generate.processModules := fun _ => Ok modules;
     Generate.processFakerRandomizer := fun _ => Ok randomizer;
     Generate.processFakerUtilities := fun _ => Ok utilities;
     Generate.writeApiPagesIndex := fun _ => Ok tt;
     Generate.writeApiDiffIndex := fun _ => Ok tt;
     Generate.writeApiSearchIndex := fun _ => Ok tt;
     Generate.writeSourceBaseUrl := fun _ => Ok tt;
     Generate.localeCompare := byteOrder |}.

Definition orderedProject : Generate.Collaborators unit nat unit :=
  returning [page "Faker" 1]
            [page "Number" 2; page "Date" 3; page "String" 4]
            (page "Randomizer" 5) (page "Utilities" 6).

(** A class export that carries the title of the randomizer page. *)
Definition clashingProject : Generate.Collaborators unit nat unit :=
  returning [page "Faker" 1; page "Randomizer" 2]
            [page "Number" 3]
            (page "Randomizer" 4) (page "Utilities" 5).

(** A callable, as the bodies of its documentation tags. *)
Record Tags := {
  tagDescription : string;
  tagExamples : list string;
  tagDeprecated : list string;
  tagSee : list string;
  tagSince : option string;
  tagParams : list Harness.ParamInfo
}.

(** Extractors that read the fields of [Tags]; a module is its field
    name. *)
Definition tagsTypedoc : Harness.Typedoc string Tags :=
  {| Harness.extractModuleFieldName := fun fieldName => fieldName;
     Harness.extractModuleDescription := fun _ => "";
     Harness.extractDescription := tagDescription;
     Harness.extractJoinedRawExamples :=
       fun tags => Js.join (Js.LF +:+ Js.LF) (tagExamples tags);
     Harness.extractDeprecated :=
       fun tags =>
         match tagDeprecated tags with
         | [] => None
         | bodies => Some (Js.join "" bodies)
         end;
     Harness.extractTagContent :=
       fun tag tags =>
         if String.eqb tag "@deprecated" then tagDeprecated tags
         else if String.eqb tag "@example" then tagExamples tags
         else if String.eqb tag "@see" then tagSee tags
         else [];
     Harness.extractSeeAlsos := tagSee;
     Harness.extractSince := tagSince;
     Harness.MISSING_DESCRIPTION := "Missing";
     Harness.analyzeSignature := fun tags _ _ => tagParams tags |}.

Definition lowerAscii (c : ascii) : ascii :=
  let n := nat_of_ascii c in
  if (65 <=? n) && (n <=? 90) then ascii_of_nat (n + 32) else c.

Fixpoint lowerCase (s : string) : string :=
  match s with
  | EmptyString => EmptyString
  | String c s' => String (lowerAscii c) (lowerCase s')
  end.

(** A runtime in which every import of a file on disk is fulfilled after
    [warned] calls of [console.warn]. *)
Definition runtime (warned : nat) : Harness.Runtime :=
  {| Harness.isURL := Regex.matchesHttp;
     Harness.isSemVer := fun _ => true;
     Harness.toLowerCase := lowerCase;
     Harness.resolve := fun dir file => dir +:+ "/" +:+ file;
     Harness.parentDirs := fun _ => [];
     Harness.tempDir := "/test/scripts/apidoc/temp";
     Harness.importModule :=
       fun _ _ => {| Harness.settled := Harness.Fulfilled;
                     Harness.warnings := warned |} |}.

Definition intTags : Tags :=
  {| tagDescription :=
       "For simple integers, use [`int()`](https://fakerjs.dev/api/number.html#int).";
     tagExamples :=
       ["faker.number.int() // 2900970162509863"
          +:+ Js.LF +:+ "faker.number.int(100) // 52"];
     tagDeprecated := [];
     tagSee :=
       ["faker.string.numeric() If you would like to generate a `string` of digits with a given length (range)."];
     tagSince := Some "8.0.0";
     tagParams :=
       [{| Harness.name := "options";
           Harness.description := "<p>Maximum value or options object.</p>" |}] |}.

Definition numericTags : Tags :=
  {| tagDescription := "Generates a given length string of digits.";
     tagExamples := ["faker.string.numeric() // '2'"];
     tagDeprecated := [];
     tagSee := [];
     tagSince := Some "8.0.0";
     tagParams := [] |}.

Definition project : list (string * (string * list (string * Tags))) :=
  [("number", ("number", [("int", intTags)]));
   ("string", ("string", [("numeric", numericTags)]))].

(** A description that links to the guide on the documentation domain. *)
Definition guideDescription : string :=
  "See the [usage guide](https://fakerjs.dev/guide/usage.html).".



(** An example that names a global next to the entry point. *)
Definition dateExample : string := "faker.date.soon({ refDate: Date.now() })".

(** An example that breaks the line before the dot. *)
Definition chainedExample : string :=
  "faker" +:+ Js.LF +:+ "  .number.int()".

End Samples.

(** ** NumberModule: binary, octal, hex and bigInt *)
Module NumberRest.
Import NumberModule.
Local Open Scope Z_scope.

(** A digit of [Number.prototype.toString(radix)]: [0] to [9], then [a]
    to [z]. *)
Definition digitChar (d : Z) : ascii :=
  if d <? 10 then ascii_of_nat (48 + Z.to_nat d)
  else ascii_of_nat (87 + Z.to_nat d).

(** The digits of a number that is not negative, the most significant
    first; every round divides by the radix. *)
Fixpoint digitsOf (fuel : nat) (radix n : Z) : string :=
  match fuel with
  | O => EmptyString
  | S fuel' =>
      (if n / radix =? 0 then EmptyString else digitsOf fuel' radix (n / radix))
      +:+ String (digitChar (n mod radix)) EmptyString
  end.

(** [n.toString(radix)] for an integer [n]: the number of bits of [n] is
    fuel enough for any radix from 2 on. *)
Definition toStringRadix (radix n : Z) : string :=
  let fuel := S (Z.to_nat (Z.log2 (Z.abs n))) in
  if n <? 0 then String "-" (digitsOf fuel radix (- n))
  else digitsOf fuel radix n.




(** How a call of [binary], [octal] or [hex] ends. *)
Inductive TextCompletion :=
| ReturnedText (text : string)
| ThrownText (error : FakerError)
| TextOutOfFuel.

(** [n.toString(radix)] for a number that is not finite. *)
Definition nonFiniteText (n : Double.Number) : string :=
  match n with
  | Double.PlusInfinity => "Infinity"
  | Double.MinusInfinity => "-Infinity"
  | _ => "NaN"
  end.

Definition textOf (radix : Z) (c : Completion * Randomizer)
  : TextCompletion * Randomizer :=
  match c with
  | (Returned value, r) => (ReturnedText (toStringRadix radix value), r)
  | (ReturnedNonFinite value, r) => (ReturnedText (nonFiniteText value), r)
  | (Thrown error, r) => (ThrownText error, r)
  | (OutOfFuel, r) => (TextOutOfFuel, r)
  end.

(** The argument of [binary], [octal] and [hex]: a number, or an object
    whose fields may be absent. *)
Inductive RangeOptions :=
| UpTo (n : Q)
| Between (min max : option Q).

(** The object [{ max, min }] that the three methods pass to [int],
    after a number became [{ max }] and the defaults were filled in. *)
Definition rangeOf (defaultMax : Q) (options : RangeOptions) : IntOptions :=
  match options with
  | UpTo n => OfObject (Some 0%Q) (Some n) None
  | Between min max =>
      OfObject (Some (default 0%Q min)) (Some (default defaultMax max)) None
  end.

Definition binary (options : RangeOptions) (fuel : nat) (r : Randomizer)
  : TextCompletion * Randomizer :=
  textOf 2 (int (rangeOf 1%Q options) fuel r).

Definition octal (options : RangeOptions) (fuel : nat) (r : Randomizer)
  : TextCompletion * Randomizer :=
  textOf 8 (int (rangeOf (7 # 1)%Q options) fuel r).

Definition hex (options : RangeOptions) (fuel : nat) (r : Randomizer)
  : TextCompletion * Randomizer :=
  textOf 16 (int (rangeOf (15 # 1)%Q options) fuel r).

(** The [k]-th value that the closure [generate] of [int] yields from the
    randomizer [r] on. *)
Definition drawAt (options : IntOptions) (r : Randomizer) (k : nat)
  : Double.Number :=
  fst (generate (effectiveMin options) (effectiveMax options)
         {| stream := stream r; consulted := (consulted r + k)%nat |}).

(** A randomizer whose [next()] keeps its promise: a double from 0 up
    to, not including, 1. *)
Definition unitStream (r : Randomizer) : Prop :=
  forall n,
    Double.isDouble (stream r n) = true /\ (0 <= stream r n < 1)%Q.

(** Bounds within which the integers are doubles and the width
    [effectiveMax + 1 - effectiveMin] is computed without rounding:
    from [-2 ^ 53] to [2 ^ 53 - 1], at most [2 ^ 53] integers.  The
    default range, 0 to [Number.MAX_SAFE_INTEGER], is of this kind. *)
Definition safeRange (options : IntOptions) : Prop :=
  - 2 ^ 53 <= effectiveMin options
  /\ effectiveMax options < 2 ^ 53
  /\ effectiveMax options - effectiveMin options < 2 ^ 53.

(** A bound of [bigInt]: a bigint, a boolean or a number.  A string
    bound, which [BigInt()] parses, is left out. *)
Inductive BigIntLike :=
| OfBigInt (z : Z)
| OfBoolean (b : bool)
| OfDouble (q : Q).

Inductive BigIntOptions :=
| BigUpTo (max : BigIntLike)
| BigBetween (min max : option BigIntLike).

Inductive BigIntError :=
| NotAnInteger (q : Q)
| MaxNotLargerThanMin (max min : Z).

Inductive BigIntCompletion :=
| ReturnedBigInt (value : Z)
| ThrownBigInt (error : BigIntError).

(** [BigInt(v)]: a number that is no integer is a RangeError. *)
Definition toBigInt (v : BigIntLike) : BigIntError + Z :=
  match v with
  | OfBigInt z => inr z
  | OfBoolean b => inr (if b then 1 else 0)
  | OfDouble q =>
      if Qeq_bool (inject_Z (Qfloor q)) q then inr (Qfloor q)
      else inl (NotAnInteger q)
  end.

Definition bigMinOf (options : BigIntOptions) : option BigIntLike :=
  match options with
  | BigUpTo _ => None
  | BigBetween min _ => min
  end.

Definition bigMaxOf (options : BigIntOptions) : option BigIntLike :=
  match options with
  | BigUpTo max => Some max
  | BigBetween _ max => max
  end.

(** [numeric length] stands for
    [BigInt(this.faker.string.numeric({ length, allowLeadingZeros: true }))],
    the bigint that the string of [length] digits denotes; the string
    module is not among the sources. *)
Definition bigInt (options : BigIntOptions) (numeric : nat -> Z)
  : BigIntCompletion :=
  match toBigInt (default (OfDouble 0%Q) (bigMinOf options)) with
  | inl error => ThrownBigInt error
  | inr min =>
      match toBigInt (default (OfBigInt (min + 999999999999999))
                              (bigMaxOf options)) with
      | inl error => ThrownBigInt error
      | inr max =>
          if max =? min then ReturnedBigInt min
          else if max <? min then ThrownBigInt (MaxNotLargerThanMin max min)
          else
            let delta := max - min in
            let offset :=
              Z.rem (numeric (String.length (toStringRadix 10 delta)))
                    (delta + 1) in
            ReturnedBigInt (min + offset)
      end
  end.

End NumberRest.

(** ** generate.ts: what a run leaves behind *)
Module GenerateRest.
Import Completion Generate.

(** The five artifacts of a run that goes through, in the order in which
    [generate] hands them over. *)
Definition handedOver {Project Diff Content : Type} (project : Project)
    (pages : list (Page Diff Content)) : list (Artifact Project Diff Content) :=
  [TypedocJson project; PagesIndex (pagesIndexOf pages);
   DiffIndex (diffIndexOf pages); SearchIndex pages; SourceBaseUrl project].

(** Two elements that the comparator ranks alike. *)
Definition sameRank {A : Type} (cmp : A -> A -> Z) (a b : A) : bool :=
  (cmp a b <=? 0)%Z && (cmp b a <=? 0)%Z.

Definition isThrow {A : Type} (r : result A) : Prop :=
  match r with
  | Ok _ => False
  | Throw _ => True
  end.

End GenerateRest.

(** ** More sample data, for the concrete runs below *)
Module MoreSamples.
Import Completion.

(** A randomizer that yields one half at every call. *)
Definition halves : NumberModule.Randomizer :=
  {| NumberModule.stream := fun _ => (1 # 2)%Q; NumberModule.consulted := 0 |}.

(** The largest double below 1, [1 - 2 ^ -53]. *)
Definition almostOne : Q := (9007199254740991 # 9007199254740992)%Q.

(** A randomizer that yields it at every call. *)
Definition topmost : NumberModule.Randomizer :=
  {| NumberModule.stream := fun _ => almostOne; NumberModule.consulted := 0 |}.

(** A project whose module processor throws. *)
Definition brokenModules : Generate.Collaborators unit nat unit :=
  {| Generate.loadProject := Ok tt;
     Generate.generateJson := fun _ => Ok tt;
     Generate.processFakerClasses := fun _ => Ok [Samples.page "Faker" 1];
     Generate.processModules := fun _ => Throw "module without methods";
     Generate.processFakerRandomizer := fun _ => Ok (Samples.page "Randomizer" 2);
     Generate.processFakerUtilities := fun _ => Ok (Samples.page "Utilities" 3);
     Generate.writeApiPagesIndex := fun _ => Ok tt;
     Generate.writeApiDiffIndex := fun _ => Ok tt;
     Generate.writeApiSearchIndex := fun _ => Ok tt;
     Generate.writeSourceBaseUrl := fun _ => Ok tt;
     Generate.localeCompare := Samples.byteOrder |}.

(** Module pages of which two carry one title. *)
Definition twinPages : list (Generate.Page nat unit) :=
  [Samples.page "Number" 1; Samples.page "Date" 2; Samples.page "Number" 3].

End MoreSamples.

(** * Part II: theorems *)

(** ** NumberModule.int *)
Module NumberModuleFacts.
Import NumberModule.

(** Away from coinciding bounds the exclude list does count: a range
    covered by it throws. *)
Example int_range_covered :
  forall fuel r,
    int (OfObject (Some (5 # 1)) (Some (6 # 1)) (Some [6 # 1; 5 # 1; 6 # 1]))
        fuel r
    = (Thrown MoreExcludedThanRange, r).
Proof. intros fuel r. reflexivity. Qed.

Example int_consults_randomizer :
  let r := {| stream := fun _ => 1 # 2; consulted := 0 |} in
  let '(outcome, r') := int (OfNumber (10 # 1)) 0 r in
  outcome = Returned 5 /\ consulted r' = 1.
Proof. vm_compute. split; reflexivity. Qed.

(** C10.  When [Math.ceil(min)] equals [Math.floor(max)], [int] returns
    that value at once: whatever the exclude list holds (the value
    itself included), whatever fuel the retry loop is given, the
    outcome is the value and not an error, and the randomizer comes
    back as it went in, so [next()] was never called. *)
Theorem int_coinciding_bounds (options : IntOptions) (fuel : nat)
    (r : Randomizer) :
  effectiveMin options = effectiveMax options ->
  int options fuel r = (Returned (effectiveMin options), r).
Proof.
  intros Hsame. unfold int.
  rewrite <- Hsame, Z.eqb_refl. reflexivity.
Qed.

Lemma int_coinciding_bounds_witness :
  let options := OfObject (Some (5 # 1)) (Some (11 # 2)) (Some [5 # 1]) in
  let r := {| stream := fun _ => 0%Q; consulted := 0 |} in
  effectiveMin options = effectiveMax options
  /\ includesNumber (uniqueExclude options) (inject_Z 5) = true
  /\ int options 0 r = (Returned 5%Z, r).
Proof.
  intros options r.
  split; [reflexivity |].
  split; [reflexivity |].
  apply (int_coinciding_bounds options 0 r). reflexivity.
Defined.

End NumberModuleFacts.

(** ** generate.ts *)
Module GenerateFacts.
Import Completion Generate.

Section Sorting.
Context {A : Type} (cmp : A -> A -> Z).

Lemma insertBy_Permutation (x : A) (l : list A) :
  Permutation (insertBy cmp x l) (x :: l).
Proof.
  induction l as [| y l IH]; simpl.
  - apply Permutation_refl.
  - destruct (cmp x y <=? 0)%Z.
    + apply Permutation_refl.
    + apply Permutation_trans with (y :: x :: l).
      * apply perm_skip, IH.
      * apply perm_swap.
Qed.

Lemma sortBy_Permutation (l : list A) : Permutation (sortBy cmp l) l.
Proof.
  induction l as [| x l IH]; simpl.
  - apply perm_nil.
  - apply Permutation_trans with (x :: sortBy cmp l).
    + apply insertBy_Permutation.
    + apply perm_skip, IH.
Qed.

Lemma consistentOn_total (l : list A) (a b : A) :
  consistentOn cmp l = true -> In a l -> In b l ->
  precedes cmp a b \/ precedes cmp b a.
Proof.
  unfold consistentOn, precedes. intros H Ha Hb.
  rewrite forallb_forall in H. specialize (H a Ha).
  rewrite forallb_forall in H. specialize (H b Hb).
  apply andb_prop in H as [H _].
  apply orb_prop in H as [H | H]; apply Z.leb_le in H; auto.
Qed.

Lemma consistentOn_trans (l : list A) (a b c : A) :
  consistentOn cmp l = true -> In a l -> In b l -> In c l ->
  precedes cmp a b -> precedes cmp b c -> precedes cmp a c.
Proof.
  unfold consistentOn, precedes. intros H Ha Hb Hc Hab Hbc.
  rewrite forallb_forall in H. specialize (H a Ha).
  rewrite forallb_forall in H. specialize (H b Hb).
  apply andb_prop in H as [_ H].
  rewrite forallb_forall in H. specialize (H c Hc).
  apply Z.leb_le in Hab, Hbc. rewrite Hab, Hbc in H. simpl in H.
  apply Z.leb_le. exact H.
Qed.

Lemma insertBy_sorted (universe l : list A) (x : A) :
  consistentOn cmp universe = true ->
  In x universe -> (forall y, In y l -> In y universe) ->
  StronglySorted (precedes cmp) l ->
  StronglySorted (precedes cmp) (insertBy cmp x l).
Proof.
  intros Hc Hx. induction l as [| y l IH]; intros Hin Hs; simpl.
  - constructor; [constructor | constructor].
  - inversion Hs as [| y' l' Hs' Hall]; subst.
    destruct (cmp x y <=? 0)%Z eqn:Hxy.
    + apply Z.leb_le in Hxy. constructor; [exact Hs |].
      constructor; [exact Hxy |].
      rewrite List.Forall_forall in Hall |- *. intros z Hz.
      apply (consistentOn_trans universe x y z); auto.
      * apply Hin; left; reflexivity.
      * apply Hin; right; exact Hz.
    + apply Z.leb_gt in Hxy. constructor.
      * apply IH; [| exact Hs']. intros z Hz. apply Hin. right. exact Hz.
      * rewrite List.Forall_forall in Hall |- *. intros z Hz.
        apply (Permutation_in _ (insertBy_Permutation x l)) in Hz.
        destruct Hz as [<- | Hz].
        -- destruct (consistentOn_total universe x y Hc Hx) as [H | H].
           ++ apply Hin; left; reflexivity.
           ++ unfold precedes in H. lia.
           ++ exact H.
        -- apply Hall. exact Hz.
Qed.

Lemma sortBy_sorted_within (universe l : list A) :
  consistentOn cmp universe = true ->
  (forall y, In y l -> In y universe) ->
  StronglySorted (precedes cmp) (sortBy cmp l).
Proof.
  intros Hc. induction l as [| x l IH]; intros Hin; simpl.
  - constructor.
  - apply (insertBy_sorted universe); auto.
    + apply Hin; left; reflexivity.
    + intros y Hy.
      apply (Permutation_in _ (sortBy_Permutation l)) in Hy.
      apply Hin; right; exact Hy.
    + apply IH. intros y Hy. apply Hin; right; exact Hy.
Qed.

Lemma sortBy_sorted (l : list A) :
  consistentOn cmp l = true ->
  StronglySorted (precedes cmp) (sortBy cmp l).
Proof.
  intros Hc. apply (sortBy_sorted_within l); auto.
Qed.
End Sorting.

(** One call of a run whose completion is known. *)
Ltac run_step H := rewrite H; cbn [bind call hand ret app].
Ltac run_start := unfold generate; cbn [bind call hand ret app].

Section Run.
Context {Project Diff Content : Type}.
Variable env : Collaborators Project Diff Content.

Lemma diffIndexOf_snoc (pages : list (Page Diff Content))
    (p : Page Diff Content) :
  diffIndexOf (pages ++ [p]) = <[text p := diff p]> (diffIndexOf pages).
Proof.
  unfold diffIndexOf, fromEntries.
  rewrite map_app. simpl. rewrite foldl_snoc. reflexivity.
Qed.

(** Under a title the index holds the diff of the last page so
    titled. *)
Lemma diffIndexOf_lookup (pages : list (Page Diff Content))
    (title : string) :
  diffIndexOf pages !! title
  = last (map diff (filter (fun p => text p = title) pages)).
Proof.
  induction pages as [| p pages IH] using rev_ind.
  - reflexivity.
  - rewrite diffIndexOf_snoc, filter_app, map_app.
    destruct (decide (text p = title)) as [Heq | Hne].
    + rewrite Heq, lookup_insert_eq.
      rewrite filter_cons_True by exact Heq.
      rewrite filter_nil. simpl. rewrite last_snoc. reflexivity.
    + rewrite lookup_insert_ne by exact Hne.
      rewrite filter_cons_False by exact Hne.
      rewrite filter_nil. simpl. rewrite app_nil_r. exact IH.
Qed.

Lemma unique_title_filter (pages : list (Page Diff Content))
    (p : Page Diff Content) :
  NoDup (map text pages) -> p ∈ pages ->
  filter (fun q => text q = text p) pages = [p].
Proof.
  induction pages as [| q pages IH]; intros Hnd Hin.
  - inversion Hin.
  - simpl in Hnd. apply NoDup_cons in Hnd as [Hq Hnd].
    assert (Hnone : forall r : Page Diff Content, text r = text q ->
              filter (fun x => text x = text r) pages = []).
    { intros r Hr. clear IH Hin Hnd. induction pages as [| x pages IHp].
      - reflexivity.
      - simpl in Hq. apply not_elem_of_cons in Hq as [Hx Hq].
        rewrite filter_cons_False by congruence.
        apply IHp. exact Hq. }
    apply elem_of_cons in Hin as [-> | Hin].
    + rewrite filter_cons_True by reflexivity.
      rewrite Hnone by reflexivity. reflexivity.
    + rewrite filter_cons_False.
      * apply IH; assumption.
      * intros Heq. apply Hq.
        change (map text pages) with (text <$> pages).
        rewrite Heq. apply list_elem_of_fmap_2. exact Hin.
Qed.
(** C7.  When the processors return, the page sequence is the class
    pages, then the module pages sorted by [localeCompare] on their
    titles (a permutation of what [processModules] returned, each page
    not after any later one), then the randomizer page, then the
    utilities page; and the pages index handed to [writeApiPagesIndex],
    right after the JSON dump, is this sequence in this order, each page
    cut down to its text and link. *)
Theorem generate_page_order (project : Project)
    (classes modules : list (Page Diff Content))
    (randomizer utilities : Page Diff Content) :
  loadProject env = Ok project ->
  generateJson env project = Ok tt ->
  processFakerClasses env project = Ok classes ->
  processModules env project = Ok modules ->
  processFakerRandomizer env project = Ok randomizer ->
  processFakerUtilities env project = Ok utilities ->
  consistentOn (byTitle env) modules = true ->
  exists sorted : list (Page Diff Content),
    Permutation sorted modules
    /\ StronglySorted
         (fun a b => (localeCompare env (text a) (text b) <= 0)%Z) sorted
    /\ collectPages env project
       = ([], Ok (classes ++ sorted ++ [randomizer; utilities]))
    /\ exists later outcome,
         generate env
         = (TypedocJson project
              :: PagesIndex
                   (map (fun p => (text p, link p))
                        (classes ++ sorted ++ [randomizer; utilities]))
              :: later,
            outcome).
Proof.
  intros Hload Hjson Hclasses Hmodules Hrandomizer Hutilities Hcmp.
  exists (sortBy (byTitle env) modules).
  assert (Hpages : collectPages env project
                   = ([], Ok (classes ++ sortBy (byTitle env) modules
                                ++ [randomizer; utilities]))).
  { unfold collectPages.
    rewrite Hclasses, Hmodules, Hrandomizer, Hutilities. reflexivity. }
  split; [apply sortBy_Permutation |].
  split; [exact (sortBy_sorted (byTitle env) modules Hcmp) |].
  split; [exact Hpages |].
  run_start. run_step Hload. run_step Hjson. run_step Hpages.
  destruct (writeApiPagesIndex env _) as [[] | reason];
    cbn [bind call hand ret app].
  - destruct (writeApiDiffIndex env _) as [[] | reason];
      cbn [bind call hand ret app].
    + destruct (writeApiSearchIndex env _) as [[] | reason];
        cbn [bind call hand ret app].
      * destruct (writeSourceBaseUrl env _); eexists; eexists; reflexivity.
      * eexists; eexists; reflexivity.
    + eexists; eexists; reflexivity.
  - eexists; eexists; reflexivity.
Qed.

(** C1, as the code has it.  [generate] has no check of titles.  Once
    the pages are collected and the pages index is written, the diff
    index handed to [writeApiDiffIndex] is [Object.fromEntries] of the
    title and diff of every page: under a title it holds the diff of the
    last page so titled; when no two pages share a title it holds, under
    the title of each page, the diff of that page; and the run ends
    without a throw whenever the three writers that follow return. *)
Theorem diff_index_last_title_wins (project : Project)
    (pages : list (Page Diff Content)) :
  loadProject env = Ok project ->
  generateJson env project = Ok tt ->
  collectPages env project = ([], Ok pages) ->
  writeApiPagesIndex env (pagesIndexOf pages) = Ok tt ->
  (exists later outcome,
      generate env
      = (TypedocJson project :: PagesIndex (pagesIndexOf pages)
           :: DiffIndex (diffIndexOf pages) :: later,
         outcome))
  /\ (forall title : string,
        diffIndexOf pages !! title
        = last (map diff (filter (fun p => text p = title) pages)))
  /\ (NoDup (map text pages) ->
      forall p, p ∈ pages -> diffIndexOf pages !! text p = Some (diff p))
  /\ (writeApiDiffIndex env (diffIndexOf pages) = Ok tt ->
      writeApiSearchIndex env pages = Ok tt ->
      writeSourceBaseUrl env project = Ok tt ->
      generate env
      = ([TypedocJson project; PagesIndex (pagesIndexOf pages);
          DiffIndex (diffIndexOf pages); SearchIndex pages;
          SourceBaseUrl project],
         Ok tt)).
Proof.
  intros Hload Hjson Hpages Hindex.
  split; [| split; [| split]].
  - run_start. run_step Hload. run_step Hjson. run_step Hpages.
    run_step Hindex.
    destruct (writeApiDiffIndex env _) as [[] | reason];
      cbn [bind call hand ret app].
    + destruct (writeApiSearchIndex env _) as [[] | reason];
        cbn [bind call hand ret app].
      * destruct (writeSourceBaseUrl env _); eexists; eexists; reflexivity.
      * eexists; eexists; reflexivity.
    + eexists; eexists; reflexivity.
  - apply diffIndexOf_lookup.
  - intros Hnd p Hp.
    rewrite diffIndexOf_lookup, (unique_title_filter pages p Hnd Hp).
    reflexivity.
  - intros Hdiff Hsearch Hsource.
    run_start. run_step Hload. run_step Hjson. run_step Hpages.
    run_step Hindex. run_step Hdiff. run_step Hsearch. run_step Hsource.
    reflexivity.
Qed.
End Run.

Lemma generate_page_order_witness :
  exists sorted : list (Page nat unit),
    Permutation sorted
      [Samples.page "Number" 2; Samples.page "Date" 3; Samples.page "String" 4]
    /\ StronglySorted
         (fun a b => (Samples.byteOrder (text a) (text b) <= 0)%Z) sorted
    /\ collectPages Samples.orderedProject tt
       = ([], Ok ([Samples.page "Faker" 1] ++ sorted
                   ++ [Samples.page "Randomizer" 5; Samples.page "Utilities" 6]))
    /\ exists later outcome,
         generate Samples.orderedProject
         = (TypedocJson tt
              :: PagesIndex
                   (map (fun p => (text p, link p))
                        ([Samples.page "Faker" 1] ++ sorted
                           ++ [Samples.page "Randomizer" 5;
                               Samples.page "Utilities" 6]))
              :: later,
            outcome).
Proof.
  apply (generate_page_order Samples.orderedProject tt
           [Samples.page "Faker" 1]
           [Samples.page "Number" 2; Samples.page "Date" 3;
            Samples.page "String" 4]
           (Samples.page "Randomizer" 5) (Samples.page "Utilities" 6));
    reflexivity.
Defined.

Example orderedProject_pages_index :
  fst (generate Samples.orderedProject) !! 1
  = Some (PagesIndex
            [("Faker", "/api/Faker.html"); ("Date", "/api/Date.html");
             ("Number", "/api/Number.html"); ("String", "/api/String.html");
             ("Randomizer", "/api/Randomizer.html");
             ("Utilities", "/api/Utilities.html")]).
Proof. reflexivity. Qed.

(** C1 as stated fails: a run over two pages titled [Randomizer] goes
    through to its end without a throw, all five artifacts are handed
    over, and the diff index holds one entry for the two pages, the diff
    of the first one gone. *)
Lemma duplicate_title_tolerated :
  let pages := [Samples.page "Faker" 1; Samples.page "Randomizer" 2;
                Samples.page "Number" 3; Samples.page "Randomizer" 4;
                Samples.page "Utilities" 5] in
  let index : gmap string nat :=
    {[ "Faker" := 1; "Number" := 3; "Randomizer" := 4; "Utilities" := 5 ]} in
  collectPages Samples.clashingProject tt = ([], Ok pages)
  /\ ~ NoDup (map text pages)
  /\ generate Samples.clashingProject
     = ([TypedocJson tt; PagesIndex (pagesIndexOf pages); DiffIndex index;
         SearchIndex pages; SourceBaseUrl tt],
        Ok tt)
  /\ index !! "Randomizer" = Some 4
  /\ size index = 4.
Proof.
  intros pages index.
  split; [reflexivity |].
  split.
  { intros Hnd. simpl in Hnd.
    apply NoDup_cons in Hnd as [_ Hnd].
    apply NoDup_cons in Hnd as [Hnotin _].
    apply Hnotin. set_solver. }
  split.
  { vm_compute. reflexivity. }
  split; reflexivity.
Qed.

Lemma diff_index_last_title_wins_witness :
  let pages := [Samples.page "Faker" 1; Samples.page "Randomizer" 2;
                Samples.page "Number" 3; Samples.page "Randomizer" 4;
                Samples.page "Utilities" 5] in
  diffIndexOf pages !! "Randomizer"
  = last (map diff (filter (fun p => text p = "Randomizer") pages)).
Proof.
  intros pages.
  apply (diff_index_last_title_wins Samples.clashingProject tt pages);
    reflexivity.
Defined.

End GenerateFacts.

(** ** Expectations and loops *)
Module CompletionFacts.
Import Completion.
Local Open Scope result_scope.

Lemma expect_Ok (holds : bool) (message : string) :
  expect holds message = Ok tt <-> holds = true.
Proof.
  unfold expect. destruct holds; split; intros H; try reflexivity; discriminate.
Qed.

Lemma andThen_Ok {A : Type} (r : result A) (k : A -> result unit) :
  andThen r k = Ok tt <-> exists a, r = Ok a /\ k a = Ok tt.
Proof.
  destruct r as [a | e]; simpl; split.
  - intros H. exists a. split; [reflexivity | exact H].
  - intros [a' [Ha H]]. injection Ha as <-. exact H.
  - discriminate.
  - intros [a' [Ha _]]. discriminate.
Qed.

Lemma andThen_unit_Ok (r : result unit) (k : unit -> result unit) :
  andThen r k = Ok tt <-> r = Ok tt /\ k tt = Ok tt.
Proof.
  rewrite andThen_Ok. split.
  - intros [[] H]. exact H.
  - intros H. exists tt. exact H.
Qed.

(** A loop of expectations passes exactly when every round passes. *)
Lemma forEach_Ok {A : Type} (f : A -> result unit) (l : list A) :
  forEach f l = Ok tt <-> forall x, x ∈ l -> f x = Ok tt.
Proof.
  induction l as [| y l IH]; simpl.
  - split; [intros _ x Hx; inversion Hx | reflexivity].
  - rewrite andThen_unit_Ok, IH. split.
    + intros [Hy Hl] x Hx. apply elem_of_cons in Hx as [-> | Hx]; auto.
    + intros H. split.
      * apply H. left.
      * intros x Hx. apply H. right. exact Hx.
Qed.

(** Rounds that pass whatever comes do not count. *)
Lemma forEach_filter {A : Type} (f : A -> result unit) (keep : A -> bool)
    (l : list A) :
  (forall x, keep x = false -> f x = Ok tt) ->
  forEach f l = forEach f (List.filter keep l).
Proof.
  intros Hskip. induction l as [| y l IH]; simpl; [reflexivity |].
  destruct (keep y) eqn:Hy; simpl.
  - rewrite IH. reflexivity.
  - rewrite (Hskip y Hy). simpl. exact IH.
Qed.

End CompletionFacts.

(** ** Strings and scans *)
Module StringFacts.
Import Js Regex Stated.

Lemma append_cons (a : ascii) (s t : string) :
  String a s +:+ t = String a (s +:+ t).
Proof. reflexivity. Qed.

Lemma append_assoc (a b c : string) : (a +:+ b) +:+ c = a +:+ (b +:+ c).
Proof.
  induction a as [| x a IH]; [reflexivity |].
  rewrite !append_cons, IH. reflexivity.
Qed.

Lemma append_empty_r (a : string) : a +:+ "" = a.
Proof.
  induction a as [| x a IH]; [reflexivity |].
  rewrite append_cons, IH. reflexivity.
Qed.

Lemma startsWith_app (s p : string) :
  startsWith s p = true -> s = p +:+ dropBytes (String.length p) s.
Proof.
  unfold startsWith. revert s.
  induction p as [| a p IH]; intros s H.
  - reflexivity.
  - destruct s as [| b s]; [discriminate |].
    cbn [String.prefix] in H.
    destruct (ascii_dec a b) as [<- | Hne]; [| discriminate].
    rewrite append_cons. cbn [String.length dropBytes].
    f_equal. apply IH. exact H.
Qed.

Lemma includes_char_cons (c d : ascii) (s : string) :
  includes (String d s) (String c "") = Ascii.eqb d c || includes s (String c "").
Proof.
  cbn [includes String.prefix].
  destruct (ascii_dec c d) as [<- | Hne].
  - rewrite Ascii.eqb_refl. destruct s; reflexivity.
  - destruct (Ascii.eqb d c) eqn:Heq; [| reflexivity].
    apply Ascii.eqb_eq in Heq. congruence.
Qed.

(** [splitAtChar] cuts at the first occurrence. *)
Lemma splitAtChar_Some (c : ascii) (s before behind : string) :
  splitAtChar c s = Some (before, behind) ->
  s = before +:+ String c behind /\ includes before (String c "") = false.
Proof.
  revert before. induction s as [| d s IH]; intros before H; simpl in H.
  - discriminate.
  - destruct (Ascii.eqb d c) eqn:Hd.
    + apply Ascii.eqb_eq in Hd. subst d. injection H as Hb Hr. subst.
      split; reflexivity.
    + destruct (splitAtChar c s) as [[b r] |]; [| discriminate].
      injection H as Hb Hr. subst. destruct (IH b eq_refl) as [-> Hb].
      split; [reflexivity |].
      rewrite includes_char_cons, Hd, Hb. reflexivity.
Qed.

Lemma splitAtChar_None (c : ascii) (s : string) :
  splitAtChar c s = None <-> includes s (String c "") = false.
Proof.
  induction s as [| d s IH]; simpl splitAtChar.
  - split; reflexivity.
  - rewrite includes_char_cons.
    destruct (Ascii.eqb d c); simpl.
    + split; discriminate.
    + rewrite <- IH. destruct (splitAtChar c s) as [[b r] |];
        split; intros H; try reflexivity; discriminate.
Qed.

Lemma afterChar_Some (c : ascii) (s rest : string) :
  afterChar c s = Some rest -> s = String c rest.
Proof.
  destruct s as [| d s]; simpl; [discriminate |].
  destruct (Ascii.eqb d c) eqn:Hd; [| discriminate].
  apply Ascii.eqb_eq in Hd. intros H. injection H as Hs. congruence.
Qed.

Section Scan.
Context {A : Type} (matchAt : option ascii -> string -> option (A * nat)).
(** No pattern of the sources matches the empty string. *)
Hypothesis scan_nil_match :
  forall prev a len, matchAt prev "" = Some (a, len) -> False.

(** Every capture of a scan is the capture of a match at some position
    of the text. *)
Lemma scan_occurs (a : A) (s : string) :
  forall (prev : option ascii) (skip : nat),
    a ∈ scan matchAt prev skip s ->
    exists (before from : string) (len : nat),
      s = before +:+ from
      /\ matchAt (lastChar prev before) from = Some (a, len).
Proof.
  induction s as [| c s IH]; intros prev skip Hin; simpl in Hin.
  - inversion Hin.
  - assert (Hlater : forall k, a ∈ scan matchAt (Some c) k s ->
              exists before from len,
                String c s = before +:+ from
                /\ matchAt (lastChar prev before) from = Some (a, len)).
    { intros k Hk. destruct (IH _ _ Hk) as (before & from & len & -> & Hm).
      exists (String c before), from, len. split; [reflexivity | exact Hm]. }
    destruct skip as [| k]; [| eauto].
    destruct (matchAt prev (String c s)) as [[a' len] |] eqn:Hm; [| eauto].
    apply elem_of_cons in Hin as [-> | Hin]; [| eauto].
    exists "", (String c s), len. split; [reflexivity | exact Hm].
Qed.

(** The leftmost match of the text is captured. *)
Lemma scan_leftmost (a : A) (len : nat) (from : string) :
  forall (before : string) (prev : option ascii),
    (forall b1 b2,
        before = b1 +:+ b2 -> b2 <> "" ->
        matchAt (lastChar prev b1) (b2 +:+ from) = None) ->
    matchAt (lastChar prev before) from = Some (a, len) ->
    a ∈ scan matchAt prev 0 (before +:+ from).
Proof.
  induction before as [| c before IH]; intros prev Hnone Hmatch.
  - change ("" +:+ from) with from. cbn [lastChar] in Hmatch.
    destruct from as [| d from]; cbn [scan].
    + destruct (scan_nil_match prev a len Hmatch).
    + rewrite Hmatch. left.
  - rewrite append_cons. cbn [scan].
    assert (Hhere : matchAt prev (String c (before +:+ from)) = None).
    { apply (Hnone "" (String c before) eq_refl). discriminate. }
    rewrite Hhere. apply IH; [| exact Hmatch].
    intros b1 b2 Hsplit Hb2. apply (Hnone (String c b1) b2); [| exact Hb2].
    rewrite Hsplit. reflexivity.
Qed.

Lemma matchAll_occurs (a : A) (text : string) :
  a ∈ matchAll matchAt text ->
  exists (before from : string) (len : nat),
    text = before +:+ from
    /\ matchAt (lastChar None before) from = Some (a, len).
Proof. apply scan_occurs. Qed.
End Scan.

(** What a match of the import pattern looks like. *)
Lemma importAt_Some (prev : option ascii) (s m : string) (len : nat) :
  importAt prev s = Some (m, len) ->
  isChar "." prev = false
  /\ exists run rest,
       s = m +:+ "." +:+ rest
       /\ m = "faker" +:+ run
       /\ includes run "." = false.
Proof.
  unfold importAt. intros H.
  destruct (isChar "." prev); [discriminate |].
  split; [reflexivity |].
  destruct (startsWith s "faker") eqn:Hfaker; [| discriminate].
  destruct (splitAtChar "." (dropBytes 5 s)) as [[run rest] |] eqn:Hsplit;
    [| discriminate].
  injection H as Hm Hlen. subst m len.
  apply splitAtChar_Some in Hsplit as [Hrest Hrun].
  exists run, rest. split; [| split; [reflexivity | exact Hrun]].
  rewrite (startsWith_app s "faker" Hfaker).
  change (String.length "faker") with 5. rewrite Hrest.
  rewrite append_assoc. reflexivity.
Qed.

(** What a match of the markdown link pattern looks like. *)
Lemma markdownLinkAt_Some (prev : option ascii) (s url : string) (len : nat) :
  markdownLinkAt prev s = Some (url, len) ->
  exists label rest,
    s = "[" +:+ label +:+ "](" +:+ url +:+ ")" +:+ rest
    /\ label <> "" /\ url <> ""
    /\ includes label "]" = false /\ includes url ")" = false.
Proof.
  unfold markdownLinkAt. intros H.
  destruct (afterChar "[" s) as [s1 |] eqn:H1; [| discriminate].
  destruct (splitAtChar "]" s1) as [[[| c t] s2] |] eqn:H2; try discriminate.
  destruct (afterChar "(" s2) as [s3 |] eqn:H3; [| discriminate].
  destruct (splitAtChar ")" s3) as [[[| d u] s4] |] eqn:H4; try discriminate.
  injection H as Hu Hlen. subst url len.
  apply afterChar_Some in H1, H3.
  apply splitAtChar_Some in H2 as [H2 Hlabel], H4 as [H4 Hurl].
  exists (String c t), s4. subst s s1 s2 s3.
  split; [| split; [discriminate | split; [discriminate | split; assumption]]].
  reflexivity.
Qed.

(** [[...new Set(l)]] keeps every element once. *)
Lemma elem_of_uniqueStrings (x : string) (l : list string) :
  forall seen, x ∈ Harness.uniqueStrings seen l <-> x ∈ l /\ x ∉ seen.
Proof.
  induction l as [| y l IH]; intros seen; simpl.
  - split; [intros H; inversion H | intros [H _]; inversion H].
  - case_bool_decide as Hy.
    + rewrite IH, elem_of_cons. split.
      * intros [Hx Hs]. auto.
      * intros [[-> | Hx] Hs]; [contradiction | auto].
    + rewrite !elem_of_cons, IH, not_elem_of_cons. split.
      * intros [-> | [Hx [Hne Hs]]]; auto.
      * intros [[-> | Hx] Hs]; [auto |].
        destruct (decide (x = y)) as [-> | Hne]; auto.
Qed.

Lemma NoDup_uniqueStrings (l : list string) :
  forall seen, NoDup (Harness.uniqueStrings seen l).
Proof.
  induction l as [| y l IH]; intros seen; simpl.
  - constructor.
  - case_bool_decide as Hy; [apply IH |].
    apply NoDup_cons. split; [| apply IH].
    rewrite elem_of_uniqueStrings, not_elem_of_cons. tauto.
Qed.

Lemma dropLine_unfold (s : string) :
  dropLine s
  = if startsWithAny lineTerminators s then s
    else match s with
         | EmptyString => EmptyString
         | String _ s' => dropLine s'
         end.
Proof. destruct s; reflexivity. Qed.

Lemma singleLine_unfold (s : string) :
  singleLine s
  = negb (startsWithAny lineTerminators s)
    && match s with
       | EmptyString => true
       | String _ s' => singleLine s'
       end.
Proof. destruct s; reflexivity. Qed.

(** What a greedy [.*] leaves is empty or starts a new line. *)
Lemma dropLine_cases (s : string) :
  dropLine s = "" \/ startsWithAny lineTerminators (dropLine s) = true.
Proof.
  induction s as [| c s IH]; rewrite dropLine_unfold.
  - left. reflexivity.
  - destruct (startsWithAny lineTerminators (String c s)) eqn:Hc.
    + right. exact Hc.
    + exact IH.
Qed.

Lemma singleLine_dropLine (s : string) :
  singleLine s = true -> dropLine s = "".
Proof.
  induction s as [| c s IH]; rewrite singleLine_unfold, dropLine_unfold.
  - reflexivity.
  - intros H. apply andb_prop in H as [Hc Hs].
    apply negb_true_iff in Hc. rewrite Hc. apply IH. exact Hs.
Qed.

Lemma singleLine_app_terminator (before tail : string) :
  startsWithAny lineTerminators tail = true ->
  singleLine (before +:+ tail) = false.
Proof.
  intros Htail. induction before as [| c before IH].
  - change ("" +:+ tail) with tail. rewrite singleLine_unfold, Htail.
    reflexivity.
  - rewrite append_cons, singleLine_unfold, IH. apply andb_false_r.
Qed.

Lemma dottedPath_cons (c : ascii) (s : string) :
  dottedPath (String c s)
  = if Ascii.eqb c "(" then "" else String c (dottedPath s).
Proof.
  unfold dottedPath, beforeChar. cbn [splitAtChar].
  destruct (Ascii.eqb c "("); [reflexivity |].
  destruct (splitAtChar "(" s) as [[b r] |]; reflexivity.
Qed.

(** [replace(/\(.*/, '')] leaves the dotted path and what follows the
    line of the parenthesis. *)
Lemma replaceParenTail_split (s : string) :
  exists tail,
    replaceParenTail s = dottedPath s +:+ tail
    /\ (tail = "" \/ startsWithAny lineTerminators tail = true).
Proof.
  induction s as [| c s IH].
  - exists "". split; [reflexivity | left; reflexivity].
  - rewrite dottedPath_cons. cbn [replaceParenTail].
    destruct (Ascii.eqb c "(").
    + exists (dropLine s). split; [reflexivity | apply dropLine_cases].
    + destruct IH as (tail & -> & Htail). exists tail.
      split; [reflexivity | exact Htail].
Qed.

Lemma replaceParenTail_of_singleLine_result (s : string) :
  singleLine (replaceParenTail s) = true ->
  replaceParenTail s = dottedPath s.
Proof.
  destruct (replaceParenTail_split s) as (tail & -> & [-> | Htail]).
  - intros _. apply append_empty_r.
  - rewrite (singleLine_app_terminator _ _ Htail). discriminate.
Qed.

Lemma replaceParenTail_of_singleLine (s : string) :
  singleLine s = true -> replaceParenTail s = dottedPath s.
Proof.
  induction s as [| c s IH]; [reflexivity |].
  rewrite singleLine_unfold, dottedPath_cons. cbn [replaceParenTail].
  intros H. apply andb_prop in H as [_ Hs].
  destruct (Ascii.eqb c "(").
  - apply singleLine_dropLine. exact Hs.
  - rewrite (IH Hs). reflexivity.
Qed.

(** Text without [<] holds no tag. *)
Lemma stripTags_plain (plain rest : string) :
  includes plain "<" = false ->
  stripTagsFrom 0 (plain +:+ rest) = plain +:+ stripTagsFrom 0 rest.
Proof.
  induction plain as [| c plain IH]; intros H; [reflexivity |].
  rewrite includes_char_cons in H. apply orb_false_elim in H as [Hc Hplain].
  rewrite !append_cons. cbn [stripTagsFrom].
  unfold tagAt, afterChar. rewrite Hc. rewrite (IH Hplain). reflexivity.
Qed.

Lemma stripTags_paragraph (plain : string) :
  includes plain "<" = false ->
  stripTags ("<p>" +:+ plain +:+ "</p>") = plain.
Proof.
  intros H. unfold stripTags.
  change (stripTagsFrom 0 ("<p>" +:+ plain +:+ "</p>"))
    with (stripTagsFrom 0 (plain +:+ "</p>")).
  rewrite (stripTags_plain _ _ H).
  change (stripTagsFrom 0 "</p>") with "". apply append_empty_r.
Qed.

End StringFacts.

(** ** White space and [trim] *)
Module TrimFacts.
Import Js Stated StringFacts.

Lemma length_append (a b : string) :
  String.length (a +:+ b) = String.length a + String.length b.
Proof.
  induction a as [| c a IH]; [reflexivity |].
  rewrite append_cons. cbn [String.length]. rewrite IH. reflexivity.
Qed.

Lemma rev_app_spec (a acc : string) :
  String.rev_app a acc = String.rev a +:+ acc.
Proof.
  unfold String.rev. revert acc.
  induction a as [| c a IH]; intros acc; [reflexivity |].
  cbn [String.rev_app]. rewrite IH, (IH (String c "")).
  rewrite append_assoc. reflexivity.
Qed.

Lemma rev_cons (c : ascii) (a : string) :
  String.rev (String c a) = String.rev a +:+ String c "".
Proof. unfold String.rev at 1. cbn [String.rev_app]. apply rev_app_spec. Qed.

Lemma rev_append (a b : string) :
  String.rev (a +:+ b) = String.rev b +:+ String.rev a.
Proof.
  induction a as [| c a IH].
  - change ("" +:+ b) with b. symmetry. apply append_empty_r.
  - rewrite append_cons, !rev_cons, IH, append_assoc. reflexivity.
Qed.

Lemma rev_involutive (a : string) : String.rev (String.rev a) = a.
Proof.
  induction a as [| c a IH]; [reflexivity |].
  rewrite rev_cons, rev_append, IH. reflexivity.
Qed.

Lemma rev_length (a : string) : String.length (String.rev a) = String.length a.
Proof.
  induction a as [| c a IH]; [reflexivity |].
  rewrite rev_cons, length_append, IH. cbn [String.length]. lia.
Qed.

Lemma dropBytes_append (a b : string) : dropBytes (String.length a) (a +:+ b) = b.
Proof.
  induction a as [| c a IH]; [destruct b; reflexivity |].
  rewrite append_cons. cbn [String.length dropBytes]. exact IH.
Qed.

Lemma startsWith_append (p rest : string) : startsWith (p +:+ rest) p = true.
Proof.
  unfold startsWith. induction p as [| c p IH]; [destruct rest; reflexivity |].
  rewrite append_cons. cbn [String.prefix].
  destruct (ascii_dec c c); [exact IH | contradiction].
Qed.

Lemma startsWith_iff (s p : string) :
  startsWith s p = true <-> exists rest, s = p +:+ rest.
Proof.
  split.
  - intros H. eexists. apply startsWith_app. exact H.
  - intros [rest ->]. apply startsWith_append.
Qed.

Lemma stripOneOf_Some (ps : list string) (s r : string) :
  stripOneOf ps s = Some r -> exists p, p ∈ ps /\ s = p +:+ r.
Proof.
  induction ps as [| p ps IH]; cbn [stripOneOf]; [discriminate |].
  destruct (startsWith s p) eqn:Hp.
  - intros H. injection H as <-. exists p. split; [left |].
    apply startsWith_app. exact Hp.
  - intros H. destruct (IH H) as (q & Hq & Hs). exists q. split; [right |]; auto.
Qed.

Lemma stripOneOf_None (ps : list string) (s : string) :
  stripOneOf ps s = None <-> forall p, p ∈ ps -> startsWith s p = false.
Proof.
  induction ps as [| p ps IH]; cbn [stripOneOf].
  - split; [intros _ p Hp; inversion Hp | reflexivity].
  - destruct (startsWith s p) eqn:Hp.
    + split; [discriminate |]. intros H. rewrite (H p) in Hp by left. discriminate.
    + rewrite IH. split.
      * intros H q Hq. apply elem_of_cons in Hq as [-> | Hq]; auto.
      * intros H q Hq. apply H. right. exact Hq.
Qed.

Section Strip.
Variable ps : list string.
(** No element is the beginning of another one, and none is empty. *)
Hypothesis strip_element :
  forall p rest, p ∈ ps -> stripOneOf ps (p +:+ rest) = Some rest.
Hypothesis element_not_empty : forall p, p ∈ ps -> p <> "".

Lemma stripAllOf_madeOf (a core : string) :
  madeOf ps a ->
  stripOneOf ps core = None ->
  forall fuel, String.length a <= fuel ->
    stripAllOf fuel ps (a +:+ core) = core.
Proof.
  intros Ha Hcore. induction Ha as [| p s Hp Hs IH]; intros fuel Hfuel.
  - change ("" +:+ core) with core. destruct fuel; cbn [stripAllOf];
      [reflexivity | rewrite Hcore; reflexivity].
  - rewrite length_append in Hfuel.
    assert (Hlen : 0 < String.length p).
    { destruct p; [destruct (element_not_empty "" Hp eq_refl) | cbn; lia]. }
    destruct fuel as [| fuel]; [lia |]. cbn [stripAllOf].
    rewrite append_assoc, (strip_element p _ Hp). apply IH. lia.
Qed.

Lemma stripAllOf_all (a : string) :
  madeOf ps a -> forall fuel, String.length a <= fuel -> stripAllOf fuel ps a = "".
Proof.
  intros Ha fuel Hfuel. rewrite <- (append_empty_r a) at 1.
  apply stripAllOf_madeOf; [exact Ha | | exact Hfuel].
  apply stripOneOf_None. intros p Hp. unfold startsWith.
  destruct p; [destruct (element_not_empty "" Hp eq_refl) | reflexivity].
Qed.

Lemma stripAllOf_decompose (fuel : nat) :
  forall s, String.length s <= fuel ->
    exists a,
      madeOf ps a /\ s = a +:+ stripAllOf fuel ps s
      /\ stripOneOf ps (stripAllOf fuel ps s) = None.
Proof.
  induction fuel as [| fuel IH]; intros s Hlen.
  - destruct s; [| cbn in Hlen; lia]. exists "". split; [constructor |].
    split; [reflexivity |]. cbn [stripAllOf].
    apply stripOneOf_None. intros p Hp. unfold startsWith.
    destruct p; [destruct (element_not_empty "" Hp eq_refl) | reflexivity].
  - cbn [stripAllOf]. destruct (stripOneOf ps s) as [r |] eqn:Hs.
    + destruct (stripOneOf_Some ps s r Hs) as (p & Hp & ->).
      assert (Hplen : 0 < String.length p).
      { destruct p; [destruct (element_not_empty "" Hp eq_refl) | cbn; lia]. }
      rewrite length_append in Hlen.
      destruct (IH r) as (a & Ha & Hr & Hnone); [lia |].
      exists (p +:+ a). split; [constructor; assumption |].
      split; [| exact Hnone]. rewrite append_assoc, <- Hr. reflexivity.
    + exists "". split; [constructor | split; [reflexivity | exact Hs]].
Qed.
End Strip.

Lemma madeOf_app (ps : list string) (a b : string) :
  madeOf ps a -> madeOf ps b -> madeOf ps (a +:+ b).
Proof.
  intros Ha Hb. induction Ha as [| p s Hp Hs IH]; [exact Hb |].
  rewrite append_assoc. constructor; assumption.
Qed.

Lemma madeOf_rev (ps : list string) (a : string) :
  madeOf ps a -> madeOf (map String.rev ps) (String.rev a).
Proof.
  induction 1 as [| p s Hp Hs IH]; [constructor |].
  rewrite rev_append. apply madeOf_app; [exact IH |].
  rewrite <- (append_empty_r (String.rev p)).
  constructor; [| constructor].
  change (map String.rev ps) with (String.rev <$> ps).
  apply list_elem_of_fmap_2. exact Hp.
Qed.

Lemma madeOf_unrev (ps : list string) (a : string) :
  madeOf (map String.rev ps) a -> madeOf ps (String.rev a).
Proof.
  intros H. apply madeOf_rev in H.
  assert (Hmap : map String.rev (map String.rev ps) = ps).
  { rewrite map_map. rewrite <- (map_id ps) at 2. apply map_ext.
    intros x. apply rev_involutive. }
  rewrite Hmap in H. exact H.
Qed.

Lemma whiteSpace_strip (w rest : string) :
  w ∈ whiteSpace -> stripOneOf whiteSpace (w +:+ rest) = Some rest.
Proof.
  intros Hw. unfold whiteSpace in Hw.
  destruct rest as [| c rest];
    repeat (apply elem_of_cons in Hw as [-> | Hw]; [reflexivity |]);
    inversion Hw.
Qed.

Lemma whiteSpace_rev_strip (w rest : string) :
  w ∈ map String.rev whiteSpace ->
  stripOneOf (map String.rev whiteSpace) (w +:+ rest) = Some rest.
Proof.
  intros Hw. cbv [whiteSpace map] in Hw.
  destruct rest as [| c rest];
    repeat (apply elem_of_cons in Hw as [-> | Hw]; [reflexivity |]);
    inversion Hw.
Qed.

Lemma whiteSpace_not_empty (w : string) : w ∈ whiteSpace -> w <> "".
Proof.
  intros Hw. unfold whiteSpace in Hw.
  repeat (apply elem_of_cons in Hw as [-> | Hw]; [discriminate |]).
  inversion Hw.
Qed.

Lemma whiteSpace_rev_not_empty (w : string) :
  w ∈ map String.rev whiteSpace -> w <> "".
Proof.
  intros Hw. cbv [whiteSpace map] in Hw.
  repeat (apply elem_of_cons in Hw as [-> | Hw]; [discriminate |]).
  inversion Hw.
Qed.

Lemma prefix_empty (s : string) : String.prefix "" s = true.
Proof. destruct s; reflexivity. Qed.

Lemma startsWith_cons (c x : ascii) (s p : string) :
  startsWith (String c s) (String x p)
  = if Ascii.eqb x c then startsWith s p else false.
Proof.
  unfold startsWith. cbn [String.prefix].
  destruct (ascii_dec x c) as [-> | Hne].
  - rewrite Ascii.eqb_refl. reflexivity.
  - apply Ascii.eqb_neq in Hne. rewrite Hne. reflexivity.
Qed.

(** A beginning of [s +:+ b] is a beginning of [s], or [s] and then a
    beginning of [b]. *)
Lemma startsWith_append_cases (p : string) :
  forall s b,
    startsWith (s +:+ b) p = true ->
    startsWith s p = true
    \/ exists p2, p = s +:+ p2 /\ p2 <> "" /\ startsWith b p2 = true.
Proof.
  induction p as [| x p IH]; intros s b H.
  - left. apply prefix_empty.
  - destruct s as [| c s].
    + right. exists (String x p). split; [reflexivity |].
      split; [discriminate | exact H].
    + rewrite append_cons, startsWith_cons in H. rewrite startsWith_cons.
      destruct (Ascii.eqb x c) eqn:Hx; [| discriminate].
      apply Ascii.eqb_eq in Hx. subst c.
      destruct (IH s b H) as [Hs | (p2 & -> & Hp2 & Hb)]; [left; exact Hs |].
      right. exists p2. auto.
Qed.

Lemma whiteSpace_lead (w : string) :
  w ∈ whiteSpace -> exists c t, w = String c t /\ isLead c = true.
Proof.
  intros Hw. unfold whiteSpace in Hw.
  repeat (apply elem_of_cons in Hw as [-> | Hw];
          [eexists _, _; split; reflexivity |]).
  inversion Hw.
Qed.

Lemma whiteSpace_tail (p p1 p2 : string) :
  p ∈ whiteSpace -> p = p1 +:+ p2 -> p1 <> "" -> p2 <> "" ->
  exists c t, p2 = String c t /\ isLead c = false.
Proof.
  intros Hp Hsplit Hp1 Hp2. unfold whiteSpace in Hp.
  destruct p1 as [| a1 p1]; [contradiction |].
  assert (Hcases : forall x y z : ascii,
             (p = String x "" -> False)
             /\ (p = String x (String y "") -> p2 = String y "")
             /\ (p = String x (String y (String z "")) ->
                 p2 = String y (String z "") \/ p2 = String z "")).
  { intros x y z. rewrite Hsplit, append_cons. split; [| split]; intros H.
    - injection H as _ H. destruct p1; [| discriminate].
      change ("" +:+ p2) with p2 in H. contradiction.
    - injection H as _ H. destruct p1 as [| a2 p1].
      + exact H.
      + rewrite append_cons in H. injection H as _ H.
        destruct p1; [| discriminate]. change ("" +:+ p2) with p2 in H.
        contradiction.
    - injection H as _ H. destruct p1 as [| a2 p1]; [left; exact H |].
      rewrite append_cons in H. injection H as _ H.
      destruct p1 as [| a3 p1]; [right; exact H |].
      rewrite append_cons in H. injection H as _ H.
      destruct p1; [| discriminate]. change ("" +:+ p2) with p2 in H.
      contradiction. }
  repeat (apply elem_of_cons in Hp as [Hp | Hp];
          [first
             [ destruct (proj1 (Hcases _ "000"%char "000"%char) Hp)
             | rewrite (proj1 (proj2 (Hcases _ _ "000"%char)) Hp);
               eexists _, _; split; reflexivity
             | destruct (proj2 (proj2 (Hcases _ _ _)) Hp) as [-> | ->];
               eexists _, _; split; reflexivity ] |]).
  inversion Hp.
Qed.

Lemma blank_cases (b : string) :
  blank b -> b = "" \/ exists c t, b = String c t /\ isLead c = true.
Proof.
  intros Hb. destruct Hb as [| w s Hw _]; [left; reflexivity | right].
  destruct (whiteSpace_lead w Hw) as (c & t & -> & Hc).
  exists c, (t +:+ s). split; [reflexivity | exact Hc].
Qed.

(** White space behind a text that does not begin with white space does
    not make it begin with white space. *)
Lemma stripOneOf_before_blank (core b : string) :
  core <> "" -> blank b ->
  stripOneOf whiteSpace core = None ->
  stripOneOf whiteSpace (core +:+ b) = None.
Proof.
  intros Hcore Hb Hnone. rewrite stripOneOf_None in Hnone |- *.
  intros p Hp. destruct (startsWith (core +:+ b) p) eqn:Hstart; [| reflexivity].
  exfalso.
  destruct (startsWith_append_cases p core b Hstart)
    as [Hs | (p2 & Hsplit & Hp2 & Hstart2)].
  - rewrite (Hnone p Hp) in Hs. discriminate.
  - destruct (whiteSpace_tail p core p2 Hp Hsplit Hcore Hp2)
      as (c & t & -> & Hc).
    destruct (blank_cases b Hb) as [-> | (d & u & -> & Hd)].
    + discriminate.
    + rewrite startsWith_cons in Hstart2.
      destruct (Ascii.eqb c d) eqn:Hcd; [| discriminate].
      apply Ascii.eqb_eq in Hcd. subst d. congruence.
Qed.

Lemma rev_empty (s : string) : String.rev s = "" -> s = "".
Proof.
  intros H. pose proof (rev_length s) as Hlen. rewrite H in Hlen.
  destruct s; [reflexivity | discriminate].
Qed.

Lemma blank_not_stripped (s : string) :
  blank s -> stripOneOf whiteSpace s = None -> s = "".
Proof.
  intros Hs Hnone. destruct Hs as [| w s Hw _]; [reflexivity |].
  rewrite (whiteSpace_strip w s Hw) in Hnone. discriminate.
Qed.

(** [trim] leaves nothing exactly of the texts that are white space. *)
Lemma trim_empty_iff (s : string) : trim s = "" <-> blank s.
Proof.
  unfold trim, trimStart, trimEnd. split.
  - intros H. apply rev_empty in H.
    destruct (stripAllOf_decompose whiteSpace whiteSpace_not_empty
                (String.length s) s (Nat.le_refl _))
      as (a & Ha & Hs & Hnone).
    set (s1 := stripAllOf (String.length s) whiteSpace s) in *.
    destruct (stripAllOf_decompose (map String.rev whiteSpace)
                whiteSpace_rev_not_empty
                (String.length s1) (String.rev s1))
      as (b & Hb & Hr & _); [rewrite rev_length; reflexivity |].
    rewrite H, append_empty_r in Hr.
    assert (Hs1 : blank s1).
    { rewrite <- (rev_involutive s1), Hr. apply madeOf_unrev. exact Hb. }
    rewrite (blank_not_stripped s1 Hs1 Hnone), append_empty_r in Hs.
    rewrite Hs. exact Ha.
  - intros Hs.
    rewrite (stripAllOf_all whiteSpace whiteSpace_strip whiteSpace_not_empty
               s Hs _ (Nat.le_refl _)).
    reflexivity.
Qed.

(** [trim] removes the white space around a text that neither begins nor
    ends with white space. *)
Lemma trim_surrounded (a core b : string) :
  blank a -> blank b -> core <> "" ->
  stripOneOf whiteSpace core = None ->
  stripOneOf (map String.rev whiteSpace) (String.rev core) = None ->
  trim (a +:+ core +:+ b) = core.
Proof.
  intros Ha Hb Hcore Hstart Hend. unfold trim.
  assert (Hleft : trimStart (a +:+ core +:+ b) = core +:+ b).
  { unfold trimStart.
    apply (stripAllOf_madeOf whiteSpace whiteSpace_strip whiteSpace_not_empty);
      [exact Ha | apply stripOneOf_before_blank; assumption |].
    rewrite length_append. lia. }
  rewrite Hleft. unfold trimEnd. rewrite rev_append.
  rewrite (stripAllOf_madeOf (map String.rev whiteSpace) whiteSpace_rev_strip
             whiteSpace_rev_not_empty (String.rev b) (String.rev core)).
  - apply rev_involutive.
  - apply madeOf_rev. exact Hb.
  - exact Hend.
  - rewrite rev_length, length_append. lia.
Qed.

(** A text that [trim] leaves as it is neither begins nor ends with
    white space. *)
Lemma trim_fixed (s : string) :
  trim s = s -> s <> "" ->
  stripOneOf whiteSpace s = None
  /\ stripOneOf (map String.rev whiteSpace) (String.rev s) = None.
Proof.
  intros Hfix Hne. unfold trim, trimStart, trimEnd in Hfix.
  destruct (stripAllOf_decompose whiteSpace whiteSpace_not_empty
              (String.length s) s (Nat.le_refl _))
    as (a & Ha & Hs & Hnone).
  set (s1 := stripAllOf (String.length s) whiteSpace s) in *.
  destruct (stripAllOf_decompose (map String.rev whiteSpace)
              whiteSpace_rev_not_empty
              (String.length s1) (String.rev s1))
    as (b & Hb & Hr & Hnone'); [rewrite rev_length; reflexivity |].
  set (s2 := stripAllOf (String.length s1) (map String.rev whiteSpace)
               (String.rev s1)) in *.
  assert (Hlen : String.length s = String.length a + String.length s1).
  { rewrite Hs at 1. apply length_append. }
  assert (Hlen' : String.length s1 = String.length b + String.length s2).
  { rewrite <- (rev_length s1), Hr. apply length_append. }
  assert (Hlen2 : String.length s2 = String.length s).
  { rewrite <- (rev_length s2), Hfix. reflexivity. }
  assert (Ha0 : a = "") by (destruct a; [reflexivity | cbn in Hlen; lia]).
  assert (Hb0 : b = "") by (destruct b; [reflexivity | cbn in Hlen'; lia]).
  subst a b. change ("" +:+ ?x) with x in Hs, Hr.
  split.
  - rewrite Hs. exact Hnone.
  - rewrite Hs, Hr. exact Hnone'.
Qed.
End TrimFacts.

(** ** Occurrences of one text in another *)
Module OccurFacts.
Import Js Regex Stated StringFacts TrimFacts.

Lemma includes_append (a sub b : string) : includes (a +:+ sub +:+ b) sub = true.
Proof.
  induction a as [| c a IH].
  - change ("" +:+ sub +:+ b) with (sub +:+ b).
    destruct (sub +:+ b) eqn:E; cbn [includes];
      rewrite <- E; change (String.prefix sub (sub +:+ b)) with (startsWith (sub +:+ b) sub);
      rewrite startsWith_append; reflexivity.
  - rewrite append_cons. cbn [includes]. rewrite IH. apply orb_true_r.
Qed.

Lemma includes_true (s sub : string) :
  includes s sub = true -> exists a b, s = a +:+ sub +:+ b.
Proof.
  induction s as [| c s IH]; cbn [includes]; intros H.
  - apply orb_prop in H as [H | H]; [| discriminate].
    exists "", (dropBytes (String.length sub) ""). apply startsWith_app. exact H.
  - apply orb_prop in H as [H | H].
    + exists "", (dropBytes (String.length sub) (String c s)).
      apply startsWith_app. exact H.
    + destruct (IH H) as (a & b & ->). exists (String c a), b. reflexivity.
Qed.

(** [includes] is the test of occurrence. *)
Lemma lacks_includes (sub s : string) : lacks sub s <-> includes s sub = false.
Proof.
  split.
  - intros H. destruct (includes s sub) eqn:E; [| reflexivity].
    destruct (includes_true s sub E) as (a & b & Hs). destruct (H a b Hs).
  - intros H a b Hs. rewrite Hs, includes_append in H. discriminate.
Qed.

Lemma lacks_suffix (sub a b : string) : lacks sub (a +:+ b) -> lacks sub b.
Proof.
  intros H x y Hb. apply (H (a +:+ x) y). rewrite Hb, append_assoc. reflexivity.
Qed.

Lemma lacks_prefix (sub a b : string) : lacks sub (a +:+ b) -> lacks sub a.
Proof.
  intros H x y Ha. apply (H x (y +:+ b)). rewrite Ha, !append_assoc. reflexivity.
Qed.

Lemma includes_char_append (c : ascii) (a b : string) :
  includes (a +:+ b) (String c "")
  = includes a (String c "") || includes b (String c "").
Proof.
  induction a as [| d a IH].
  - change ("" +:+ b) with b. reflexivity.
  - rewrite append_cons, !includes_char_cons, IH. apply orb_assoc.
Qed.

Lemma whiteSpace_lacks_char (c : ascii) (w : string) :
  w ∈ whiteSpace -> (32 <? nat_of_ascii c) = true ->
  nat_of_ascii c < 128 ->
  includes w (String c "") = false.
Proof.
  intros Hw Hc Hascii. unfold whiteSpace in Hw.
  assert (Hne : forall n, (n <= 32 \/ 128 <= n) -> n < 256 ->
                  Ascii.eqb (ascii_of_nat n) c = false).
  { intros n Hn Hbyte. apply Ascii.eqb_neq. intros <-.
    rewrite nat_ascii_embedding in Hc, Hascii by exact Hbyte.
    apply Nat.ltb_lt in Hc. lia. }
  repeat (apply elem_of_cons in Hw as [-> | Hw];
          [cbv [bytes map string_of_list_ascii];
           rewrite ?includes_char_cons, ?Hne by lia; reflexivity |]).
  inversion Hw.
Qed.

(** White space holds no printable ASCII character. *)
Lemma blank_lacks_char (c : ascii) (s : string) :
  blank s -> (32 <? nat_of_ascii c) = true -> nat_of_ascii c < 128 ->
  includes s (String c "") = false.
Proof.
  intros Hs Hc Hascii. induction Hs as [| w s Hw Hs IH]; [reflexivity |].
  rewrite includes_char_append, IH.
  rewrite (whiteSpace_lacks_char c w Hw Hc Hascii). reflexivity.
Qed.

Lemma splitAtChar_append (c : ascii) (a b : string) :
  includes a (String c "") = false ->
  splitAtChar c (a +:+ String c b) = Some (a, b).
Proof.
  induction a as [| d a IH]; intros H.
  - change ("" +:+ String c b) with (String c b). cbn [splitAtChar].
    rewrite Ascii.eqb_refl. reflexivity.
  - rewrite includes_char_cons in H. apply orb_false_elim in H as [Hd Ha].
    rewrite append_cons. cbn [splitAtChar]. rewrite Hd, (IH Ha). reflexivity.
Qed.

Lemma stripTagsFrom_skip (a rest : string) :
  stripTagsFrom (String.length a) (a +:+ rest) = stripTagsFrom 0 rest.
Proof.
  induction a as [| c a IH]; [reflexivity |].
  rewrite append_cons. cbn [String.length stripTagsFrom]. exact IH.
Qed.

(** Markup goes. *)
Lemma stripTags_markup (m rest : string) :
  markup m -> stripTagsFrom 0 (m +:+ rest) = stripTagsFrom 0 rest.
Proof.
  induction 1 as [| body m Hbody Hclose Hm IH]; [reflexivity |].
  apply lacks_includes in Hclose.
  destruct body as [| c body]; [contradiction |].
  rewrite !append_assoc.
  change ("<" +:+ String c body +:+ ">" +:+ m +:+ rest)
    with (String "<" (String c body +:+ String ">" (m +:+ rest))).
  cbn [stripTagsFrom]. unfold tagAt. cbn [afterChar]. rewrite Ascii.eqb_refl.
  rewrite (splitAtChar_append ">" (String c body) (m +:+ rest) Hclose).
  cbn [Nat.pred Nat.add].
  replace (S (String.length (String c body)))
    with (String.length (String c body +:+ ">"))
    by (rewrite length_append; cbn [String.length]; lia).
  rewrite <- (stripTagsFrom_skip (String c body +:+ ">") (m +:+ rest)) in IH.
  rewrite append_assoc in IH. exact IH.
Qed.
Lemma includes_cons (c : ascii) (s sub : string) :
  includes (String c s) sub = startsWith (String c s) sub || includes s sub.
Proof. reflexivity. Qed.

Lemma includes_cons_false (c : ascii) (s sub : string) :
  includes (String c s) sub = false ->
  startsWith (String c s) sub = false /\ includes s sub = false.
Proof.
  cbn [includes]. intros H. apply orb_false_elim in H. exact H.
Qed.

Lemma includes_false_startsWith (s sub : string) :
  includes s sub = false -> startsWith s sub = false.
Proof.
  destruct s as [| c s]; [| apply includes_cons_false].
  cbn [includes]. intros H. apply orb_false_elim in H as [H _]. exact H.
Qed.

Lemma includes_false_dropBytes (n : nat) (sub : string) :
  forall s, includes s sub = false -> includes (dropBytes n s) sub = false.
Proof.
  induction n as [| n IH]; intros s H; [destruct s; exact H |].
  destruct s as [| c s]; [exact H |]. cbn [dropBytes].
  apply IH. apply (includes_cons_false c s sub H).
Qed.

Lemma includes_false_suffix (sub : string) (before : string) :
  forall from, includes (before +:+ from) sub = false ->
               includes from sub = false.
Proof.
  induction before as [| c before IH]; intros from H; [exact H |].
  rewrite append_cons in H. apply IH. apply (includes_cons_false c _ sub H).
Qed.

Lemma includes_iff (s sub : string) :
  includes s sub = true <-> exists a b, s = a +:+ sub +:+ b.
Proof.
  split; [apply includes_true |]. intros (a & b & ->). apply includes_append.
Qed.

Lemma lacks_head (c d : ascii) (s : string) :
  lacks (String c "") (String d s) -> Ascii.eqb d c = false.
Proof.
  intros H. apply lacks_includes in H. rewrite includes_char_cons in H.
  apply orb_false_elim in H as [H _]. exact H.
Qed.

(** A text without the character [c] holds no text that begins with
    [c]. *)
Lemma lacks_longer (c : ascii) (more s : string) :
  lacks (String c "") s -> lacks (String c more) s.
Proof.
  intros H a b Hs. apply (H a (more +:+ b)). rewrite Hs. reflexivity.
Qed.
End OccurFacts.

(** ** Plain words in markup and white space *)
Module PlainFacts.
Import Js Regex Completion CompletionFacts Harness Stated StringFacts TrimFacts.
Import OccurFacts.

Lemma plainWord_solid (s : string) :
  plainWord s ->
  includes s "<" = false
  /\ stripOneOf whiteSpace s = None
  /\ stripOneOf (map String.rev whiteSpace) (String.rev s) = None.
Proof.
  intros (Hne & Hplain & Hedges).
  split; [apply lacks_includes, Hplain |]. split.
  - apply stripOneOf_None. intros w Hw.
    destruct (startsWith s w) eqn:Hstart; [| reflexivity].
    apply startsWith_iff in Hstart as [t Hs].
    destruct (proj1 (Hedges w t Hw) Hs).
  - apply stripOneOf_None. intros p Hp.
    change (map String.rev whiteSpace) with (String.rev <$> whiteSpace) in Hp.
    apply list_elem_of_fmap in Hp as (w & -> & Hw).
    destruct (startsWith (String.rev s) (String.rev w)) eqn:Hstart;
      [| reflexivity].
    apply startsWith_iff in Hstart as [t Hs].
    exfalso. apply (proj2 (Hedges w (String.rev t) Hw)).
    rewrite <- (rev_involutive s), Hs, rev_append, rev_involutive.
    reflexivity.
Qed.

Lemma plainWord_intro (s : string) :
  s <> "" -> includes s "<" = false ->
  stripOneOf whiteSpace s = None ->
  stripOneOf (map String.rev whiteSpace) (String.rev s) = None ->
  plainWord s.
Proof.
  intros Hne Hplain Hstart Hend.
  split; [exact Hne |]. split; [apply lacks_includes, Hplain |].
  intros w t Hw. split; intros Hs.
  - rewrite stripOneOf_None in Hstart. specialize (Hstart w Hw).
    rewrite Hs, startsWith_append in Hstart. discriminate.
  - rewrite stripOneOf_None in Hend.
    assert (Hin : String.rev w ∈ map String.rev whiteSpace).
    { change (map String.rev whiteSpace) with (String.rev <$> whiteSpace).
      apply list_elem_of_fmap_2. exact Hw. }
    specialize (Hend (String.rev w) Hin).
    rewrite Hs, rev_append, startsWith_append in Hend. discriminate.
Qed.

Lemma stripTags_of_plain (plain : string) :
  includes plain "<" = false -> stripTags plain = plain.
Proof.
  intros H. unfold stripTags.
  rewrite <- (append_empty_r plain) at 1.
  rewrite (stripTags_plain _ _ H). apply append_empty_r.
Qed.

Lemma blank_plain (s : string) : blank s -> includes s "<" = false.
Proof.
  intros H. apply blank_lacks_char; [exact H | reflexivity |].
  change (60 < 128). lia.
Qed.

(** What the check compares with the sentinel when a word stands in
    markup and white space. *)
Lemma plain_of_wrapped (outer1 opening inner1 word inner2 closing outer2 : string) :
  blank outer1 -> markup opening -> blank inner1 -> plainWord word ->
  blank inner2 -> markup closing -> blank outer2 ->
  trim (stripTags (outer1 +:+ opening +:+ inner1 +:+ word +:+ inner2
                     +:+ closing +:+ outer2))
  = word.
Proof.
  intros Ho1 Hopen Hi1 Hword Hi2 Hclose Ho2.
  destruct (plainWord_solid word Hword) as (Hplain & Hstart & Hend).
  unfold stripTags.
  rewrite (stripTags_plain outer1 _ (blank_plain _ Ho1)).
  rewrite (stripTags_markup opening _ Hopen).
  rewrite (stripTags_plain inner1 _ (blank_plain _ Hi1)).
  rewrite (stripTags_plain word _ Hplain).
  rewrite (stripTags_plain inner2 _ (blank_plain _ Hi2)).
  rewrite (stripTags_markup closing _ Hclose).
  change (stripTagsFrom 0 outer2) with (stripTags outer2).
  rewrite (stripTags_of_plain outer2 (blank_plain _ Ho2)).
  rewrite <- (append_assoc outer1 inner1), <- (append_assoc _ word).
  rewrite (append_assoc (outer1 +:+ inner1) word).
  destruct Hword as [Hne _].
  apply trim_surrounded;
    [apply madeOf_app; assumption | apply madeOf_app; assumption
    | exact Hne | exact Hstart | exact Hend].
Qed.
Lemma wrapped_checked (word text : string) :
  plainWord word -> wrapped word text -> trim (stripTags text) = word.
Proof.
  intros Hword (outer1 & opening & inner1 & inner2 & closing & outer2
                & Ho1 & Hopen & Hi1 & Hi2 & Hclose & Ho2 & ->).
  apply plain_of_wrapped; assumption.
Qed.

Lemma blank_checked (text : string) : blank text -> trim (stripTags text) = "".
Proof.
  intros H. rewrite (stripTags_of_plain text (blank_plain text H)).
  apply trim_empty_iff. exact H.
Qed.

Lemma blank_no_href (text : string) : blank text -> includes text "href=" = false.
Proof.
  intros H. apply lacks_includes. apply (lacks_longer "h" "ref=").
  apply lacks_includes. apply blank_lacks_char; [exact H | reflexivity |].
  change (104 < 128). lia.
Qed.

(** A word in a paragraph stands in markup. *)
Lemma wrapped_paragraph (word : string) :
  wrapped word ("<p>" +:+ word +:+ "</p>").
Proof.
  exists "", "<p>", "", "", "</p>", "".
  split; [constructor |].
  split; [apply (markup_tag "p" "");
          [discriminate | apply lacks_includes; reflexivity | constructor] |].
  split; [constructor |]. split; [constructor |].
  split; [apply (markup_tag "/p" "");
          [discriminate | apply lacks_includes; reflexivity | constructor] |].
  split; [constructor | reflexivity].
Qed.

(** A word stands in no markup and no white space as itself. *)
Lemma wrapped_bare (word : string) : wrapped word word.
Proof.
  exists "", "", "", "", "", "".
  repeat (split; [constructor |]). rewrite !append_empty_r. reflexivity.
Qed.
End PlainFacts.

(** ** Scans of a global pattern *)
Module ScanFacts.
Import Js Regex Completion CompletionFacts Harness Stated StringFacts TrimFacts.
Import OccurFacts.

Lemma lastChar_append (prev : option ascii) (a b : string) :
  lastChar prev (a +:+ b) = lastChar (lastChar prev a) b.
Proof.
  revert prev. induction a as [| c a IH]; intros prev; [reflexivity |].
  rewrite append_cons. cbn [lastChar]. apply IH.
Qed.

(** The character before a position is [c] exactly when the text before
    it ends with [c]. *)
Lemma lastChar_isChar (c : ascii) (before : string) :
  isChar c (lastChar None before) = true
  <-> exists b, before = b +:+ String c "".
Proof.
  assert (Hgen : forall s prev,
             isChar c (lastChar prev s) = true
             <-> (s = "" /\ isChar c prev = true)
                 \/ exists b, s = b +:+ String c "").
  { induction s as [| d s IH]; intros prev; cbn [lastChar].
    - split; [auto |]. intros [[_ H] | [b Hb]]; [exact H |].
      destruct b; discriminate.
    - rewrite IH. split.
      + intros [[-> H] | [b ->]].
        * right. exists "". cbn [isChar] in H. apply Ascii.eqb_eq in H.
          subst. reflexivity.
        * right. exists (String d b). reflexivity.
      + intros [[H _] | [b Hb]]; [discriminate |].
        destruct b as [| e b].
        * injection Hb as -> ->. left. split; [reflexivity |].
          cbn [isChar]. apply Ascii.eqb_refl.
        * rewrite append_cons in Hb. injection Hb as _ ->.
          right. exists b. reflexivity. }
  rewrite Hgen. split.
  - intros [[_ H] | H]; [discriminate | exact H].
  - auto.
Qed.

(** Two ways of cutting one text. *)
Lemma append_eq_append (a b c d : string) :
  a +:+ b = c +:+ d ->
  (exists x, a = c +:+ x /\ d = x +:+ b)
  \/ (exists x, x <> "" /\ c = a +:+ x /\ b = x +:+ d).
Proof.
  revert c. induction a as [| e a IH]; intros c H.
  - change ("" +:+ b) with b in H. destruct c as [| f c].
    + left. exists "". split; [reflexivity | exact (eq_sym H)].
    + right. exists (String f c). split; [discriminate |].
      split; [reflexivity | exact H].
  - destruct c as [| f c].
    + left. exists (String e a). split; [reflexivity |]. exact (eq_sym H).
    + rewrite !append_cons in H. injection H as -> H.
      destruct (IH c H) as [(x & -> & ->) | (x & Hx & -> & ->)].
      * left. exists x. split; reflexivity.
      * right. exists x. split; [exact Hx |]. split; reflexivity.
Qed.

Lemma append_split_cons (c : ascii) (P x p2 : string) :
  String c P = x +:+ p2 ->
  (x = "" /\ p2 = String c P) \/ exists x', x = String c x' /\ P = x' +:+ p2.
Proof.
  destruct x as [| d x]; intros H.
  - left. split; [reflexivity | exact (eq_sym H)].
  - rewrite append_cons in H. injection H as -> H. right. exists x. auto.
Qed.

Lemma append_split_empty (x p2 : string) : "" = x +:+ p2 -> x = "" /\ p2 = "".
Proof. destruct x; [intros H; split; [reflexivity | exact (eq_sym H)] | discriminate]. Qed.

Section Scan.
Context {A : Type} (matchAt : option ascii -> string -> option (A * nat)).

Lemma scan_skip (m rest : string) :
  forall prev,
    scan matchAt prev (String.length m) (m +:+ rest)
    = scan matchAt (lastChar prev m) 0 rest.
Proof.
  induction m as [| c m IH]; intros prev; [destruct rest; reflexivity |].
  rewrite append_cons. cbn [String.length scan lastChar]. apply IH.
Qed.

(** Where the pattern matches nowhere in a beginning of the text, the
    scan goes on behind it. *)
Lemma scan_none_prefix (rest : string) :
  forall (before : string) (prev : option ascii),
    (forall b1 b2,
        before = b1 +:+ b2 -> b2 <> "" ->
        matchAt (lastChar prev b1) (b2 +:+ rest) = None) ->
    scan matchAt prev 0 (before +:+ rest)
    = scan matchAt (lastChar prev before) 0 rest.
Proof.
  induction before as [| c before IH]; intros prev Hnone; [reflexivity |].
  rewrite append_cons. cbn [scan lastChar].
  assert (Hhere : matchAt prev (String c (before +:+ rest)) = None).
  { apply (Hnone "" (String c before) eq_refl). discriminate. }
  rewrite Hhere. apply IH.
  intros b1 b2 Hsplit Hb2. apply (Hnone (String c b1) b2); [| exact Hb2].
  rewrite Hsplit. reflexivity.
Qed.

(** The first match of the text is captured, and the scan goes on
    behind it. *)
Lemma scan_first (a : A) (m rest : string) :
  forall prev,
    m <> "" ->
    matchAt prev (m +:+ rest) = Some (a, String.length m) ->
    scan matchAt prev 0 (m +:+ rest)
    = a :: scan matchAt (lastChar prev m) 0 rest.
Proof.
  intros prev Hm Hmatch. destruct m as [| c m]; [contradiction |].
  rewrite append_cons in *. cbn [scan]. rewrite Hmatch.
  cbn [String.length Nat.pred lastChar]. f_equal. apply scan_skip.
Qed.

Lemma scan_prev (p q : option ascii) (s : string) :
  (forall t, matchAt p t = matchAt q t) ->
  scan matchAt p 0 s = scan matchAt q 0 s.
Proof.
  intros H. destruct s as [| c s]; [reflexivity |].
  cbn [scan]. rewrite (H (String c s)). reflexivity.
Qed.

Lemma scan_nothing (s : string) :
  (forall prev before from, s = before +:+ from -> matchAt prev from = None) ->
  forall prev skip, scan matchAt prev skip s = [].
Proof.
  induction s as [| c s IH]; intros Hnone prev skip; [reflexivity |].
  assert (Hrest : forall k, scan matchAt (Some c) k s = []).
  { intros k. apply IH. intros p before from ->.
    apply (Hnone p (String c before) from). reflexivity. }
  cbn [scan]. destruct skip as [| k]; [| apply Hrest].
  rewrite (Hnone prev "" (String c s) eq_refl). apply Hrest.
Qed.
End Scan.

(** ** The import pattern *)

(** [Hword : P = x +:+ p2], with [P] spelled out: no end of [P] that
    is not all of [P] begins the text of [Htail]. *)
Ltac no_border Hword Hp2 Htail :=
  repeat (apply append_split_cons in Hword as [[_ ->] | (? & -> & Hword)];
          [rewrite startsWith_cons in Htail; cbn in Htail;
           discriminate Htail |]);
  apply append_split_empty in Hword as [_ ->]; contradiction.

(** The word [faker] does not begin before its first occurrence. *)
Lemma faker_not_earlier (before b1 b2 tail : string) :
  lacks "faker" before -> before = b1 +:+ b2 -> b2 <> "" ->
  startsWith (b2 +:+ "faker" +:+ tail) "faker" = false.
Proof.
  intros Hlacks Hsplit Hb2.
  destruct (startsWith (b2 +:+ "faker" +:+ tail) "faker") eqn:Hstart;
    [| reflexivity].
  exfalso.
  destruct (startsWith_append_cases "faker" b2 ("faker" +:+ tail) Hstart)
    as [Hin | (p2 & Hword & Hp2 & Htail)].
  - apply startsWith_iff in Hin as [t ->].
    apply (Hlacks b1 t). exact Hsplit.
  - change ("faker" +:+ tail) with (String "f" ("aker" +:+ tail)) in Htail.
    apply append_split_cons in Hword as [[Hx _] | (x1 & _ & Hword)];
      [contradiction |].
    no_border Hword Hp2 Htail.
Qed.

Lemma importAt_not_faker (prev : option ascii) (s : string) :
  startsWith s "faker" = false -> importAt prev s = None.
Proof.
  intros H. unfold importAt. rewrite H. destruct (isChar "." prev); reflexivity.
Qed.

Lemma importAt_prev (p q : option ascii) (s : string) :
  isChar "." p = isChar "." q -> importAt p s = importAt q s.
Proof. intros H. unfold importAt. rewrite H. reflexivity. Qed.

Lemma endsWithout_isChar (c : ascii) (before : string) :
  endsWithout (String c "") before ->
  isChar c (lastChar None before) = false.
Proof.
  intros H. destruct (isChar c (lastChar None before)) eqn:E; [| reflexivity].
  apply lastChar_isChar in E as [b Hb]. destruct (H b Hb).
Qed.

Lemma dropBytes_faker (tail : string) : dropBytes 5 ("faker" +:+ tail) = tail.
Proof. apply (dropBytes_append "faker"). Qed.

(** E1: the first [faker] of the text, not behind a dot and with a dot
    somewhere behind it, is the first match; the scan goes on at the
    dot. *)
Lemma matchAll_import_first (before run rest : string) :
  lacks "faker" before -> endsWithout "." before -> lacks "." run ->
  matchAll importAt (before +:+ "faker" +:+ run +:+ "." +:+ rest)
  = ("faker" +:+ run) :: matchAll importAt ("." +:+ rest).
Proof.
  intros Hword Hdot Hrun. unfold matchAll.
  rewrite (scan_none_prefix importAt).
  2:{ intros b1 b2 Hsplit Hb2. apply importAt_not_faker.
      apply (faker_not_earlier before b1 b2); assumption. }
  rewrite <- (append_assoc "faker" run).
  rewrite (scan_first importAt ("faker" +:+ run) ("faker" +:+ run)).
  - f_equal. change ("." +:+ rest) with (String "." rest).
    cbn [scan]. rewrite !importAt_not_faker by reflexivity. reflexivity.
  - discriminate.
  - unfold importAt. rewrite (endsWithout_isChar "." before Hdot).
    rewrite append_assoc, startsWith_append, dropBytes_faker.
    apply lacks_includes in Hrun.
    change ("." +:+ rest) with (String "." rest).
    rewrite (splitAtChar_append "." run rest Hrun).
    rewrite length_append. reflexivity.
Qed.

(** E2: a [faker] that stands behind a dot is passed over. *)
Lemma matchAll_import_behind_dot (before rest : string) :
  lacks "faker" (before +:+ ".") ->
  matchAll importAt (before +:+ "." +:+ "faker" +:+ rest)
  = matchAll importAt rest.
Proof.
  intros Hword. unfold matchAll.
  rewrite <- (append_assoc before "." ("faker" +:+ rest)).
  rewrite <- (append_assoc (before +:+ ".") "faker" rest).
  rewrite (scan_none_prefix importAt).
  - apply scan_prev. intros t. apply importAt_prev.
    rewrite lastChar_append. reflexivity.
  - intros b1 b2 Hsplit Hb2.
    apply append_eq_append in Hsplit as [(x & Hx & Hb) | (x & Hx & Hb1 & Hb)].
    + subst b2. destruct x as [| c x].
      * (* at the word: it stands behind the dot *)
        change ("" +:+ "faker") with "faker".
        rewrite append_empty_r in Hx. subst b1.
        unfold importAt. rewrite lastChar_append. reflexivity.
      * (* before the word *)
        rewrite append_assoc. apply importAt_not_faker.
        apply (faker_not_earlier (before +:+ ".") b1 (String c x));
          [exact Hword | exact Hx | discriminate].
    + (* inside the word *)
      apply importAt_not_faker.
      apply append_split_cons in Hb as [[Hx' _] | (x1 & _ & Hb)];
        [contradiction |].
      repeat (apply append_split_cons in Hb as [[_ ->] | (? & _ & Hb)];
              [reflexivity |]).
      apply append_split_empty in Hb as [_ ->]. contradiction.
Qed.

(** E3: behind the last dot nothing matches. *)
Lemma matchAll_import_no_dot (before rest : string) :
  lacks "faker" before -> lacks "." rest ->
  matchAll importAt (before +:+ "faker" +:+ rest) = [].
Proof.
  intros Hword Hdot. apply scan_nothing. intros prev x from Hsplit.
  destruct (importAt prev from) as [[m len] |] eqn:Hmatch; [| reflexivity].
  exfalso.
  apply importAt_Some in Hmatch as (_ & run & tail & -> & -> & Hrun).
  symmetry in Hsplit.
  apply append_eq_append in Hsplit as [(y & _ & Hy) | (y & Hy & Hx & Hfrom)].
  - (* the match begins at the word or behind it, where no dot is *)
    assert (Hnone : lacks "." ("faker" +:+ rest)).
    { apply lacks_includes. apply lacks_includes in Hdot.
      change ("faker" +:+ rest)
        with (String "f" (String "a" (String "k" (String "e" (String "r" rest))))).
      rewrite !includes_char_cons. exact Hdot. }
    apply (Hnone (y +:+ "faker" +:+ run) tail).
    rewrite Hy, !append_assoc. reflexivity.
  - (* the match begins before the word *)
    pose proof (faker_not_earlier before x y rest Hword Hx Hy) as Hno.
    rewrite <- Hfrom, !append_assoc, startsWith_append in Hno.
    discriminate.
Qed.

End ScanFacts.

(** ** The patterns of links, and sets in the order of insertion *)
Module LinkFacts.
Import Js Regex Completion CompletionFacts Harness Stated StringFacts TrimFacts.
Import OccurFacts ScanFacts.

(** [[...new Set(l)]] keeps the first occurrence of every string: what
    stands before an element of the result is what stood before its
    first occurrence. *)
Lemma uniqueStrings_first (l : list string) :
  forall seen u1 x u2,
    uniqueStrings seen l = u1 ++ x :: u2 ->
    exists l1 l2,
      l = l1 ++ x :: l2 /\ (x ∉ l1) /\ (x ∉ seen)
      /\ forall y, y ∈ u1 <-> y ∈ l1 /\ (y ∉ seen).
Proof.
  induction l as [| y l IH]; intros seen u1 x u2 Hu; cbn [uniqueStrings] in Hu.
  - destruct u1; discriminate.
  - case_bool_decide as Hy.
    + destruct (IH _ _ _ _ Hu) as (l1 & l2 & -> & Hx & Hseen & Hu1).
      exists (y :: l1), l2. split; [reflexivity |].
      split; [apply not_elem_of_cons; split; [congruence | exact Hx] |].
      split; [exact Hseen |]. intros z. rewrite Hu1, elem_of_cons. split.
      * intros [Hz Hs]. auto.
      * intros [[-> | Hz] Hs]; [contradiction | auto].
    + destruct u1 as [| u u1]; cbn [app] in Hu; injection Hu as Hhead Hu.
      * subst y. exists [], l. split; [reflexivity |].
        split; [apply not_elem_of_nil |]. split; [exact Hy |].
        intros z. split; [intros H; inversion H | intros [H _]; inversion H].
      * subst u. destruct (IH _ _ _ _ Hu) as (l1 & l2 & -> & Hx & Hseen & Hu1).
        apply not_elem_of_cons in Hseen as [Hxy Hseen].
        exists (y :: l1), l2. split; [reflexivity |].
        split; [apply not_elem_of_cons; split; assumption |].
        split; [exact Hseen |]. intros z.
        rewrite !elem_of_cons, Hu1, not_elem_of_cons. split.
        -- intros [-> | [Hz [_ Hs]]]; auto.
        -- intros [[-> | Hz] Hs]; [auto |].
           destruct (decide (z = y)) as [-> | Hne]; auto.
Qed.

Lemma matchesHttp_iff (url : string) :
  matchesHttp url = true
  <-> exists rest, url = "http://" +:+ rest \/ url = "https://" +:+ rest.
Proof.
  unfold matchesHttp. rewrite orb_true_iff, !startsWith_iff. split.
  - intros [[rest H] | [rest H]]; exists rest; auto.
  - intros [rest [H | H]]; [left | right]; exists rest; exact H.
Qed.

Lemma length_link (label url : string) :
  String.length ("[" +:+ label +:+ "](" +:+ url +:+ ")")
  = 4 + String.length label + String.length url.
Proof. rewrite !length_append. cbn [String.length]. lia. Qed.

(** A link before which no link begins is the first match, and the
    scan goes on behind its closing parenthesis. *)
Lemma matchAll_markdown_leftmost (before label url rest : string) :
  noneEarlier linkAhead before
    ("[" +:+ label +:+ "](" +:+ url +:+ ")" +:+ rest) ->
  label <> "" -> lacks "]" label -> url <> "" -> lacks ")" url ->
  matchAll markdownLinkAt
    (before +:+ "[" +:+ label +:+ "](" +:+ url +:+ ")" +:+ rest)
  = url :: matchAll markdownLinkAt rest.
Proof.
  intros Hbefore Hlabel Hbracket Hurl Hparen. unfold matchAll.
  rewrite (scan_none_prefix markdownLinkAt).
  2:{ intros b1 b2 Hsplit Hb2.
      destruct (markdownLinkAt (lastChar None b1)
                  (b2 +:+ "[" +:+ label +:+ "](" +:+ url +:+ ")" +:+ rest))
        as [[u len] |] eqn:Hmatch; [| reflexivity].
      exfalso. apply (Hbefore b1 b2 Hsplit Hb2).
      apply markdownLinkAt_Some in Hmatch
        as (l & r & Htext & Hl & Hu & Hlb & Hup).
      apply lacks_includes in Hlb, Hup.
      exists l, u, r. auto. }
  assert (Hassoc : "[" +:+ label +:+ "](" +:+ url +:+ ")" +:+ rest
                   = ("[" +:+ label +:+ "](" +:+ url +:+ ")") +:+ rest).
  { rewrite !append_assoc. reflexivity. }
  rewrite Hassoc.
  rewrite (scan_first markdownLinkAt url).
  - f_equal. apply scan_prev. reflexivity.
  - discriminate.
  - rewrite <- Hassoc, length_link.
    apply lacks_includes in Hbracket, Hparen.
    destruct label as [| c label]; [contradiction |].
    destruct url as [| d url]; [contradiction |].
    unfold markdownLinkAt.
    change ("[" +:+ String c label +:+ "](" +:+ String d url +:+ ")" +:+ rest)
      with (String "[" (String c label
                          +:+ String "]" (String "(" (String d url
                                                        +:+ String ")" rest)))).
    cbn [afterChar]. rewrite Ascii.eqb_refl.
    rewrite (splitAtChar_append "]" (String c label) _ Hbracket).
    cbn [afterChar]. rewrite Ascii.eqb_refl.
    rewrite (splitAtChar_append ")" (String d url) rest Hparen).
    reflexivity.
Qed.

(** No link begins in text without an opening bracket. *)
Lemma noneEarlier_markdown (before behind : string) :
  lacks "[" before -> noneEarlier linkAhead before behind.
Proof.
  intros Hbefore b1 b2 Hsplit Hb2 (l & u & r & _ & _ & _ & _ & Htext).
  destruct b2 as [| c b2]; [contradiction |].
  rewrite append_cons in Htext.
  change ("[" +:+ l +:+ "](" +:+ u +:+ ")" +:+ r)
    with (String "[" (l +:+ "](" +:+ u +:+ ")" +:+ r)) in Htext.
  injection Htext as -> _.
  apply (Hbefore b1 b2). exact Hsplit.
Qed.

Lemma matchAll_markdown_first (before label url rest : string) :
  lacks "[" before ->
  label <> "" -> lacks "]" label -> url <> "" -> lacks ")" url ->
  matchAll markdownLinkAt
    (before +:+ "[" +:+ label +:+ "](" +:+ url +:+ ")" +:+ rest)
  = url :: matchAll markdownLinkAt rest.
Proof.
  intros Hbefore. apply matchAll_markdown_leftmost, noneEarlier_markdown, Hbefore.
Qed.

Lemma length_href (href : string) :
  String.length (hrefOpening +:+ href +:+ String DQUOTE "")
  = 7 + String.length href.
Proof.
  rewrite !length_append. change (String.length hrefOpening) with 6.
  cbn [String.length]. lia.
Qed.

Lemma href_not_earlier (before b1 b2 tail : string) :
  lacks hrefOpening before -> before = b1 +:+ b2 -> b2 <> "" ->
  startsWith (b2 +:+ hrefOpening +:+ tail) hrefOpening = false.
Proof.
  intros Hlacks Hsplit Hb2.
  destruct (startsWith (b2 +:+ hrefOpening +:+ tail) hrefOpening) eqn:Hstart;
    [| reflexivity].
  exfalso.
  destruct (startsWith_append_cases hrefOpening b2 (hrefOpening +:+ tail) Hstart)
    as [Hin | (p2 & Hword & Hp2 & Htail)].
  - apply startsWith_iff in Hin as [t ->].
    apply (Hlacks b1 t). exact Hsplit.
  - change (hrefOpening +:+ tail)
      with (String "h" ("ref=" +:+ String DQUOTE tail)) in Htail.
    change hrefOpening
      with (String "h" (String "r" (String "e" (String "f"
              (String "=" (String DQUOTE "")))))) in Hword.
    apply append_split_cons in Hword as [[Hx _] | (x1 & _ & Hword)];
      [contradiction |].
    no_border Hword Hp2 Htail.
Qed.

(** What a match of the pattern for rendered links looks like. *)
Lemma hrefAt_Some (prev : option ascii) (s href : string) (len : nat) :
  hrefAt prev s = Some (href, len) ->
  exists rest,
    s = hrefOpening +:+ href +:+ String DQUOTE rest
    /\ href <> "" /\ includes href (String DQUOTE "") = false.
Proof.
  unfold hrefAt. intros H.
  destruct (startsWith s ("href=" +:+ String DQUOTE "")) eqn:Hprefix;
    [| discriminate].
  destruct (splitAtChar DQUOTE (dropBytes 6 s)) as [[[| d u] rest] |] eqn:Hsplit;
    try discriminate.
  injection H as Hhref Hlen. subst href len.
  apply splitAtChar_Some in Hsplit as [Hrest Hquote].
  exists rest. split; [| split; [discriminate | exact Hquote]].
  rewrite (startsWith_app s _ Hprefix).
  change (String.length ("href=" +:+ String DQUOTE "")) with 6.
  rewrite Hrest. reflexivity.
Qed.

(** A value before which no [href] begins is the first match, and the
    scan goes on behind its closing quote. *)
Lemma matchAll_href_leftmost (before href rest : string) :
  noneEarlier hrefAhead before (hrefOpening +:+ href +:+ String DQUOTE rest) ->
  href <> "" -> lacks (String DQUOTE "") href ->
  matchAll hrefAt
    (before +:+ hrefOpening +:+ href +:+ String DQUOTE rest)
  = href :: matchAll hrefAt rest.
Proof.
  intros Hbefore Hhref Hquote. unfold matchAll.
  rewrite (scan_none_prefix hrefAt).
  2:{ intros b1 b2 Hsplit Hb2.
      destruct (hrefAt (lastChar None b1)
                  (b2 +:+ hrefOpening +:+ href +:+ String DQUOTE rest))
        as [[h len] |] eqn:Hmatch; [| reflexivity].
      exfalso. apply (Hbefore b1 b2 Hsplit Hb2).
      apply hrefAt_Some in Hmatch as (r & Htext & Hh & Hq).
      apply lacks_includes in Hq. exists h, r. auto. }
  assert (Hassoc : hrefOpening +:+ href +:+ String DQUOTE rest
                   = (hrefOpening +:+ href +:+ String DQUOTE "") +:+ rest).
  { rewrite !append_assoc. reflexivity. }
  rewrite Hassoc.
  rewrite (scan_first hrefAt href).
  - f_equal. apply scan_prev. reflexivity.
  - discriminate.
  - rewrite <- Hassoc, length_href. unfold hrefAt. fold hrefOpening.
    rewrite startsWith_append.
    change 6 with (String.length hrefOpening). rewrite dropBytes_append.
    apply lacks_includes in Hquote.
    destruct href as [| d href]; [contradiction |].
    rewrite (splitAtChar_append DQUOTE (String d href) rest Hquote).
    reflexivity.
Qed.

(** No [href] begins in text without [href=] and a double quote. *)
Lemma noneEarlier_href (before tail : string) :
  lacks hrefOpening before ->
  noneEarlier hrefAhead before (hrefOpening +:+ tail).
Proof.
  intros Hbefore b1 b2 Hsplit Hb2 (h & r & _ & _ & Htext).
  pose proof (href_not_earlier before b1 b2 tail Hbefore Hsplit Hb2) as Hnot.
  rewrite Htext, startsWith_append in Hnot. discriminate.
Qed.

Lemma matchAll_href_first (before href rest : string) :
  lacks hrefOpening before ->
  href <> "" -> lacks (String DQUOTE "") href ->
  matchAll hrefAt
    (before +:+ hrefOpening +:+ href +:+ String DQUOTE rest)
  = href :: matchAll hrefAt rest.
Proof.
  intros Hbefore. apply matchAll_href_leftmost, noneEarlier_href, Hbefore.
Qed.

(** Without an opening bracket there is no markdown link, without
    [href=] no link of rendered HTML. *)
Lemma matchAll_markdown_none (text : string) :
  includes text "[" = false -> matchAll markdownLinkAt text = [].
Proof.
  intros Hnone. apply scan_nothing.
  intros prev before from ->. apply includes_false_suffix in Hnone.
  unfold markdownLinkAt, afterChar. destruct from as [| c from];
    [reflexivity |].
  rewrite includes_char_cons in Hnone.
  apply orb_false_elim in Hnone as [Hc _]. rewrite Hc. reflexivity.
Qed.

Lemma matchAll_href_none (text : string) :
  includes text "href=" = false -> matchAll hrefAt text = [].
Proof.
  intros Hnone. apply scan_nothing.
  intros prev before from ->. apply includes_false_suffix in Hnone.
  unfold hrefAt.
  destruct (startsWith from ("href=" +:+ String DQUOTE "")) eqn:Hprefix;
    [| reflexivity].
  exfalso. apply includes_false_startsWith in Hnone.
  rewrite (startsWith_app from _ Hprefix) in Hnone.
  discriminate.
Qed.
End LinkFacts.

(** ** The replacement of the documentation domain *)
Module DomainFacts.
Import Js Regex Completion CompletionFacts Harness Stated StringFacts TrimFacts.
Import OccurFacts ScanFacts.

Lemma lastDocsDomain_unfold (s : string) :
  lastDocsDomainInLine s
  = match (if startsWithAny lineTerminators s then None
           else match s with
                | EmptyString => None
                | String _ s' => lastDocsDomainInLine s'
                end) with
    | Some r => Some r
    | None => docsDomainAt s
    end.
Proof. destruct s; reflexivity. Qed.

(** A line that holds no terminator is not ended by what follows it,
    when that begins with the letter f. *)
Lemma oneLine_open (s rest : string) :
  s <> "" -> oneLine s ->
  startsWithAny lineTerminators (s +:+ String "f" rest) = false.
Proof.
  intros Hs Hline. unfold startsWithAny.
  destruct (stripOneOf lineTerminators (s +:+ String "f" rest)) eqn:E;
    [| reflexivity].
  exfalso. assert (Hnone : stripOneOf lineTerminators (s +:+ String "f" rest) = None);
    [| congruence].
  apply stripOneOf_None. intros p Hp.
  destruct (startsWith (s +:+ String "f" rest) p) eqn:Hstart; [| reflexivity].
  exfalso.
  destruct (startsWith_append_cases p s (String "f" rest) Hstart)
    as [Hin | (p2 & Hword & Hp2 & Htail)].
  - apply startsWith_iff in Hin as [t Ht].
    apply (Hline p Hp "" t). exact Ht.
  - unfold lineTerminators in Hp.
    repeat (apply elem_of_cons in Hp as [-> | Hp];
            [cbn in Hword;
             apply append_split_cons in Hword as [[Hx _] | (x1 & _ & Hword)];
             [contradiction |];
             no_border Hword Hp2 Htail |]).
    inversion Hp.
Qed.

Lemma docsDomainAt_here (c : ascii) (path : string) :
  nat_of_ascii c < 128 -> c <> "010"%char -> c <> "013"%char ->
  docsDomainAt ("fakerjs" +:+ String c ("dev/" +:+ path)) = Some path.
Proof.
  intros Hascii Hlf Hcr. unfold docsDomainAt.
  rewrite startsWith_append.
  change 7 with (String.length "fakerjs"). rewrite dropBytes_append.
  unfold dotThen.
  assert (Hopen : startsWithAny lineTerminators (String c ("dev/" +:+ path)) = false).
  { unfold startsWithAny.
    destruct (stripOneOf lineTerminators (String c ("dev/" +:+ path))) eqn:E;
      [| reflexivity].
    exfalso. apply stripOneOf_Some in E as (p & Hp & Hs).
    unfold lineTerminators in Hp.
    repeat (apply elem_of_cons in Hp as [-> | Hp];
            [vm_compute in Hs; injection Hs as Hc _;
             first [contradiction
                   | subst c; vm_compute in Hascii; lia] |]).
    inversion Hp. }
  rewrite Hopen. apply Nat.ltb_lt in Hascii. rewrite Hascii.
  rewrite startsWith_append.
  change 4 with (String.length "dev/"). rewrite dropBytes_append. reflexivity.
Qed.

Lemma lastDocsDomain_none (s : string) :
  lacks "fakerjs" s -> lastDocsDomainInLine s = None.
Proof.
  induction s as [| c s IH]; intros Hlacks; [reflexivity |].
  rewrite lastDocsDomain_unfold.
  rewrite IH by exact (lacks_suffix "fakerjs" (String c "") s Hlacks).
  apply lacks_includes in Hlacks. rewrite includes_cons in Hlacks.
  apply orb_false_elim in Hlacks as [Hstart _].
  unfold docsDomainAt. rewrite Hstart.
  destruct (startsWithAny lineTerminators (String c s)); reflexivity.
Qed.

Lemma domain_once (c : ascii) (path : string) :
  lacks "fakerjs" path ->
  lacks "fakerjs" ("akerjs" +:+ String c ("dev/" +:+ path)).
Proof.
  intros Hpath. apply lacks_includes. apply lacks_includes in Hpath.
  change ("akerjs" +:+ String c ("dev/" +:+ path))
    with (String "a" (String "k" (String "e" (String "r" (String "j"
            (String "s" (String c (String "d" (String "e" (String "v"
               (String "/" path))))))))))).
  rewrite !includes_cons, !startsWith_cons, Hpath.
  destruct (Ascii.eqb "f" c); reflexivity.
Qed.

Lemma lastDocsDomain_found (c : ascii) (path : string) :
  nat_of_ascii c < 128 -> c <> "010"%char -> c <> "013"%char ->
  lacks "fakerjs" path ->
  forall before, oneLine before ->
    lastDocsDomainInLine (before +:+ "fakerjs" +:+ String c ("dev/" +:+ path))
    = Some path.
Proof.
  intros Hascii Hlf Hcr Hpath.
  induction before as [| d before IH]; intros Hline.
  - change ("" +:+ "fakerjs" +:+ String c ("dev/" +:+ path))
      with (String "f" ("akerjs" +:+ String c ("dev/" +:+ path))).
    rewrite lastDocsDomain_unfold.
    rewrite (lastDocsDomain_none _ (domain_once c path Hpath)).
    change (String "f" ("akerjs" +:+ String c ("dev/" +:+ path)))
      with ("fakerjs" +:+ String c ("dev/" +:+ path)).
    rewrite docsDomainAt_here by assumption.
    destruct (startsWithAny _ _); reflexivity.
  - rewrite lastDocsDomain_unfold.
    change ("fakerjs" +:+ String c ("dev/" +:+ path))
      with (String "f" ("akerjs" +:+ String c ("dev/" +:+ path))).
    rewrite (oneLine_open (String d before)) by (discriminate || exact Hline).
    rewrite append_cons.
    change (String "f" ("akerjs" +:+ String c ("dev/" +:+ path)))
      with ("fakerjs" +:+ String c ("dev/" +:+ path)).
    rewrite IH; [reflexivity |].
    intros t Ht. exact (lacks_suffix t (String d "") before (Hline t Ht)).
Qed.

(** The replacement removes the beginning of the text up to the last
    [fakerjs.dev/] of its first line and puts a slash there.  The dot
    of the pattern is a wildcard: any ASCII character other than a line
    feed or a carriage return may stand in its place. *)
Lemma stripDocsDomain_last (c : ascii) (before path : string) :
  nat_of_ascii c < 128 -> c <> "010"%char -> c <> "013"%char ->
  oneLine before -> lacks "fakerjs" path ->
  stripDocsDomain (before +:+ "fakerjs" +:+ String c ("dev/" +:+ path))
  = "/" +:+ path.
Proof.
  intros Hascii Hlf Hcr Hline Hpath. unfold stripDocsDomain.
  pose proof (lastDocsDomain_found c path Hascii Hlf Hcr Hpath before Hline) as H.
  destruct (before +:+ "fakerjs" +:+ String c ("dev/" +:+ path)) as [| e s] eqn:E.
  - destruct before; discriminate.
  - cbn [stripDocsDomainFrom]. rewrite H. reflexivity.
Qed.

(** Where the domain stands on a later line, the lines before it stay,
    line separator and all. *)
Example stripDocsDomain_later_line :
  stripDocsDomain
    ("/api/a" +:+ bytes [226; 128; 168] +:+ "xfakerjs.dev/b.html")
  = "/api/a" +:+ bytes [226; 128; 168] +:+ "/b.html"
  /\ stripDocsDomain ("see" +:+ LF +:+ "https://fakerjs.dev/api/a.html")
     = "see" +:+ LF +:+ "/api/a.html".
Proof. vm_compute. split; reflexivity. Qed.

(** A text without [fakerjs] is left as it is. *)
Lemma stripDocsDomain_none (s : string) :
  lacks "fakerjs" s -> stripDocsDomain s = s.
Proof.
  unfold stripDocsDomain. generalize 0.
  induction s as [| c s IH]; intros k Hlacks; [reflexivity |].
  pose proof (lacks_suffix "fakerjs" (String c "") s Hlacks) as Hrest.
  cbn [stripDocsDomainFrom]. destruct k as [| k].
  - rewrite (lastDocsDomain_none _ Hlacks). rewrite IH by exact Hrest. reflexivity.
  - rewrite IH by exact Hrest. reflexivity.
Qed.
End DomainFacts.

(** ** verify-jsdoc-tags.spec.ts: materialization and the two runs *)
Module HarnessRunFacts.
Import Js Regex Completion CompletionFacts Harness Stated StringFacts.
Import TrimFacts.

Section Callable.
Context {ModuleRefl Signature : Type}.
Context {typedoc : Typedoc ModuleRefl Signature} {runtime : Runtime}.

(** [describe.each] visits every method of every module. *)
Lemma elem_of_callables
    (modules : list (string * (ModuleRefl * list (string * Signature))))
    (moduleName methodName : string) (signature : Signature) :
  (moduleName, methodName, signature) ∈ callables modules
  <-> exists refl methods,
        (moduleName, (refl, methods)) ∈ modules
        /\ (methodName, signature) ∈ methods.
Proof.
  unfold callables. rewrite list_elem_of_In, in_flat_map. split.
  - intros ([name [refl methods]] & Hentry & Hmethod). simpl in Hmethod.
    apply in_map_iff in Hmethod as ([name' callable] & Heq & Hmethod).
    simpl in Heq. injection Heq as Hname Hmethod' Hcallable. subst.
    exists refl, methods. split; apply list_elem_of_In; assumption.
  - intros (refl & methods & Hentry & Hmethod).
    exists (moduleName, (refl, methods)).
    split; [apply list_elem_of_In; exact Hentry |]. simpl.
    apply in_map_iff. exists (methodName, signature).
    split; [reflexivity | apply list_elem_of_In; exact Hmethod].
Qed.

Lemma materializeExamples_file (moduleName methodName : string)
    (signature : Signature) (fs : FileSystem) :
  files (materializeExamples moduleName methodName signature fs)
    !! resolvePathToMethodFile moduleName methodName
  = Some (materialize (extractJoinedRawExamples signature)).
Proof.
  unfold materializeExamples, writeFileSync. simpl.
  apply lookup_insert_eq.
Qed.

(** C9.  Running the hook of a callable a second time leaves the
    directories and files as the first run left them; the file of the
    callable holds the materialized text of its joined examples, which
    depends on the signature alone and not on what was on disk before. *)
Theorem materialization_idempotent (moduleName methodName : string)
    (signature : Signature) (fs fs' : FileSystem) :
  materializeExamples moduleName methodName signature
    (materializeExamples moduleName methodName signature fs)
  = materializeExamples moduleName methodName signature fs
  /\ files (materializeExamples moduleName methodName signature fs)
       !! resolvePathToMethodFile moduleName methodName
     = Some (materialize (extractJoinedRawExamples signature))
  /\ files (materializeExamples moduleName methodName signature fs)
       !! resolvePathToMethodFile moduleName methodName
     = files (materializeExamples moduleName methodName signature fs')
         !! resolvePathToMethodFile moduleName methodName.
Proof.
  split; [| split].
  - unfold materializeExamples, writeFileSync, mkdirSyncRecursive. simpl.
    f_equal.
    + rewrite (assoc_L (∪)), (idemp_L (∪)). reflexivity.
    + apply insert_insert_eq.
  - apply materializeExamples_file.
  - rewrite !materializeExamples_file. reflexivity.
Qed.

(** C3.  After the hook of a callable the file at its path holds the
    materialized examples, and the example check of that callable passes
    exactly when [extractJoinedRawExamples] is not the empty string and
    the import of that file under [?scope=example] is fulfilled (a
    rejected import, a throw while the file is evaluated, fails it). *)
Theorem example_check (moduleName methodName : string)
    (signature : Signature) (fs : FileSystem) :
  let written := materializeExamples moduleName methodName signature fs in
  let path := resolvePathToMethodFile moduleName methodName in
  files written !! path
  = Some (materialize (extractJoinedRawExamples signature))
  /\ (verifyExampleTag moduleName methodName signature written = Ok tt
      <-> extractJoinedRawExamples signature <> ""
          /\ settled (importModule (files written) (path +:+ "?scope=example"))
             = Fulfilled).
Proof.
  intros written path. split; [apply materializeExamples_file |].
  unfold verifyExampleTag. fold path.
  rewrite andThen_unit_Ok, expect_Ok, negb_true_iff, String.eqb_neq.
  destruct (settled (importModule (files written) (path +:+ "?scope=example")))
    as [| reason]; split; intros [Hne Hrun]; split; auto; discriminate.
Qed.





End Callable.


End HarnessRunFacts.

(** ** verify-jsdoc-tags.spec.ts: the checks of references, links and
    parameters *)
Module HarnessCheckFacts.
Import Js Regex Completion CompletionFacts Harness Stated StringFacts.
Import TrimFacts OccurFacts PlainFacts ScanFacts LinkFacts DomainFacts.

Lemma elem_of_foldl_app {E : Type} (f : E -> list string) (l : list E)
    (x : string) :
  forall acc,
    x ∈ foldl (fun acc e => acc ++ f e) acc l
    <-> x ∈ acc \/ exists e, e ∈ l /\ x ∈ f e.
Proof.
  induction l as [| e l IH]; intros acc; simpl.
  - split; [auto | intros [H | (e & He & _)]; [exact H | inversion He]].
  - rewrite IH, elem_of_app. split.
    + intros [[H | H] | (e' & He' & H)].
      * left. exact H.
      * right. exists e. split; [left | exact H].
      * right. exists e'. split; [right; exact He' | exact H].
    + intros [H | (e' & He' & H)]; [auto |].
      apply elem_of_cons in He' as [-> | He']; eauto.
Qed.

Section Sets.
Context {ModuleRefl Signature : Type}.
Context {typedoc : Typedoc ModuleRefl Signature} {runtime : Runtime}.
Variable modules : list (string * (ModuleRefl * list (string * Signature))).

Lemma elem_of_values (entry : ModuleRefl * list (string * Signature)) :
  entry ∈ map snd modules
  <-> exists moduleName, (moduleName, entry) ∈ modules.
Proof.
  change (map snd modules) with (snd <$> modules).
  rewrite list_elem_of_fmap. split.
  - intros ([moduleName entry'] & -> & H). exists moduleName. exact H.
  - intros (moduleName & H). exists (moduleName, entry). auto.
Qed.

Lemma elem_of_keys (methods : list (string * Signature)) (methodName : string) :
  methodName ∈ map fst methods
  <-> exists signature, (methodName, signature) ∈ methods.
Proof.
  change (map fst methods) with (fst <$> methods).
  rewrite list_elem_of_fmap. split.
  - intros ([methodName' signature] & -> & H). exists signature. exact H.
  - intros (signature & H). exists (methodName, signature). auto.
Qed.

(** The reference set holds [faker.<moduleFieldName>.<methodName>] for
    every method of every module, and nothing else. *)
Lemma elem_of_allowedReferences (x : string) :
  x ∈ allowedReferences modules
  <-> exists moduleName refl methods methodName signature,
        (moduleName, (refl, methods)) ∈ modules
        /\ (methodName, signature) ∈ methods
        /\ x = "faker." +:+ extractModuleFieldName refl +:+ "." +:+ methodName.
Proof.
  unfold allowedReferences, referenceList.
  rewrite elem_of_list_to_set, elem_of_foldl_app. split.
  - intros [H | ([refl methods] & Hentry & H)]; [inversion H |].
    apply elem_of_values in Hentry as (moduleName & Hentry).
    unfold referencesOf in H. simpl in H.
    change (map ?f ?l) with (f <$> l) in H.
    apply list_elem_of_fmap in H as (methodName & -> & H).
    apply elem_of_keys in H as (signature & H).
    exists moduleName, refl, methods, methodName, signature. auto.
  - intros (moduleName & refl & methods & methodName & signature
            & Hentry & Hmethod & ->).
    right. exists (refl, methods). split.
    + apply elem_of_values. exists moduleName. exact Hentry.
    + unfold referencesOf. simpl.
      change (map ?f ?l) with (f <$> l).
      apply list_elem_of_fmap. exists methodName. split; [reflexivity |].
      apply elem_of_keys. exists signature. exact Hmethod.
Qed.

(** The link set holds [/api/<moduleFieldName>.html] for every module and
    [/api/<moduleFieldName>.html#<methodName lowercased>] for every method
    of every module, and nothing else. *)
Lemma elem_of_allowedLinks (x : string) :
  x ∈ allowedLinks modules
  <-> exists moduleName refl methods,
        (moduleName, (refl, methods)) ∈ modules
        /\ (x = "/api/" +:+ extractModuleFieldName refl +:+ ".html"
            \/ exists methodName signature,
                 (methodName, signature) ∈ methods
                 /\ x = "/api/" +:+ extractModuleFieldName refl +:+ ".html#"
                          +:+ toLowerCase methodName).
Proof.
  unfold allowedLinks, linkList.
  rewrite elem_of_list_to_set, elem_of_foldl_app. split.
  - intros [H | ([refl methods] & Hentry & H)]; [inversion H |].
    apply elem_of_values in Hentry as (moduleName & Hentry).
    exists moduleName, refl, methods. split; [exact Hentry |].
    unfold linksOf in H. simpl in H.
    apply elem_of_cons in H as [-> | H]; [left; reflexivity |].
    change (map ?f ?l) with (f <$> l) in H.
    apply list_elem_of_fmap in H as (methodName & -> & H).
    apply elem_of_keys in H as (signature & H).
    right. exists methodName, signature. auto.
  - intros (moduleName & refl & methods & Hentry & H).
    right. exists (refl, methods). split.
    + apply elem_of_values. exists moduleName. exact Hentry.
    + unfold linksOf. simpl. apply elem_of_cons.
      destruct H as [-> | (methodName & signature & Hmethod & ->)];
        [left; reflexivity | right].
      change (map ?f ?l) with (f <$> l).
      apply list_elem_of_fmap. exists methodName. split; [reflexivity |].
      apply elem_of_keys. exists signature. exact Hmethod.
Qed.
Lemma verifySee_Ok (link : string) :
  verifySee modules link = Ok tt
  <-> (startsWith link "faker." = true ->
       includes link "(" = true /\ includes link ")" = true
       /\ replaceParenTail link ∈ allowedReferences modules).
Proof.
  unfold verifySee. destruct (startsWith link "faker.").
  - rewrite !andThen_unit_Ok, !expect_Ok, bool_decide_eq_true. tauto.
  - split; [discriminate | reflexivity].
Qed.

Lemma allowedReferences_singleLine (x : string) :
  forallb singleLine (referenceList modules) = true ->
  x ∈ allowedReferences modules -> singleLine x = true.
Proof.
  intros Hall Hx. rewrite forallb_forall in Hall. apply Hall.
  apply list_elem_of_In. unfold allowedReferences in Hx.
  apply elem_of_list_to_set in Hx. exact Hx.
Qed.

(** C5.  No allowed reference holding a line terminator (module field
    names and method names are identifiers): the reference set holds
    exactly [faker.<moduleFieldName>.<methodName>] for every method of
    every module; when the check of the [@see] tags passes, every entry
    that begins with [faker.] contains an opening and a closing
    parenthesis and its dotted path, the text before the first opening
    parenthesis, is in the reference set; single-line entries with these
    properties make the check pass; and entries that do not begin with
    [faker.] have no part in the outcome. *)
Theorem see_tags_checked (signature : Signature) :
  forallb singleLine (referenceList modules) = true ->
  (forall x,
      x ∈ allowedReferences modules
      <-> exists moduleName refl methods methodName callable,
            (moduleName, (refl, methods)) ∈ modules
            /\ (methodName, callable) ∈ methods
            /\ x = "faker." +:+ extractModuleFieldName refl
                     +:+ "." +:+ methodName)
  /\ (verifySeeTags modules signature = Ok tt ->
      forall link,
        link ∈ extractSeeAlsos signature ->
        startsWith link "faker." = true ->
        includes link "(" = true /\ includes link ")" = true
        /\ dottedPath link ∈ allowedReferences modules)
  /\ ((forall link,
         link ∈ extractSeeAlsos signature ->
         startsWith link "faker." = true ->
         singleLine link = true
         /\ includes link "(" = true /\ includes link ")" = true
         /\ dottedPath link ∈ allowedReferences modules) ->
      verifySeeTags modules signature = Ok tt)
  /\ verifySeeTags modules signature
     = forEach (verifySee modules)
         (List.filter (fun link => startsWith link "faker.")
                      (extractSeeAlsos signature)).
Proof.
  intros Hnames. split; [exact elem_of_allowedReferences |].
  split; [| split].
  - unfold verifySeeTags. rewrite forEach_Ok. intros Hpass link Hlink Hprefix.
    destruct (proj1 (verifySee_Ok link) (Hpass link Hlink) Hprefix)
      as (Hopen & Hclose & Hmember).
    split; [exact Hopen | split; [exact Hclose |]].
    rewrite <- (replaceParenTail_of_singleLine_result link); [exact Hmember |].
    apply allowedReferences_singleLine; assumption.
  - unfold verifySeeTags. rewrite forEach_Ok. intros Hall link Hlink.
    apply verifySee_Ok. intros Hprefix.
    destruct (Hall link Hlink Hprefix) as (Hline & Hopen & Hclose & Hmember).
    split; [exact Hopen | split; [exact Hclose |]].
    rewrite (replaceParenTail_of_singleLine link Hline). exact Hmember.
  - unfold verifySeeTags. apply forEach_filter.
    intros link Hprefix. unfold verifySee. rewrite Hprefix. reflexivity.
Qed.

Lemma assertLink_markdown_Ok (url : string) :
  assertLink modules false url = Ok tt
  <-> (exists rest, url = "http://" +:+ rest \/ url = "https://" +:+ rest)
      /\ isURL url = true
      /\ ((exists before behind,
             url = before +:+ "fakerjs.dev/api/" +:+ behind) ->
          stripDocsDomain url ∈ allowedLinks modules).
Proof.
  rewrite <- matchesHttp_iff, <- includes_iff.
  unfold assertLink. rewrite !andThen_unit_Ok, !expect_Ok.
  destruct (includes url "fakerjs.dev/api/").
  - rewrite expect_Ok, bool_decide_eq_true. tauto.
  - split; [intros [H _]; split; [tauto | split; [tauto | discriminate]] |].
    intros (Hhttp & Hurl & _). auto.
Qed.

Lemma assertDescription_markdown_Ok (text : string) :
  assertDescription modules text false = Ok tt
  <-> forall url,
        url ∈ descriptionLinks text false ->
        (exists rest, url = "http://" +:+ rest \/ url = "https://" +:+ rest)
        /\ isURL url = true
        /\ ((exists before behind,
               url = before +:+ "fakerjs.dev/api/" +:+ behind) ->
            stripDocsDomain url ∈ allowedLinks modules).
Proof.
  unfold assertDescription. rewrite forEach_Ok.
  split; intros Hall url Hurl; apply assertLink_markdown_Ok, Hall, Hurl.
Qed.

(** C6, as the code has it.  The link set holds exactly
    [/api/<moduleFieldName>.html] for every module and
    [/api/<moduleFieldName>.html#<methodName lowercased>] for every
    method.  The check of a plain-text description passes exactly when
    every URL of a markdown link in it begins with [http://] or
    [https://], satisfies [isURL] and, if [fakerjs.dev/api/] occurs in
    it, is in the link set once the domain is replaced.  The links of a
    description: each URL found stands in it as [[label](url)], label
    and URL not empty, the label without a closing bracket, the URL
    without a closing parenthesis; such a link before which no other
    begins (as behind text without an opening bracket) is the first one
    found, and the search goes on behind it; a description without an
    opening bracket has none.  So a description whose first link has a
    URL that begins with neither scheme fails the check.  The replacement: the text up to the last [fakerjs.dev/] of a first line
    becomes a slash (the dot of the pattern standing for any ASCII
    character that ends no line), and a URL without [fakerjs] stays as
    it is. *)
Theorem description_links_checked (text : string) :
  (forall x,
      x ∈ allowedLinks modules
      <-> exists moduleName refl methods,
            (moduleName, (refl, methods)) ∈ modules
            /\ (x = "/api/" +:+ extractModuleFieldName refl +:+ ".html"
                \/ exists methodName callable,
                     (methodName, callable) ∈ methods
                     /\ x = "/api/" +:+ extractModuleFieldName refl
                              +:+ ".html#" +:+ toLowerCase methodName))
  /\ (assertDescription modules text false = Ok tt
      <-> forall url,
            url ∈ descriptionLinks text false ->
            (exists rest, url = "http://" +:+ rest \/ url = "https://" +:+ rest)
            /\ isURL url = true
            /\ ((exists before behind,
                   url = before +:+ "fakerjs.dev/api/" +:+ behind) ->
                stripDocsDomain url ∈ allowedLinks modules))
  /\ (forall url,
        url ∈ descriptionLinks text false ->
        exists before label rest,
          text = before +:+ "[" +:+ label +:+ "](" +:+ url +:+ ")" +:+ rest
          /\ label <> "" /\ url <> ""
          /\ lacks "]" label /\ lacks ")" url)
  /\ (forall before label url rest,
        noneEarlier linkAhead before
          ("[" +:+ label +:+ "](" +:+ url +:+ ")" +:+ rest) ->
        label <> "" -> lacks "]" label -> url <> "" -> lacks ")" url ->
        descriptionLinks
          (before +:+ "[" +:+ label +:+ "](" +:+ url +:+ ")" +:+ rest) false
        = url :: descriptionLinks rest false)
  /\ (forall before behind,
        lacks "[" before -> noneEarlier linkAhead before behind)
  /\ (forall plain, lacks "[" plain -> descriptionLinks plain false = [])
  /\ (forall before label url rest,
        noneEarlier linkAhead before
          ("[" +:+ label +:+ "](" +:+ url +:+ ")" +:+ rest) ->
        label <> "" -> lacks "]" label -> url <> "" -> lacks ")" url ->
        (forall behind,
            url <> "http://" +:+ behind /\ url <> "https://" +:+ behind) ->
        assertDescription modules
          (before +:+ "[" +:+ label +:+ "](" +:+ url +:+ ")" +:+ rest) false
        <> Ok tt)
  /\ (forall (c : ascii) before path,
        nat_of_ascii c < 128 -> c <> "010"%char -> c <> "013"%char ->
        oneLine before -> lacks "fakerjs" path ->
        stripDocsDomain (before +:+ "fakerjs" +:+ String c ("dev/" +:+ path))
        = "/" +:+ path)
  /\ (forall url, lacks "fakerjs" url -> stripDocsDomain url = url).
Proof.
  split; [exact elem_of_allowedLinks |].
  split; [apply assertDescription_markdown_Ok |].
  split; [| split; [| split; [| split; [| split; [| split]]]]].
  - intros url Hurl. unfold descriptionLinks in Hurl.
    apply matchAll_occurs in Hurl as (before & from & len & -> & Hmatch).
    apply markdownLinkAt_Some in Hmatch
      as (label & rest & -> & Hlabel & Hurl & Hbracket & Hparen).
    apply lacks_includes in Hbracket, Hparen.
    exists before, label, rest. auto.
  - intros before label url rest. apply matchAll_markdown_leftmost.
  - exact noneEarlier_markdown.
  - intros plain Hplain. apply matchAll_markdown_none, lacks_includes, Hplain.
  - intros before label url rest Hbefore Hlabel Hbracket Hurl Hparen Hscheme
      Hpass.
    rewrite assertDescription_markdown_Ok in Hpass.
    destruct (Hpass url) as [[behind [H | H]] _].
    + unfold descriptionLinks.
      rewrite matchAll_markdown_leftmost by assumption. left.
    + exact (proj1 (Hscheme behind) H).
    + exact (proj2 (Hscheme behind) H).
  - intros c before path. apply stripDocsDomain_last.
  - exact stripDocsDomain_none.
Qed.

(** C8.  With [MISSING_DESCRIPTION] the reserved sentinel of the
    specification, a word without markup and without white space around
    it: when the check of the [@param] tags passes, no parameter that
    [analyzeSignature] returns has a description that, stripped of its
    tags and trimmed, equals the sentinel, and none has the sentinel in
    markup and white space as its description; a description that is the
    sentinel in markup and white space (bare, wrapped in [<p>], followed
    by a line break) fails the check of its parameter with the message
    on the missing description; a description of white space or none at
    all passes it; and so does any other word in markup and white space
    without a link. *)
Theorem param_descriptions_checked (methodName : string)
    (signature : Signature) :
  reservedSentinel MISSING_DESCRIPTION ->
  (verifyParamTags modules methodName signature = Ok tt ->
   forall param,
     param ∈ analyzeSignature signature "" methodName ->
     trim (stripTags (description param)) <> MISSING_DESCRIPTION
     /\ ~ wrapped MISSING_DESCRIPTION (description param))
  /\ (forall paramName text,
        wrapped MISSING_DESCRIPTION text ->
        verifyParam modules {| name := paramName; description := text |}
        = Throw ("Expect param " +:+ paramName +:+ " to have a description"))
  /\ (forall paramName,
        verifyParam modules
          {| name := paramName;
             description := "<p>" +:+ MISSING_DESCRIPTION +:+ "</p>" |}
        = Throw ("Expect param " +:+ paramName +:+ " to have a description"))
  /\ (forall paramName,
        verifyParam modules
          {| name := paramName; description := MISSING_DESCRIPTION |}
        = Throw ("Expect param " +:+ paramName +:+ " to have a description"))
  /\ (forall paramName,
        verifyParam modules {| name := paramName; description := "" |}
        = Ok tt)
  /\ (forall paramName text,
        blank text ->
        verifyParam modules {| name := paramName; description := text |}
        = Ok tt)
  /\ (forall paramName word text,
        plainWord word -> word <> MISSING_DESCRIPTION ->
        wrapped word text -> lacks "href=" text ->
        verifyParam modules {| name := paramName; description := text |}
        = Ok tt).
Proof.
  intros Hsentinel. pose proof Hsentinel as (Hnonempty & _ & _).
  assert (Hnolinks : forall text,
             includes text "href=" = false ->
             assertDescription modules text true = Ok tt).
  { intros text Hnone. unfold assertDescription, descriptionLinks.
    rewrite (matchAll_href_none text Hnone). reflexivity. }
  assert (Hmissing : forall paramName text,
             wrapped MISSING_DESCRIPTION text ->
             verifyParam modules {| name := paramName; description := text |}
             = Throw ("Expect param " +:+ paramName
                        +:+ " to have a description")).
  { intros paramName text Hwrapped. unfold verifyParam. cbn [description name].
    rewrite (wrapped_checked _ _ Hsentinel Hwrapped), String.eqb_refl.
    reflexivity. }
  assert (Hblank : forall paramName text,
             blank text ->
             verifyParam modules {| name := paramName; description := text |}
             = Ok tt).
  { intros paramName text Hblank. unfold verifyParam. cbn [description name].
    rewrite (blank_checked text Hblank).
    assert (Hneq : String.eqb "" MISSING_DESCRIPTION = false).
    { apply String.eqb_neq. congruence. }
    rewrite Hneq. cbn [negb expect andThen].
    apply Hnolinks, blank_no_href, Hblank. }
  split; [| split; [exact Hmissing |]; split; [| split; [| split; [| split]]]].
  - unfold verifyParamTags. rewrite forEach_Ok. intros Hpass param Hparam.
    specialize (Hpass param Hparam). unfold verifyParam in Hpass.
    apply andThen_unit_Ok in Hpass as [Hpass _].
    apply expect_Ok, negb_true_iff, String.eqb_neq in Hpass.
    split; [exact Hpass |]. intros Hwrapped. apply Hpass.
    apply wrapped_checked; assumption.
  - intros paramName. apply Hmissing, wrapped_paragraph.
  - intros paramName. apply Hmissing, wrapped_bare.
  - intros paramName. apply Hblank. constructor.
  - exact Hblank.
  - intros paramName word text Hword Hother Hwrapped Hnone.
    unfold verifyParam. cbn [description name].
    rewrite (wrapped_checked _ _ Hword Hwrapped).
    apply String.eqb_neq in Hother. rewrite Hother. cbn [negb expect andThen].
    apply Hnolinks, lacks_includes, Hnone.
Qed.
End Sets.

Lemma importAt_empty (prev : option ascii) (m : string) (len : nat) :
  importAt prev "" = Some (m, len) -> False.
Proof. unfold importAt. destruct (isChar "." prev); discriminate. Qed.

(** C4, as the code has it.  The materialized text is one import
    statement, a blank line and the joined examples as they are, the
    names of the statement separated by a comma and a space.  The
    names imported are the distinct matches of the pattern, each once,
    in the order of their first occurrence: what is imported before a
    name is what was matched before the first match of that name.  Every
    match stands in the examples as the literal [faker] and the
    characters that follow it up to the next dot, the match holding no
    dot and the text before it not ending with one.  The matches of a
    text: the first [faker] of a text, not behind a dot and with a dot
    somewhere behind it, is matched up to that dot, and the search goes
    on from the dot; a first [faker] behind a dot is passed over, and
    the search goes on behind the word; a first [faker] with no dot
    behind it ends the search; and a text without [faker] has no
    match.  The leftmost place where the pattern matches is always
    imported. *)
Theorem materialize_imports (examples : string) :
  materialize examples
  = "import { " +:+ join ", " (exampleImports examples)
      +:+ " } from '../../../../../src';" +:+ LF +:+ LF +:+ examples
  /\ (join ", " [] = ""
      /\ (forall m, join ", " [m] = m)
      /\ forall m m' names,
           join ", " (m :: m' :: names)
           = m +:+ ", " +:+ join ", " (m' :: names))
  /\ NoDup (exampleImports examples)
  /\ (forall m, m ∈ exampleImports examples <-> m ∈ matchAll importAt examples)
  /\ (forall earlier m later,
        exampleImports examples = earlier ++ m :: later ->
        exists before behind,
          matchAll importAt examples = before ++ m :: behind
          /\ (m ∉ before)
          /\ forall other, other ∈ earlier <-> other ∈ before)
  /\ (forall m,
        m ∈ matchAll importAt examples ->
        exists before run rest,
          examples = before +:+ m +:+ "." +:+ rest
          /\ m = "faker" +:+ run
          /\ lacks "." run
          /\ endsWithout "." before)
  /\ (forall before run rest,
        lacks "faker" before -> endsWithout "." before -> lacks "." run ->
        matchAll importAt (before +:+ "faker" +:+ run +:+ "." +:+ rest)
        = ("faker" +:+ run) :: matchAll importAt ("." +:+ rest))
  /\ (forall before rest,
        lacks "faker" (before +:+ ".") ->
        matchAll importAt (before +:+ "." +:+ "faker" +:+ rest)
        = matchAll importAt rest)
  /\ (forall before rest,
        lacks "faker" before -> lacks "." rest ->
        matchAll importAt (before +:+ "faker" +:+ rest) = [])
  /\ (forall text, lacks "faker" text -> matchAll importAt text = [])
  /\ (forall before from m len,
        examples = before +:+ from ->
        importAt (lastChar None before) from = Some (m, len) ->
        (forall b1 b2,
            before = b1 +:+ b2 -> b2 <> "" ->
            importAt (lastChar None b1) (b2 +:+ from) = None) ->
        m ∈ exampleImports examples).
Proof.
  assert (Hmatches : default [] (matchImports examples)
                     = matchAll importAt examples).
  { unfold matchImports. destruct (matchAll importAt examples); reflexivity. }
  assert (Himports : forall m,
             m ∈ exampleImports examples <-> m ∈ matchAll importAt examples).
  { intros m. unfold exampleImports.
    rewrite elem_of_uniqueStrings, Hmatches. split; [tauto |].
    intros H. split; [exact H | inversion 1]. }
  split; [reflexivity |].
  split; [split; [reflexivity | split; reflexivity] |].
  split; [apply NoDup_uniqueStrings |].
  split; [exact Himports |].
  split; [| split; [| split; [| split; [| split; [| split]]]]].
  - intros earlier m later Horder. unfold exampleImports in Horder.
    rewrite Hmatches in Horder.
    destruct (uniqueStrings_first _ _ _ _ _ Horder)
      as (before & behind & Hscan & Hfirst & _ & Hearlier).
    exists before, behind. split; [exact Hscan |]. split; [exact Hfirst |].
    intros other. rewrite Hearlier. split; [tauto |].
    intros H. split; [exact H | inversion 1].
  - intros m Hm.
    apply matchAll_occurs in Hm as (before & from & len & -> & Hmatch).
    apply importAt_Some in Hmatch as (Hdot & run & rest & -> & Hm & Hrun).
    exists before, run, rest. split; [reflexivity |]. split; [exact Hm |].
    split; [apply lacks_includes, Hrun |].
    intros b Hb. rewrite (proj2 (lastChar_isChar "." before)) in Hdot;
      [discriminate | exists b; exact Hb].
  - exact matchAll_import_first.
  - exact matchAll_import_behind_dot.
  - exact matchAll_import_no_dot.
  - intros text Hnone. apply scan_nothing. intros prev before from ->.
    apply importAt_not_faker, includes_false_startsWith.
    apply (includes_false_suffix "faker" before), lacks_includes, Hnone.
  - intros before from m len -> Hmatch Hleftmost.
    apply Himports. unfold matchAll.
    apply (scan_leftmost importAt importAt_empty m len from before None);
      assumption.
Qed.

(** C4 as stated fails: [Date] is a bare identifier followed by a dot
    and not preceded by one, and the import statement does not pull it;
    and what is pulled for a call chained on the next line is not an
    identifier. *)
Lemma global_identifier_not_imported :
  bareIdentifiersBeforeDot Samples.dateExample = ["faker"; "Date"]
  /\ exampleImports Samples.dateExample = ["faker"]
  /\ materialize Samples.dateExample
     = "import { faker } from '../../../../../src';" +:+ LF +:+ LF
         +:+ "faker.date.soon({ refDate: Date.now() })"
  /\ exampleImports Samples.chainedExample = ["faker" +:+ LF +:+ "  "].
Proof. vm_compute. repeat split. Qed.

Example materialize_int_examples :
  materialize (@extractJoinedRawExamples _ _ Samples.tagsTypedoc Samples.intTags)
  = "import { faker } from '../../../../../src';" +:+ LF +:+ LF
      +:+ "faker.number.int() // 2900970162509863" +:+ LF
      +:+ "faker.number.int(100) // 52".
Proof. vm_compute. reflexivity. Qed.

(** The names come in the order of their first match; a name behind a
    dot is not one. *)
Example imports_in_order :
  exampleImports "fakerDE.a(); faker.b(); x.faker.c(); fakerDE.d()"
  = ["fakerDE"; "faker"]
  /\ exampleImports "x.faker.a; y.fakerDE.b" = [].
Proof. vm_compute. split; reflexivity. Qed.

(** A link with another scheme fails the check of a description. *)
Example other_scheme_fails :
  @assertDescription _ _ Samples.tagsTypedoc (Samples.runtime 0) Samples.project
     "see [b](ftp://nowhere)" false
  = Throw "expected to match /^https?:\/\//".
Proof. vm_compute. reflexivity. Qed.

(** Without a match the import list is empty. *)
Example materialize_without_entry_point :
  materialize "new Date()" = "import {  } from '../../../../../src';"
                               +:+ LF +:+ LF +:+ "new Date()".
Proof. vm_compute. reflexivity. Qed.

Lemma see_tags_checked_witness :
  forallb singleLine
    (@referenceList _ _ Samples.tagsTypedoc Samples.project) = true
  /\ (@verifySeeTags _ _ Samples.tagsTypedoc Samples.project Samples.intTags
      = Ok tt ->
      forall link,
        link ∈ @extractSeeAlsos _ _ Samples.tagsTypedoc Samples.intTags ->
        startsWith link "faker." = true ->
        includes link "(" = true /\ includes link ")" = true
        /\ dottedPath link
           ∈ @allowedReferences _ _ Samples.tagsTypedoc Samples.project).
Proof.
  split; [reflexivity |].
  apply (@see_tags_checked _ _ Samples.tagsTypedoc Samples.project
           Samples.intTags).
  reflexivity.
Defined.

Example int_see_tag_passes :
  @verifySeeTags _ _ Samples.tagsTypedoc Samples.project Samples.intTags = Ok tt
  /\ dottedPath "faker.string.numeric() If you would like"
     = "faker.string.numeric".
Proof. vm_compute. split; reflexivity. Qed.

(** A second line behind the parenthesis stays in what is looked up. *)
Example replaceParenTail_second_line :
  replaceParenTail ("faker.string.numeric()" +:+ LF +:+ "or more")
  = "faker.string.numeric" +:+ LF +:+ "or more".
Proof. reflexivity. Qed.

(** C6 as stated fails: a link to the guide has the documentation domain
    as its host, its path is not in the link set, and the check of the
    description passes. *)
Lemma guide_link_unchecked :
  let url := "https://fakerjs.dev/guide/usage.html" in
  @assertDescription _ _ Samples.tagsTypedoc (Samples.runtime 0)
     Samples.project Samples.guideDescription false = Ok tt
  /\ descriptionLinks Samples.guideDescription false = [url]
  /\ hostOf url = Some docsDomain
  /\ stripDocsDomain url = "/guide/usage.html"
  /\ "/guide/usage.html"
     ∉ @allowedLinks _ _ Samples.tagsTypedoc (Samples.runtime 0)
         Samples.project.
Proof.
  intros url.
  split; [vm_compute; reflexivity |].
  split; [vm_compute; reflexivity |].
  split; [vm_compute; reflexivity |].
  split; [vm_compute; reflexivity |].
  unfold allowedLinks. rewrite elem_of_list_to_set.
  change (@linkList _ _ Samples.tagsTypedoc (Samples.runtime 0) Samples.project)
    with ["/api/number.html"; "/api/number.html#int"; "/api/string.html";
          "/api/string.html#numeric"].
  rewrite !elem_of_cons.
  intros [H | [H | [H | [H | H]]]]; try discriminate. inversion H.
Qed.

Example api_link_checked :
  @assertDescription _ _ Samples.tagsTypedoc (Samples.runtime 0) Samples.project
     "use [`int()`](https://fakerjs.dev/api/number.html#int)" false = Ok tt
  /\ @assertDescription _ _ Samples.tagsTypedoc (Samples.runtime 0)
       Samples.project
       "use [`hex()`](https://fakerjs.dev/api/number.html#hex)" false
     = Throw "https://fakerjs.dev/api/number.html#hex to point to a valid target".
Proof. vm_compute. split; reflexivity. Qed.

Lemma missing_reserved :
  reservedSentinel (@MISSING_DESCRIPTION _ _ Samples.tagsTypedoc).
Proof. apply plainWord_intro; [discriminate | reflexivity ..]. Qed.

Lemma missing_in_paragraph :
  wrapped "Missing" ("<p>Missing</p>" +:+ LF).
Proof.
  exists "", "<p>", "", "", "</p>", LF.
  split; [constructor |].
  split; [apply (markup_tag "p" "");
          [discriminate | apply lacks_includes; reflexivity | constructor] |].
  split; [constructor |]. split; [constructor |].
  split; [apply (markup_tag "/p" "");
          [discriminate | apply lacks_includes; reflexivity | constructor] |].
  split; [| reflexivity].
  apply (madeOf_more whiteSpace LF ""); [| constructor].
  apply elem_of_cons. right. apply elem_of_cons. left. reflexivity.
Qed.

Lemma param_descriptions_checked_witness :
  reservedSentinel (@MISSING_DESCRIPTION _ _ Samples.tagsTypedoc)
  /\ forall paramName,
       @verifyParam _ _ Samples.tagsTypedoc (Samples.runtime 0) Samples.project
         {| name := paramName; description := "<p>Missing</p>" +:+ LF |}
       = Throw ("Expect param " +:+ paramName +:+ " to have a description").
Proof.
  split; [exact missing_reserved |]. intros paramName.
  exact (proj1 (proj2 (@param_descriptions_checked _ _ Samples.tagsTypedoc
                         (Samples.runtime 0) Samples.project "int"
                         Samples.intTags missing_reserved))
           paramName _ missing_in_paragraph).
Defined.

End HarnessCheckFacts.

(** ** JavaScript numbers: rounding *)
Module DoubleFacts.
Import Double.
Local Open Scope Q_scope.

Lemma pow2_pos (e : Z) : 0 < pow2 e.
Proof. apply Qpower_0_lt. reflexivity. Qed.

Lemma pow2_plus (a b : Z) : pow2 (a + b) == pow2 a * pow2 b.
Proof. apply Qpower_plus. discriminate. Qed.

Lemma pow2_le (a b : Z) : (a <= b)%Z -> pow2 a <= pow2 b.
Proof. intros H. apply Qpower_le_compat_l; [exact H | discriminate]. Qed.

Lemma pow2_lt (a b : Z) : (a < b)%Z -> pow2 a < pow2 b.
Proof. intros H. apply Qpower_lt_compat_l; [exact H | reflexivity]. Qed.

Lemma pow2_lt_inv (a b : Z) : pow2 a < pow2 b -> (a < b)%Z.
Proof. intros H. apply (Qpower_lt_compat_l_inv 2); [exact H | reflexivity]. Qed.

Lemma pow2_Z (k : Z) : (0 <= k)%Z -> pow2 k == inject_Z (2 ^ k).
Proof. intros H. unfold pow2. rewrite Zpower_Qpower by exact H. reflexivity. Qed.

Lemma pow2_succ (a : Z) : pow2 (a + 1) == 2 * pow2 a.
Proof. rewrite pow2_plus. change (pow2 1) with 2. ring. Qed.

Lemma pow2_minus (a b : Z) : pow2 (a - b) == pow2 a / pow2 b.
Proof.
  unfold Z.sub. rewrite pow2_plus. unfold pow2 at 2.
  rewrite Qpower_opp. reflexivity.
Qed.

Lemma Qabs_make (x : Q) : Qabs x = Z.abs (Qnum x) # Qden x.
Proof. destruct x. reflexivity. Qed.

Lemma binade_spec (x : Q) :
  ~ x == 0 -> pow2 (binade x) <= Qabs x /\ Qabs x < pow2 (binade x + 1).
Proof.
  intros Hx. unfold binade.
  set (A := Z.abs (Qnum x)). set (B := Zpos (Qden x)).
  assert (HA : (0 < A)%Z).
  { unfold A. assert (Qnum x <> 0%Z); [| lia].
    intros H0. apply Hx. destruct x as [n d]. simpl in H0. subst. reflexivity. }
  assert (HB : (0 < B)%Z) by (unfold B; lia).
  destruct (Z.log2_spec A HA) as [HA1 HA2].
  destruct (Z.log2_spec B HB) as [HB1 HB2].
  set (la := Z.log2 A) in *. set (lb := Z.log2 B) in *.
  assert (Hla : (0 <= la)%Z) by apply Z.log2_nonneg.
  assert (Hlb : (0 <= lb)%Z) by apply Z.log2_nonneg.
  assert (Habs : Qabs x == inject_Z A / inject_Z B).
  { rewrite Qabs_make. fold A. unfold B. rewrite (Qmake_Qdiv A (Qden x)). reflexivity. }
  assert (Hk : pow2 (la - lb) == inject_Z (2 ^ la) / inject_Z (2 ^ lb)).
  { rewrite pow2_minus, !pow2_Z by assumption. reflexivity. }
  assert (HBq : 0 < inject_Z B) by (change 0 with (inject_Z 0); rewrite <- Zlt_Qlt; exact HB).
  assert (HPla : 0 < inject_Z (2 ^ la)).
  { change 0 with (inject_Z 0); rewrite <- Zlt_Qlt. lia. }
  assert (HPlb : 0 < inject_Z (2 ^ lb)).
  { change 0 with (inject_Z 0); rewrite <- Zlt_Qlt. lia. }
  assert (Hupper : Qabs x < pow2 (la - lb + 1)).
  { rewrite pow2_succ, Hk, Habs.
    apply Qlt_shift_div_r; [exact HBq |].
    assert (H1 : inject_Z A < 2 * inject_Z (2 ^ la)).
    { change 2 with (inject_Z 2). rewrite <- inject_Z_mult, <- Zlt_Qlt.
      rewrite Z.pow_succ_r in HA2 by exact Hla. lia. }
    assert (H2 : inject_Z (2 ^ lb) <= inject_Z B) by (rewrite <- Zle_Qle; exact HB1).
    assert (H3 : 2 * (inject_Z (2 ^ la) / inject_Z (2 ^ lb)) * inject_Z B
                 == 2 * inject_Z (2 ^ la) * (inject_Z B / inject_Z (2 ^ lb))).
    { field. intros H0. rewrite H0 in HPlb. discriminate. }
    rewrite H3.
    assert (H4 : 1 <= inject_Z B / inject_Z (2 ^ lb)).
    { apply Qle_shift_div_l; [exact HPlb |]. lra. }
    nra. }
  assert (Hlower : pow2 (la - lb - 1) <= Qabs x).
  { assert (Hhalf : pow2 (la - lb - 1) == pow2 (la - lb) / 2).
    { rewrite pow2_minus. reflexivity. }
    rewrite Hhalf, Hk, Habs.
    apply Qle_shift_div_l; [exact HBq |].
    assert (H1 : inject_Z (2 ^ la) <= inject_Z A) by (rewrite <- Zle_Qle; exact HA1).
    assert (H2 : inject_Z B <= 2 * inject_Z (2 ^ lb)).
    { change 2 with (inject_Z 2). rewrite <- inject_Z_mult, <- Zle_Qle.
      rewrite Z.pow_succ_r in HB2 by exact Hlb. lia. }
    assert (H3 : inject_Z (2 ^ la) / inject_Z (2 ^ lb) / 2 * inject_Z B
                 == inject_Z (2 ^ la) * (inject_Z B / (2 * inject_Z (2 ^ lb)))).
    { field. intros H0. rewrite H0 in HPlb. discriminate. }
    rewrite H3.
    assert (H4 : inject_Z B / (2 * inject_Z (2 ^ lb)) <= 1).
    { apply Qle_shift_div_r; [lra | lra]. }
    assert (H5 : 0 <= inject_Z B / (2 * inject_Z (2 ^ lb))).
    { apply Qle_shift_div_l; [lra | lra]. }
    nra. }
  destruct (Qle_bool (pow2 (la - lb)) (Qabs x)) eqn:Htest.
  - apply Qle_bool_iff in Htest. split; assumption.
  - split; [exact Hlower |].
    replace (la - lb - 1 + 1)%Z with (la - lb)%Z by lia.
    apply Qnot_le_lt. intros H. apply Qle_bool_iff in H. congruence.
Qed.

Lemma binade_unique (x : Q) (b : Z) :
  pow2 b <= Qabs x -> Qabs x < pow2 (b + 1) -> binade x = b.
Proof.
  intros Hlo Hhi.
  assert (Hx : ~ x == 0).
  { intros H0. rewrite H0 in Hlo. pose proof (pow2_pos b) as Hb.
    change (Qabs 0) with 0 in Hlo. lra. }
  destruct (binade_spec x Hx) as [Hlo' Hhi'].
  assert (H1 : (b < binade x + 1)%Z).
  { apply pow2_lt_inv. lra. }
  assert (H2 : (binade x < b + 1)%Z).
  { apply pow2_lt_inv. lra. }
  lia.
Qed.

Lemma roundHalfEven_cases (x : Q) :
  (x - inject_Z (Qfloor x) < 1 # 2 /\ roundHalfEven x = Qfloor x)
  \/ (1 # 2 < x - inject_Z (Qfloor x) /\ roundHalfEven x = (Qfloor x + 1)%Z)
  \/ (x - inject_Z (Qfloor x) == 1 # 2
      /\ roundHalfEven x
         = if Z.even (Qfloor x) then Qfloor x else (Qfloor x + 1)%Z).
Proof.
  unfold roundHalfEven.
  destruct (Qcompare_spec (x - inject_Z (Qfloor x)) (1 # 2)) as [H | H | H].
  - right. right. split; [exact H | reflexivity].
  - left. split; [exact H | reflexivity].
  - right. left. split; [exact H | reflexivity].
Qed.

Lemma roundHalfEven_floor (x : Q) :
  (Qfloor x <= roundHalfEven x <= Qfloor x + 1)%Z.
Proof.
  destruct (roundHalfEven_cases x) as [[_ ->] | [[_ ->] | [_ ->]]];
    try lia.
  destruct (Z.even (Qfloor x)); lia.
Qed.

Lemma roundHalfEven_Z (z : Z) : roundHalfEven (inject_Z z) = z.
Proof.
  pose proof (Qfloor_Z z) as Hf.
  destruct (roundHalfEven_cases (inject_Z z)) as [[_ ->] | [[H _] | [H _]]];
    [exact Hf | |]; rewrite Hf in H; exfalso; lra.
Qed.

Lemma roundHalfEven_comp (x y : Q) : x == y -> roundHalfEven x = roundHalfEven y.
Proof.
  intros Hxy. unfold roundHalfEven.
  rewrite (Qfloor_comp x y Hxy).
  assert (H : x - inject_Z (Qfloor y) == y - inject_Z (Qfloor y))
    by (rewrite Hxy; reflexivity).
  rewrite (Qcompare_comp _ _ H (1 # 2) (1 # 2) (Qeq_refl _)). reflexivity.
Qed.

Lemma roundHalfEven_mono (x y : Q) :
  x <= y -> (roundHalfEven x <= roundHalfEven y)%Z.
Proof.
  intros Hxy. pose proof (Qfloor_resp_le x y Hxy) as Hf.
  pose proof (roundHalfEven_floor x) as Hx.
  pose proof (roundHalfEven_floor y) as Hy.
  destruct (Z.eq_dec (Qfloor x) (Qfloor y)) as [Heq | Hne]; [| lia].
  destruct (roundHalfEven_cases x) as [[Hdx ->] | [[Hdx ->] | [Hdx ->]]];
    [lia | |].
  - destruct (roundHalfEven_cases y) as [[Hdy _] | [[_ ->] | [Hdy _]]];
      [| lia |]; rewrite <- Heq in Hdy; exfalso; lra.
  - destruct (roundHalfEven_cases y) as [[Hdy _] | [[_ ->] | [_ ->]]].
    + rewrite <- Heq in Hdy. exfalso. lra.
    + destruct (Z.even (Qfloor x)); lia.
    + rewrite <- Heq. lia.
Qed.

Lemma Qabs_positive (x : Q) : 0 < x -> Qabs x == x.
Proof. intros H. apply Qabs_pos. lra. Qed.

Lemma Qabs_comp (x y : Q) : x == y -> Qabs x == Qabs y.
Proof. intros H. rewrite H. reflexivity. Qed.

Lemma binade_comp (x y : Q) : ~ x == 0 -> x == y -> binade x = binade y.
Proof.
  intros Hx Hxy. destruct (binade_spec x Hx) as [Hlo Hhi].
  symmetry. apply binade_unique; rewrite <- (Qabs_comp x y Hxy); assumption.
Qed.

Lemma quantum_comp (x y : Q) : ~ x == 0 -> x == y -> quantum x = quantum y.
Proof. intros Hx Hxy. unfold quantum. rewrite (binade_comp x y Hx Hxy). reflexivity. Qed.

Lemma roundMagnitude_comp (x y : Q) :
  ~ x == 0 -> x == y -> roundMagnitude x == roundMagnitude y.
Proof.
  intros Hx Hxy. unfold roundMagnitude.
  rewrite (quantum_comp x y Hx Hxy).
  rewrite (roundHalfEven_comp (x / pow2 (quantum y)) (y / pow2 (quantum y))).
  - reflexivity.
  - rewrite Hxy. reflexivity.
Qed.

(** The scaled magnitude lies below [2 ^ 53], and from [2 ^ 52] on for a
    normal number. *)
Lemma scaled_bounds (x : Q) :
  0 < x ->
  0 < x / pow2 (quantum x)
  /\ x / pow2 (quantum x) < pow2 53
  /\ ((-1074 < quantum x)%Z -> pow2 52 <= x / pow2 (quantum x)).
Proof.
  intros Hx.
  assert (Hne : ~ x == 0) by (intros H; rewrite H in Hx; discriminate).
  destruct (binade_spec x Hne) as [Hlo Hhi].
  rewrite (Qabs_positive x Hx) in Hlo, Hhi.
  pose proof (pow2_pos (quantum x)) as Hq.
  split; [apply Qlt_shift_div_l; [exact Hq | lra] |].
  split.
  - apply Qlt_shift_div_r; [exact Hq |].
    rewrite <- pow2_plus.
    apply Qlt_le_trans with (pow2 (binade x + 1)); [exact Hhi |].
    apply pow2_le. unfold quantum. lia.
  - intros Hnormal. apply Qle_shift_div_l; [exact Hq |].
    rewrite <- pow2_plus.
    assert (Hb : (52 + quantum x)%Z = binade x).
    { unfold quantum in *. lia. }
    rewrite Hb. exact Hlo.
Qed.

Lemma roundMagnitude_bounds (x : Q) :
  0 < x ->
  0 <= roundMagnitude x
  /\ roundMagnitude x <= pow2 (53 + quantum x)
  /\ ((-1074 < quantum x)%Z -> pow2 (52 + quantum x) <= roundMagnitude x).
Proof.
  intros Hx. destruct (scaled_bounds x Hx) as (Hpos & Hupper & Hlower).
  pose proof (pow2_pos (quantum x)) as Hq.
  unfold roundMagnitude.
  set (m := x / pow2 (quantum x)) in *.
  assert (H0 : (0 <= roundHalfEven m)%Z).
  { rewrite <- (roundHalfEven_Z 0). apply roundHalfEven_mono.
    change (inject_Z 0) with 0. lra. }
  assert (H53 : (roundHalfEven m <= 2 ^ 53)%Z).
  { rewrite <- (roundHalfEven_Z (2 ^ 53)). apply roundHalfEven_mono.
    rewrite <- pow2_Z by lia. lra. }
  split; [| split].
  - apply Qmult_le_0_compat; [| lra].
    change 0 with (inject_Z 0). rewrite <- Zle_Qle. exact H0.
  - rewrite pow2_plus. apply Qmult_le_compat_r; [| lra].
    rewrite pow2_Z by lia. rewrite <- Zle_Qle. exact H53.
  - intros Hnormal. rewrite pow2_plus. apply Qmult_le_compat_r; [| lra].
    rewrite pow2_Z by lia. rewrite <- Zle_Qle.
    rewrite <- (roundHalfEven_Z (2 ^ 52)). apply roundHalfEven_mono.
    rewrite <- pow2_Z by lia. apply Hlower, Hnormal.
Qed.

Lemma binade_mono (x y : Q) : 0 < x -> x <= y -> (binade x <= binade y)%Z.
Proof.
  intros Hx Hxy.
  assert (Hy : 0 < y) by lra.
  assert (Hnx : ~ x == 0) by (intros H; rewrite H in Hx; discriminate).
  assert (Hny : ~ y == 0) by (intros H; rewrite H in Hy; discriminate).
  destruct (binade_spec x Hnx) as [Hlo _].
  destruct (binade_spec y Hny) as [_ Hhi].
  rewrite (Qabs_positive x Hx) in Hlo. rewrite (Qabs_positive y Hy) in Hhi.
  assert (H : (binade x < binade y + 1)%Z) by (apply pow2_lt_inv; lra).
  lia.
Qed.

Lemma roundMagnitude_mono (x y : Q) :
  0 < x -> x <= y -> roundMagnitude x <= roundMagnitude y.
Proof.
  intros Hx Hxy. assert (Hy : 0 < y) by lra.
  pose proof (binade_mono x y Hx Hxy) as Hb.
  destruct (Z.eq_dec (quantum x) (quantum y)) as [Heq | Hne].
  - unfold roundMagnitude. rewrite Heq.
    pose proof (pow2_pos (quantum y)) as Hq.
    apply Qmult_le_compat_r; [| lra].
    rewrite <- Zle_Qle. apply roundHalfEven_mono.
    apply Qmult_le_compat_r; [exact Hxy |].
    apply Qlt_le_weak, Qinv_lt_0_compat, Hq.
  - assert (Hlt : (quantum x < quantum y)%Z) by (unfold quantum in *; lia).
    destruct (roundMagnitude_bounds x Hx) as (_ & Hupper & _).
    destruct (roundMagnitude_bounds y Hy) as (_ & _ & Hlower).
    apply Qle_trans with (pow2 (53 + quantum x)); [exact Hupper |].
    apply Qle_trans with (pow2 (52 + quantum y)).
    + apply pow2_le. lia.
    + apply Hlower. unfold quantum in *. lia.
Qed.

(** A number [n * 2 ^ e] with [n] of at most 53 bits and [e] from
    [-1074] on is a double. *)
Lemma roundMagnitude_exact (x : Q) (n e : Z) :
  (0 < n <= 2 ^ 53)%Z -> (-1074 <= e)%Z ->
  x == inject_Z n * pow2 e ->
  roundMagnitude x == x.
Proof.
  intros Hn He Hx.
  assert (Hnq : 0 < inject_Z n) by (change 0 with (inject_Z 0); rewrite <- Zlt_Qlt; lia).
  pose proof (pow2_pos e) as Hpe.
  assert (Hpos : 0 < x) by (rewrite Hx; nra).
  assert (Hne : ~ x == 0) by (intros H; rewrite H in Hpos; discriminate).
  destruct (binade_spec x Hne) as [Hlo Hhi].
  rewrite (Qabs_positive x Hpos) in Hlo, Hhi.
  pose proof (pow2_pos (quantum x)) as Hq.
  assert (Hnz : ~ pow2 (quantum x) == 0) by (intros H; rewrite H in Hq; discriminate).
  assert (Hwhole : exists k : Z, x / pow2 (quantum x) == inject_Z k).
  { destruct (Z.eq_dec n (2 ^ 53)%Z) as [-> | Hless].
    - assert (Hb : binade x = (53 + e)%Z).
      { apply binade_unique; rewrite (Qabs_positive x Hpos), Hx.
        - rewrite (pow2_plus 53 e), (pow2_Z 53) by lia. lra.
        - rewrite pow2_succ, (pow2_plus 53 e), (pow2_Z 53) by lia.
          change (inject_Z (2 ^ 53)) with 9007199254740992. lra. }
      assert (Hqv : quantum x = (e + 1)%Z) by (unfold quantum; lia).
      exists (2 ^ 52)%Z. rewrite Hqv, Hx, pow2_succ.
      change (inject_Z (2 ^ 53)) with (2 * inject_Z (2 ^ 52)).
      field. intros H; rewrite H in Hpe; discriminate.
    - assert (Hb : (binade x < 53 + e)%Z).
      { apply pow2_lt_inv. apply Qle_lt_trans with x; [exact Hlo |].
        rewrite Hx, (pow2_plus 53 e), (pow2_Z 53) by lia.
        apply Qmult_lt_compat_r; [exact Hpe |]. rewrite <- Zlt_Qlt. lia. }
      assert (Hqv : (quantum x <= e)%Z) by (unfold quantum; lia).
      exists (n * 2 ^ (e - quantum x))%Z.
      rewrite inject_Z_mult, <- (pow2_Z (e - quantum x)) by lia.
      set (q := quantum x) in *.
      rewrite pow2_minus, Hx. field. exact Hnz. }
  destruct Hwhole as [k Hk]. unfold roundMagnitude.
  rewrite (roundHalfEven_comp _ _ Hk), roundHalfEven_Z, <- Hk.
  field. exact Hnz.
Qed.

Lemma roundFinite_cases (x : Q) :
  (x == 0 /\ roundFinite x = 0)
  \/ (0 < x /\ roundFinite x = roundMagnitude x)
  \/ (x < 0 /\ roundFinite x = - roundMagnitude (- x)).
Proof.
  unfold roundFinite. destruct (Qcompare_spec x 0) as [H | H | H]; auto.
Qed.

Lemma roundFinite_zero : roundFinite 0 = 0.
Proof. reflexivity. Qed.

Lemma roundFinite_nonneg (x : Q) : 0 <= x -> 0 <= roundFinite x.
Proof.
  intros Hx. destruct (roundFinite_cases x) as [[_ ->] | [[Hp ->] | [Hn _]]].
  - discriminate.
  - apply roundMagnitude_bounds, Hp.
  - exfalso. lra.
Qed.

Lemma roundFinite_nonpos (x : Q) : x <= 0 -> roundFinite x <= 0.
Proof.
  intros Hx. destruct (roundFinite_cases x) as [[_ ->] | [[Hp _] | [Hn ->]]].
  - discriminate.
  - exfalso. lra.
  - assert (H : 0 < - x) by lra.
    pose proof (proj1 (roundMagnitude_bounds (- x) H)). lra.
Qed.

(** Rounding keeps the order. *)
Lemma roundFinite_mono (x y : Q) : x <= y -> roundFinite x <= roundFinite y.
Proof.
  intros Hxy.
  destruct (roundFinite_cases x) as [[Hx Ex] | [[Hx Ex] | [Hx Ex]]].
  - rewrite Ex. apply roundFinite_nonneg. lra.
  - destruct (roundFinite_cases y) as [[Hy _] | [[Hy Ey] | [Hy _]]];
      [exfalso; lra | | exfalso; lra].
    rewrite Ex, Ey. apply roundMagnitude_mono; assumption.
  - destruct (roundFinite_cases y) as [[Hy Ey] | [[Hy Ey] | [Hy Ey]]].
    + rewrite Ey. apply roundFinite_nonpos. lra.
    + apply Qle_trans with 0.
      * apply roundFinite_nonpos. lra.
      * apply roundFinite_nonneg. lra.
    + rewrite Ex, Ey.
      assert (H : roundMagnitude (- y) <= roundMagnitude (- x)).
      { apply roundMagnitude_mono; lra. }
      lra.
Qed.

Lemma roundFinite_comp (x y : Q) : x == y -> roundFinite x == roundFinite y.
Proof.
  intros Hxy.
  destruct (roundFinite_cases x) as [[Hx Ex] | [[Hx Ex] | [Hx Ex]]];
    destruct (roundFinite_cases y) as [[Hy Ey] | [[Hy Ey] | [Hy Ey]]];
    try (exfalso; lra); rewrite Ex, Ey.
  - reflexivity.
  - apply roundMagnitude_comp; [| exact Hxy].
    intros H. rewrite H in Hx. discriminate.
  - assert (H : roundMagnitude (- x) == roundMagnitude (- y)).
    { apply roundMagnitude_comp; [| rewrite Hxy; reflexivity].
      intros H. lra. }
    rewrite H. reflexivity.
Qed.

(** Doubles round to themselves. *)
Lemma roundFinite_exact (x : Q) (n e : Z) :
  (Z.abs n <= 2 ^ 53)%Z -> (-1074 <= e)%Z ->
  x == inject_Z n * pow2 e ->
  roundFinite x == x.
Proof.
  intros Hn He Hx. pose proof (pow2_pos e) as Hpe.
  destruct (roundFinite_cases x) as [[H0 ->] | [[Hp ->] | [Hm ->]]].
  - symmetry. exact H0.
  - apply (roundMagnitude_exact x n e); [| exact He | exact Hx].
    assert (Hpos : (0 < n)%Z); [| lia].
    rewrite Zlt_Qlt. change (inject_Z 0) with 0.
    rewrite Hx in Hp. nra.
  - assert (H : roundMagnitude (- x) == - x).
    { apply (roundMagnitude_exact (- x) (- n) e); [| exact He |].
      - assert (Hneg : (n < 0)%Z); [| lia].
        rewrite Zlt_Qlt. change (inject_Z 0) with 0.
        rewrite Hx in Hm. nra.
      - rewrite Hx, inject_Z_opp. ring. }
    rewrite H. ring.
Qed.

Lemma roundFinite_integer (z : Z) :
  (Z.abs z <= 2 ^ 53)%Z -> roundFinite (inject_Z z) == inject_Z z.
Proof.
  intros Hz. apply (roundFinite_exact (inject_Z z) z 0); [exact Hz | lia |].
  change (pow2 0) with 1. ring.
Qed.

(** The scaled magnitude rounds to an integer of at most 54 bits. *)
Lemma scaled_rounds (x : Q) :
  0 < x -> (0 <= roundHalfEven (x / pow2 (quantum x)) <= 2 ^ 53)%Z.
Proof.
  intros Hx. destruct (scaled_bounds x Hx) as (Hpos & Hupper & _).
  set (m := x / pow2 (quantum x)) in *. split.
  - rewrite <- (roundHalfEven_Z 0). apply roundHalfEven_mono.
    change (inject_Z 0) with 0. lra.
  - rewrite <- (roundHalfEven_Z (2 ^ 53)). apply roundHalfEven_mono.
    rewrite <- (pow2_Z 53) by lia. lra.
Qed.

(** What rounding leaves as it is has 53 bits above [2 ^ -1074]. *)
Lemma roundFinite_fixed (x : Q) :
  roundFinite x == x ->
  exists n e : Z,
    (Z.abs n <= 2 ^ 53)%Z /\ (-1074 <= e)%Z /\ x == inject_Z n * pow2 e.
Proof.
  intros Hfix.
  destruct (roundFinite_cases x) as [[H0 _] | [[Hp E] | [Hm E]]].
  - exists 0%Z, 0%Z. split; [lia | split; [lia |]]. rewrite H0. reflexivity.
  - rewrite E in Hfix. pose proof (scaled_rounds x Hp) as Hn.
    exists (roundHalfEven (x / pow2 (quantum x))), (quantum x).
    split; [lia | split; [unfold quantum; lia |]].
    symmetry. exact Hfix.
  - rewrite E in Hfix. assert (Hp : 0 < - x) by lra.
    pose proof (scaled_rounds (- x) Hp) as Hn.
    exists (- roundHalfEven (- x / pow2 (quantum (- x))))%Z, (quantum (- x)).
    split; [lia | split; [unfold quantum; lia |]].
    rewrite inject_Z_opp. unfold roundMagnitude in Hfix. lra.
Qed.

Lemma isDouble_fixed (x : Q) : isDouble x = true -> roundFinite x == x.
Proof.
  unfold isDouble. intros H. apply andb_prop in H as [H _].
  apply Qeq_bool_iff. exact H.
Qed.

(** A double times a power of two is computed without rounding. *)
Lemma roundFinite_scaled (x : Q) (k : Z) :
  roundFinite x == x -> (0 <= k)%Z ->
  roundFinite (x * pow2 k) == x * pow2 k.
Proof.
  intros Hfix Hk.
  destruct (roundFinite_fixed x Hfix) as (n & e & Hn & He & Hx).
  apply (roundFinite_exact _ n (e + k)); [exact Hn | lia |].
  rewrite Hx, pow2_plus. ring.
Qed.

Lemma safe_below_overflow (z : Z) :
  (Z.abs z <= 2 ^ 53)%Z ->
  - pow2 1024 < inject_Z z /\ inject_Z z < pow2 1024.
Proof.
  intros Hz.
  assert (H53 : pow2 53 < pow2 1024) by (apply pow2_lt; lia).
  rewrite (pow2_Z 53) in H53 by lia.
  assert (Hlo : inject_Z (- 2 ^ 53) <= inject_Z z) by (rewrite <- Zle_Qle; lia).
  assert (Hhi : inject_Z z <= inject_Z (2 ^ 53)) by (rewrite <- Zle_Qle; lia).
  rewrite inject_Z_opp in Hlo. split; lra.
Qed.

Lemma ofExact_finite (x : Q) :
  - pow2 1024 < roundFinite x -> roundFinite x < pow2 1024 ->
  ofExact x = Finite (roundFinite x).
Proof.
  intros Hlo Hhi. unfold ofExact.
  destruct (Qle_bool (pow2 1024) (roundFinite x)) eqn:H1.
  - apply Qle_bool_iff in H1. exfalso. lra.
  - destruct (Qle_bool (roundFinite x) (- pow2 1024)) eqn:H2; [| reflexivity].
    apply Qle_bool_iff in H2. exfalso. lra.
Qed.

(** An exact result between two safe integers stays between them and
    stays finite. *)
Lemma ofExact_between (x : Q) (a b : Z) :
  (Z.abs a <= 2 ^ 53)%Z -> (Z.abs b <= 2 ^ 53)%Z ->
  inject_Z a <= x -> x <= inject_Z b ->
  ofExact x = Finite (roundFinite x)
  /\ inject_Z a <= roundFinite x /\ roundFinite x <= inject_Z b.
Proof.
  intros Ha Hb Hax Hxb.
  pose proof (roundFinite_mono _ _ Hax) as Hlo.
  pose proof (roundFinite_mono _ _ Hxb) as Hhi.
  rewrite (roundFinite_integer a Ha) in Hlo.
  rewrite (roundFinite_integer b Hb) in Hhi.
  destruct (safe_below_overflow a Ha) as [Ha1 _].
  destruct (safe_below_overflow b Hb) as [_ Hb2].
  split; [apply ofExact_finite; lra | split; assumption].
Qed.

(** An exact result that is a double is the result. *)
Lemma ofExact_exact (x : Q) (b : Z) :
  roundFinite x == x -> (Z.abs b <= 2 ^ 53)%Z ->
  - inject_Z b <= x -> x <= inject_Z b ->
  ofExact x = Finite (roundFinite x).
Proof.
  intros Hfix Hb Hlo Hhi.
  assert (Hb' : (Z.abs (- b) <= 2 ^ 53)%Z) by lia.
  destruct (safe_below_overflow b Hb) as [_ H2].
  destruct (safe_below_overflow (- b) Hb') as [H1 _].
  rewrite inject_Z_opp in H1.
  apply ofExact_finite; rewrite Hfix; lra.
Qed.
End DoubleFacts.

(** ** NumberModule.int: errors, bounds and the retry loop *)
Module NumberRangeFacts.
Import Double DoubleFacts NumberModule NumberRest.

Lemma effectiveMin_above (options : IntOptions) :
  (minOf options <= inject_Z (effectiveMin options))%Q.
Proof. apply Qle_ceiling. Qed.

Lemma effectiveMax_below (options : IntOptions) :
  (inject_Z (effectiveMax options) <= maxOf options)%Q.
Proof. apply Qfloor_le. Qed.

Lemma inject_Z_le (a b : Z) : (inject_Z a <= inject_Z b)%Q -> (a <= b)%Z.
Proof. rewrite <- Zle_Qle. auto. Qed.

Lemma inject_Z_lt (a b : Z) : (inject_Z a < inject_Z b)%Q -> (a < b)%Z.
Proof. rewrite <- Zlt_Qlt. auto. Qed.

Lemma generate_advances (lo hi : Z) (r : Randomizer) :
  snd (generate lo hi r)
  = {| stream := stream r; consulted := S (consulted r) |}.
Proof. reflexivity. Qed.

(** Within the safe integers one draw is an integer from the lower bound
    to one above the upper bound: each rounding keeps the order and
    leaves the bounds, which are doubles, as they are. *)
Lemma generate_within (lo hi : Z) (r : Randomizer) :
  (- 2 ^ 53 <= lo)%Z -> (hi < 2 ^ 53)%Z -> (lo <= hi)%Z ->
  (hi - lo < 2 ^ 53)%Z ->
  (0 <= stream r (consulted r) < 1)%Q ->
  exists v : Z,
    fst (generate lo hi r) = Finite (inject_Z v) /\ (lo <= v <= hi + 1)%Z.
Proof.
  intros Hlo Hhi Hrange Hwidth [Hreal0 Hreal1].
  unfold generate, next. cbn [fst snd].
  set (real := stream r (consulted r)) in *.
  (* effectiveMax + 1 *)
  destruct (ofExact_between (inject_Z hi + 1) (hi + 1) (hi + 1))
    as (E1 & L1 & U1); try lia;
    [rewrite inject_Z_plus; apply Qle_refl
    | rewrite inject_Z_plus; apply Qle_refl |].
  cbn [add]. rewrite E1. set (q1 := roundFinite (inject_Z hi + 1)) in *.
  (* ... - effectiveMin *)
  destruct (ofExact_between (q1 + - inject_Z lo) (hi + 1 - lo) (hi + 1 - lo))
    as (E2 & L2 & U2); try lia.
  { unfold Z.sub. rewrite inject_Z_plus, inject_Z_opp. lra. }
  { unfold Z.sub. rewrite inject_Z_plus, inject_Z_opp. lra. }
  cbn [sub opp add]. rewrite E2.
  set (q2 := roundFinite (q1 + - inject_Z lo)) in *.
  assert (Hw : (0 < inject_Z (hi + 1 - lo))%Q).
  { change 0%Q with (inject_Z 0). rewrite <- Zlt_Qlt. lia. }
  (* real * ... *)
  destruct (ofExact_between (real * q2) 0 (hi + 1 - lo))
    as (E3 & L3 & U3); try lia.
  { change (inject_Z 0) with 0%Q. apply Qmult_le_0_compat; lra. }
  { assert (H : (real * q2 <= 1 * q2)%Q).
    { apply Qmult_le_compat_r; lra. }
    lra. }
  cbn [mul]. rewrite E3. set (q3 := roundFinite (real * q2)) in *.
  change (inject_Z 0) with 0%Q in L3.
  (* ... + effectiveMin *)
  destruct (ofExact_between (q3 + inject_Z lo) lo (hi + 1))
    as (E4 & L4 & U4); try lia.
  { lra. }
  { assert (H : (inject_Z (hi + 1) == inject_Z (hi + 1 - lo) + inject_Z lo)%Q).
    { rewrite <- inject_Z_plus. replace (hi + 1 - lo + lo)%Z with (hi + 1)%Z by lia.
      reflexivity. }
    lra. }
  cbn [add]. rewrite E4. set (q4 := roundFinite (q3 + inject_Z lo)) in *.
  cbn [floor]. exists (Qfloor q4). split; [reflexivity |].
  split.
  - rewrite <- (Qfloor_Z lo). apply Qfloor_resp_le. exact L4.
  - rewrite <- (Qfloor_Z (hi + 1)). apply Qfloor_resp_le. exact U4.
Qed.

(** From zero up, over a width that is a power of two, one draw of a
    double below 1 is computed without rounding and stays below the
    width. *)
Lemma generate_power_of_two (k : Z) (r : Randomizer) :
  (0 <= k <= 53)%Z ->
  isDouble (stream r (consulted r)) = true ->
  (0 <= stream r (consulted r) < 1)%Q ->
  exists v : Z,
    fst (generate 0 (2 ^ k - 1) r) = Finite (inject_Z v)
    /\ (0 <= v <= 2 ^ k - 1)%Z.
Proof.
  intros Hk Hdouble [Hreal0 Hreal1].
  apply isDouble_fixed in Hdouble.
  unfold generate, next. cbn [fst snd].
  set (real := stream r (consulted r)) in *.
  assert (Hpow : (0 < 2 ^ k <= 2 ^ 53)%Z).
  { split; [lia |]. apply Z.pow_le_mono_r; lia. }
  assert (Hpk : (pow2 k == inject_Z (2 ^ k))%Q) by (apply pow2_Z; lia).
  assert (Hpk0 : (0 < pow2 k)%Q) by apply pow2_pos.
  destruct (ofExact_between (inject_Z (2 ^ k - 1) + 1) (2 ^ k) (2 ^ k))
    as (E1 & L1 & U1); try lia.
  { unfold Z.sub. rewrite inject_Z_plus. change (inject_Z (- (1))) with (- (1))%Q. lra. }
  { unfold Z.sub. rewrite inject_Z_plus. change (inject_Z (- (1))) with (- (1))%Q. lra. }
  cbn [add]. rewrite E1. set (q1 := roundFinite (inject_Z (2 ^ k - 1) + 1)) in *.
  destruct (ofExact_between (q1 + - inject_Z 0) (2 ^ k) (2 ^ k))
    as (E2 & L2 & U2); try lia.
  { change (inject_Z 0) with 0%Q. lra. }
  { change (inject_Z 0) with 0%Q. lra. }
  cbn [sub opp add]. rewrite E2.
  set (q2 := roundFinite (q1 + - inject_Z 0)) in *.
  assert (Hq2 : (q2 == pow2 k)%Q) by lra.
  assert (Hexact : (roundFinite (real * q2) == real * pow2 k)%Q).
  { rewrite (roundFinite_comp (real * q2) (real * pow2 k))
      by (rewrite Hq2; reflexivity).
    apply roundFinite_scaled; [exact Hdouble | lia]. }
  assert (Hbelow : (real * pow2 k < pow2 k)%Q).
  { assert (H : (real * pow2 k < 1 * pow2 k)%Q).
    { apply Qmult_lt_compat_r; lra. }
    lra. }
  assert (Habove : (0 <= real * pow2 k)%Q).
  { apply Qmult_le_0_compat; lra. }
  destruct (ofExact_between (real * q2) 0 (2 ^ k)) as (E3 & _ & _); try lia.
  { change (inject_Z 0) with 0%Q. rewrite Hq2. exact Habove. }
  { rewrite Hq2. lra. }
  cbn [mul]. rewrite E3. set (q3 := roundFinite (real * q2)) in *.
  assert (Hsum : (roundFinite (q3 + inject_Z 0) == real * pow2 k)%Q).
  { rewrite (roundFinite_comp (q3 + inject_Z 0) (real * pow2 k)).
    - apply roundFinite_scaled; [exact Hdouble | lia].
    - change (inject_Z 0) with 0%Q. lra. }
  destruct (ofExact_between (q3 + inject_Z 0) 0 (2 ^ k)) as (E4 & _ & _);
    try lia.
  { change (inject_Z 0) with 0%Q. lra. }
  { change (inject_Z 0) with 0%Q. lra. }
  cbn [add]. rewrite E4. set (q4 := roundFinite (q3 + inject_Z 0)) in *.
  cbn [floor]. exists (Qfloor q4). split; [reflexivity |].
  split.
  - rewrite <- (Qfloor_Z 0). apply Qfloor_resp_le.
    change (inject_Z 0) with 0%Q. lra.
  - assert (H : (Qfloor q4 < 2 ^ k)%Z); [| lia].
    apply inject_Z_lt. eapply Qle_lt_trans; [apply Qfloor_le |]. lra.
Qed.

Lemma retry_unfold (fuel : nat) (excluded : list Q) (lo hi : Z)
    (result : Number) (r : Randomizer) :
  retry fuel excluded lo hi result r
  = if includesResult excluded result then
      match fuel with
      | O => (OutOfFuel, r)
      | S fuel' =>
          retry fuel' excluded lo hi (fst (generate lo hi r))
                (snd (generate lo hi r))
      end
    else (returned result, r).
Proof. destruct fuel; reflexivity. Qed.

(** Within the safe integers the retry loop ends on an integer from the
    lower bound to one above the upper bound that the list does not
    hold, never on [Infinity] or [NaN]. *)
Lemma retry_returns (excluded : list Q) (lo hi : Z) :
  (- 2 ^ 53 <= lo)%Z -> (hi < 2 ^ 53)%Z -> (lo <= hi)%Z ->
  (hi - lo < 2 ^ 53)%Z ->
  forall (fuel : nat) (v0 : Z) (r : Randomizer),
    unitStream r ->
    (lo <= v0 <= hi + 1)%Z ->
    match fst (retry fuel excluded lo hi (Finite (inject_Z v0)) r) with
    | Returned v =>
        (lo <= v <= hi + 1)%Z
        /\ includesNumber excluded (inject_Z v) = false
    | ReturnedNonFinite _ => False
    | Thrown _ | OutOfFuel => True
    end
    /\ stream (snd (retry fuel excluded lo hi (Finite (inject_Z v0)) r))
       = stream r.
Proof.
  intros Hlo Hhi Hrange Hwidth.
  induction fuel as [| fuel IH]; intros v0 r Hunit Hv0;
    rewrite retry_unfold; cbn [includesResult returned];
    destruct (includesNumber excluded (inject_Z v0)) eqn:Hin; cbn [fst snd].
  - split; [exact I | reflexivity].
  - rewrite Qfloor_Z. auto.
  - destruct (generate_within lo hi r Hlo Hhi Hrange Hwidth
                (proj2 (Hunit _))) as (v1 & -> & Hv1).
    rewrite generate_advances.
    apply (IH v1 {| stream := stream r; consulted := S (consulted r) |});
      assumption.
  - rewrite Qfloor_Z. auto.
Qed.

Lemma includesNumber_true (l : list Q) (x : Q) :
  includesNumber l x = true <-> exists y, In y l /\ (y == x)%Q.
Proof.
  unfold includesNumber. rewrite existsb_exists.
  split; intros (y & Hy & Heq); exists y; split; auto;
    apply Qeq_bool_iff; exact Heq.
Qed.

Lemma includesNumber_compat (l : list Q) (x y : Q) :
  (x == y)%Q -> includesNumber l x = includesNumber l y.
Proof.
  intros Hxy. unfold includesNumber. induction l as [| z l IH]; simpl.
  - reflexivity.
  - rewrite IH. f_equal. rewrite Hxy. reflexivity.
Qed.

Lemma includesNumber_cons (y : Q) (l : list Q) (x : Q) :
  includesNumber (y :: l) x = Qeq_bool y x || includesNumber l x.
Proof. reflexivity. Qed.

(** [[...new Set(l)]] holds a number exactly when [l] does. *)
Lemma includesNumber_uniqueNumbers (l : list Q) (x : Q) :
  forall seen,
    includesNumber (uniqueNumbers seen l) x = true
    <-> includesNumber l x = true /\ includesNumber seen x = false.
Proof.
  induction l as [| y l IH]; intros seen; cbn [uniqueNumbers].
  - split; [discriminate | intros [H _]; discriminate].
  - rewrite (includesNumber_cons y l).
    destruct (includesNumber seen y) eqn:Hseen.
    + rewrite IH. split.
      * intros [Hl Hs]. split; [| exact Hs]. rewrite Hl. apply orb_true_r.
      * intros [Hl Hs]. split; [| exact Hs].
        apply orb_prop in Hl as [Hy | Hl]; [| exact Hl].
        apply Qeq_bool_iff in Hy.
        rewrite <- (includesNumber_compat seen y x Hy), Hseen in Hs.
        discriminate.
    + rewrite includesNumber_cons, !orb_true_iff, IH, includesNumber_cons,
        orb_false_iff.
      destruct (Qeq_bool y x) eqn:Hy.
      * split; [intros _ | auto]. split; [left; reflexivity |].
        apply Qeq_bool_iff in Hy.
        rewrite <- (includesNumber_compat seen y x Hy). exact Hseen.
      * split.
        -- intros [H | [Hl [_ Hs]]]; [discriminate | auto].
        -- intros [[H | Hl] Hs]; [discriminate | auto].
Qed.

(** Within the bounds, the list that [int] works with excludes what the
    caller excluded. *)
Lemma includesNumber_uniqueExclude (options : IntOptions) (z : Z) :
  (effectiveMin options <= z <= effectiveMax options)%Z ->
  includesNumber (uniqueExclude options) (inject_Z z)
  = includesNumber (excludeOf options) (inject_Z z).
Proof.
  intros [Hlo Hhi]. apply eq_true_iff_eq. unfold uniqueExclude.
  assert (Hunique :
            includesNumber (uniqueNumbers [] (excludeOf options)) (inject_Z z)
            = true
            <-> includesNumber (excludeOf options) (inject_Z z) = true).
  { rewrite includesNumber_uniqueNumbers. split; [tauto | auto]. }
  rewrite <- Hunique, !includesNumber_true. split.
  - intros (y & Hy & Heq). apply filter_In in Hy as [Hy _]. eauto.
  - intros (y & Hy & Heq). exists y. split; [| exact Heq].
    apply filter_In. split; [exact Hy |].
    rewrite Heq. apply andb_true_intro.
    split; apply Qle_bool_iff; rewrite <- Zle_Qle; assumption.
Qed.

(** X1.  [int] throws for a range without an integer: the message about
    the order of the bounds when [max] is below [min], the one about the
    missing integer when the bounds are in order and no integer lies
    from [min] to [max]; the randomizer is left alone. *)
Theorem int_empty_range (options : IntOptions) (fuel : nat) (r : Randomizer) :
  ((maxOf options < minOf options)%Q ->
   int options fuel r
   = (Thrown (MaxNotGreaterThanMin (minOf options) (maxOf options)), r))
  /\ ((minOf options <= maxOf options)%Q ->
      (forall z : Z,
          ~ (minOf options <= inject_Z z /\ inject_Z z <= maxOf options)%Q) ->
      int options fuel r
      = (Thrown (NoIntegerBetween (minOf options) (maxOf options)), r)).
Proof.
  pose proof (effectiveMin_above options) as Hlo.
  pose proof (effectiveMax_below options) as Hhi.
  split.
  - intros Horder.
    assert (Hempty : (effectiveMax options < effectiveMin options)%Z).
    { apply inject_Z_lt. lra. }
    unfold int.
    destruct (Z.eqb_spec (effectiveMin options) (effectiveMax options));
      [lia |].
    destruct (Z.ltb_spec (effectiveMax options) (effectiveMin options));
      [| lia].
    destruct (Qle_bool (minOf options) (maxOf options)) eqn:Hle;
      [| reflexivity].
    apply Qle_bool_iff in Hle. lra.
  - intros Horder Hnone.
    assert (Hempty : (effectiveMax options < effectiveMin options)%Z).
    { destruct (Z.lt_ge_cases (effectiveMax options) (effectiveMin options))
        as [H | H]; [exact H |].
      exfalso. apply (Hnone (effectiveMin options)). split; [exact Hlo |].
      apply Qle_trans with (inject_Z (effectiveMax options)); [| exact Hhi].
      rewrite <- Zle_Qle. exact H. }
    unfold int.
    destruct (Z.eqb_spec (effectiveMin options) (effectiveMax options));
      [lia |].
    destruct (Z.ltb_spec (effectiveMax options) (effectiveMin options));
      [| lia].
    apply Qle_bool_iff in Horder. rewrite Horder. reflexivity.
Qed.

(** X2.  With a randomizer that yields doubles from 0 up to 1 and
    bounds within the safe integers, [int] never returns [Infinity] or
    [NaN]; what it returns is an integer from [Math.ceil(min)] to
    [Math.floor(max) + 1]: the sum [real * width + effectiveMin] is
    rounded, and the rounding can reach the integer above the upper
    bound.  A value up to the upper bound is none of the excluded
    numbers (unless the bounds coincide); and [int] has not touched the
    stream of the randomizer. *)
Theorem int_returns_within (options : IntOptions) (fuel : nat)
    (r : Randomizer) :
  unitStream r ->
  safeRange options ->
  match fst (int options fuel r) with
  | Returned v =>
      (effectiveMin options <= v <= effectiveMax options + 1)%Z
      /\ (effectiveMin options <> effectiveMax options ->
          (v <= effectiveMax options)%Z ->
          includesNumber (excludeOf options) (inject_Z v) = false)
  | ReturnedNonFinite _ => False
  | Thrown _ | OutOfFuel => True
  end
  /\ stream (snd (int options fuel r)) = stream r.
Proof.
  intros Hunit (Hlo & Hhi & Hwidth). unfold int.
  destruct (Z.eqb_spec (effectiveMin options) (effectiveMax options))
    as [Heq | Hne]; cbn [fst snd].
  { split; [split; [lia | tauto] | reflexivity]. }
  destruct (Z.ltb_spec (effectiveMax options) (effectiveMin options))
    as [Hlt | Hge].
  { destruct (Qle_bool (minOf options) (maxOf options)); cbn [fst snd];
      split; (exact I || reflexivity). }
  destruct (_ <=? _)%Z; cbn [fst snd]; [split; [exact I | reflexivity] |].
  assert (Hrange : (effectiveMin options <= effectiveMax options)%Z) by lia.
  destruct (generate_within _ _ r Hlo Hhi Hrange Hwidth (proj2 (Hunit _)))
    as (v0 & Hfirst & Hv0).
  pose proof (generate_advances (effectiveMin options) (effectiveMax options) r)
    as Hnext.
  destruct (generate (effectiveMin options) (effectiveMax options) r)
    as [result r1].
  cbn [fst snd] in Hfirst, Hnext. subst result r1.
  destruct (retry_returns (uniqueExclude options) _ _ Hlo Hhi Hrange Hwidth
              fuel v0 {| stream := stream r; consulted := S (consulted r) |}
              Hunit Hv0) as [Hret Hstream].
  split; [| exact Hstream].
  destruct (fst (retry fuel (uniqueExclude options) _ _ _ _)) as [v | n | e |];
    try exact Hret.
  destruct Hret as [Hv Hout]. split; [exact Hv |].
  intros _ Hin. rewrite <- (includesNumber_uniqueExclude options v) by lia.
  exact Hout.
Qed.

(** A list of numbers hits at most as many distinct integers as it is
    long. *)
Lemma integers_hit_bounded (l : list Q) :
  forall zs : list Z,
    NoDup zs ->
    (forall z, z ∈ zs -> includesNumber l (inject_Z z) = true) ->
    length zs <= length l.
Proof.
  induction l as [| x l IH]; intros zs Hnd Hall.
  - destruct zs as [| z zs]; [reflexivity |].
    specialize (Hall z (list_elem_of_here _ _)). discriminate.
  - set (P := fun z : Z => Qeq_bool x (inject_Z z) = true).
    pose proof (filter_app_complement P zs) as Hperm.
    apply Permutation_length in Hperm. rewrite length_app in Hperm.
    assert (Hone : length (filter P zs) <= 1).
    { pose proof (NoDup_filter P zs Hnd) as Hnd1.
      destruct (filter P zs) as [| a [| b t]] eqn:Hf; simpl; try lia.
      exfalso.
      assert (Ha : a ∈ filter P zs) by (rewrite Hf; left).
      assert (Hb : b ∈ filter P zs) by (rewrite Hf; right; left).
      apply list_elem_of_filter in Ha as [Ha _], Hb as [Hb _].
      unfold P in Ha, Hb. apply Qeq_bool_iff in Ha, Hb.
      assert (Hab : a = b).
      { apply inject_Z_injective. rewrite <- Ha, <- Hb. reflexivity. }
      subst b. apply NoDup_cons in Hnd1 as [Hnotin _]. apply Hnotin. left. }
    assert (Hrest : length (filter (fun z => ~ P z) zs) <= length l).
    { apply IH; [apply NoDup_filter; exact Hnd |].
      intros z Hz. apply list_elem_of_filter in Hz as [Hnot Hz].
      specialize (Hall z Hz). rewrite includesNumber_cons in Hall.
      apply orb_prop in Hall as [Hx | Hl]; [contradiction | exact Hl]. }
    simpl. lia.
Qed.

Lemma range_all_or_one (f : Z -> bool) (zs : list Z) :
  (forall z, z ∈ zs -> f z = true) \/ (exists z, z ∈ zs /\ f z = false).
Proof.
  induction zs as [| z zs IH].
  - left. intros z Hz. inversion Hz.
  - destruct (f z) eqn:Hz; [| right; exists z; split; [left | exact Hz]].
    destruct IH as [Hall | (y & Hy & Hfy)].
    + left. intros y Hy. apply elem_of_cons in Hy as [-> | Hy]; auto.
    + right. exists y. split; [right; exact Hy | exact Hfy].
Qed.

Lemma int_throws_when_covered (options : IntOptions) (fuel : nat)
    (r : Randomizer) :
  (effectiveMin options < effectiveMax options)%Z ->
  (forall z : Z,
      (effectiveMin options <= z <= effectiveMax options)%Z ->
      includesNumber (excludeOf options) (inject_Z z) = true) ->
  int options fuel r = (Thrown MoreExcludedThanRange, r).
Proof.
  intros Hrange Hall.
  set (lo := effectiveMin options) in *. set (hi := effectiveMax options) in *.
  assert (Hlen : (hi - lo + 1 <= Z.of_nat (length (uniqueExclude options)))%Z).
  { pose proof (integers_hit_bounded (uniqueExclude options)
                  (seqZ lo (hi - lo + 1)) (NoDup_seqZ _ _)) as Hbound.
    rewrite length_seqZ in Hbound.
    assert (H : Z.to_nat (hi - lo + 1) <= length (uniqueExclude options));
      [| lia].
    apply Hbound. intros z Hz. apply elem_of_seqZ in Hz.
    rewrite includesNumber_uniqueExclude by (fold lo hi; lia).
    apply Hall. lia. }
  unfold int. fold lo hi.
  destruct (Z.eqb_spec lo hi); [lia |].
  destruct (Z.ltb_spec hi lo); [lia |].
  destruct (Z.leb_spec (hi - lo + 1) (Z.of_nat (length (uniqueExclude options))));
    [reflexivity | lia].
Qed.

(** X3.  [int] throws when the exclude list covers every integer of a
    range of two or more; the randomizer is left alone. *)
Theorem int_range_excluded (options : IntOptions) (fuel : nat)
    (r : Randomizer) :
  (effectiveMin options < effectiveMax options)%Z ->
  (forall z : Z,
      (effectiveMin options <= z <= effectiveMax options)%Z ->
      includesNumber (excludeOf options) (inject_Z z) = true) ->
  int options fuel r = (Thrown MoreExcludedThanRange, r).
Proof. apply int_throws_when_covered. Qed.

(** X4.  When [int] gets past its checks on a range of two or more, some
    integer of the range is not excluded: the retry loop has a value it
    can end on. *)
Theorem int_admissible_exists (options : IntOptions) (fuel : nat)
    (r : Randomizer) :
  (effectiveMin options < effectiveMax options)%Z ->
  (forall error, fst (int options fuel r) <> Thrown error) ->
  exists z : Z,
    (effectiveMin options <= z <= effectiveMax options)%Z
    /\ includesNumber (excludeOf options) (inject_Z z) = false.
Proof.
  intros Hrange Hpast.
  destruct (range_all_or_one
              (fun z => includesNumber (excludeOf options) (inject_Z z))
              (seqZ (effectiveMin options)
                    (effectiveMax options - effectiveMin options + 1)))
    as [Hall | (z & Hz & Hout)].
  - exfalso. apply (Hpast MoreExcludedThanRange).
    rewrite (int_throws_when_covered options fuel r Hrange); [reflexivity |].
    intros z Hz. apply Hall. apply elem_of_seqZ. lia.
  - exists z. apply elem_of_seqZ in Hz. split; [lia | exact Hout].
Qed.

Lemma retry_first_admissible (excluded : list Q) (lo hi : Z)
    (reals : nat -> Q) :
  let d := fun c =>
             fst (generate lo hi {| stream := reals; consulted := c |}) in
  forall (k fuel c : nat),
    k <= fuel ->
    (forall j, j < k -> includesResult excluded (d (c + j)) = true) ->
    includesResult excluded (d (c + k)) = false ->
    retry fuel excluded lo hi (d c) {| stream := reals; consulted := S c |}
    = (returned (d (c + k)), {| stream := reals; consulted := S (c + k) |}).
Proof.
  intros d. induction k as [| k IH]; intros fuel c Hfuel Hbefore Hk;
    rewrite retry_unfold.
  - rewrite Nat.add_0_r in *. rewrite Hk. reflexivity.
  - pose proof (Hbefore 0 (Nat.lt_0_succ k)) as H0.
    rewrite Nat.add_0_r in H0. rewrite H0.
    destruct fuel as [| fuel]; [lia |].
    change (fst (generate lo hi {| stream := reals; consulted := S c |}))
      with (d (S c)).
    rewrite generate_advances. cbn [stream consulted].
    rewrite (IH fuel (S c)).
    + rewrite Nat.add_succ_r. reflexivity.
    + lia.
    + intros j Hj. assert (Hj' : S j < S k) by lia.
      specialize (Hbefore (S j) Hj').
      rewrite Nat.add_succ_r in Hbefore. exact Hbefore.
    + rewrite Nat.add_succ_r in Hk. exact Hk.
Qed.

(** X5.  Fuel enough: past the checks, when the first [k] draws are in
    the list that the loop tests and the next one is not, [int] with
    fuel [k] or more returns that draw after [k + 1] calls of
    [next()].  Within the safe integers and with [next()] from 0 up to
    1, that draw is an integer from [Math.ceil(min)] to
    [Math.floor(max) + 1]. *)
Theorem int_returns_first_admissible (options : IntOptions) (fuel k : nat)
    (r : Randomizer) :
  (effectiveMin options < effectiveMax options)%Z ->
  (Z.of_nat (length (uniqueExclude options))
   < effectiveMax options - effectiveMin options + 1)%Z ->
  (forall j, j < k ->
     includesResult (uniqueExclude options) (drawAt options r j) = true) ->
  includesResult (uniqueExclude options) (drawAt options r k) = false ->
  k <= fuel ->
  int options fuel r
  = (returned (drawAt options r k),
     {| stream := stream r; consulted := S (consulted r + k) |})
  /\ (safeRange options ->
      (0 <= stream r (consulted r + k) < 1)%Q ->
      exists v : Z,
        drawAt options r k = Finite (inject_Z v)
        /\ (effectiveMin options <= v <= effectiveMax options + 1)%Z).
Proof.
  intros Hrange Hlen Hbefore Hk Hfuel.
  split.
  2:{ intros (Hlo & Hhi & Hwidth) Hreal. unfold drawAt.
      apply generate_within; try assumption. lia. }
  unfold int.
  destruct (Z.eqb_spec (effectiveMin options) (effectiveMax options)); [lia |].
  destruct (Z.ltb_spec (effectiveMax options) (effectiveMin options)); [lia |].
  destruct (Z.leb_spec
              (effectiveMax options - effectiveMin options + 1)
              (Z.of_nat (length (uniqueExclude options)))); [lia |].
  destruct r as [reals c]. unfold drawAt in *. cbn [stream consulted] in *.
  pose proof (retry_first_admissible (uniqueExclude options)
                (effectiveMin options) (effectiveMax options) reals
                k fuel c Hfuel Hbefore Hk) as Hretry.
  cbn zeta in Hretry.
  pose proof (generate_advances (effectiveMin options) (effectiveMax options)
                {| stream := reals; consulted := c |}) as Hnext.
  destruct (generate (effectiveMin options) (effectiveMax options)
              {| stream := reals; consulted := c |}) as [result r1] eqn:Hgen.
  rewrite ?Hgen in Hnext. cbn [fst snd stream consulted] in Hnext. subst r1.
  assert (Hresult : result
                    = fst (generate (effectiveMin options) (effectiveMax options)
                             {| stream := reals; consulted := c |}))
    by (rewrite Hgen; reflexivity).
  rewrite Hresult. exact Hretry.
Qed.

Lemma int_returns_first_admissible_witness :
  let options := OfObject (Some (1 # 1)) (Some (7 # 1))
                          (Some [2 # 1; 4 # 1; 6 # 1])%Q in
  let r := {| stream := fun n => if (n <? 2)%nat then (1 # 2) else (3 # 8);
              consulted := 0 |}%Q in
  int options 5 r
  = (Returned 3%Z, {| stream := stream r; consulted := 3 |}).
Proof.
  intros options r.
  refine (proj1 (int_returns_first_admissible options 5 2 r _ _ _ _ _)).
  - reflexivity.
  - reflexivity.
  - intros j Hj. destruct j as [| [| j]];
      [vm_compute; reflexivity | vm_compute; reflexivity | lia].
  - vm_compute. reflexivity.
  - lia.
Defined.

(** The integer above the upper bound is reached: at the largest double
    below 1, [real * 2 + 1] is [3 - 2 ^ -52], which lies midway between
    two doubles and rounds to 3; and 3 comes back although the caller
    excluded it, the loop testing it against the excluded numbers of the
    range only. *)
Example int_beyond_max :
  int (OfObject (Some (1 # 1)) (Some (2 # 1)) None)%Q 0 MoreSamples.topmost
  = (Returned 3, {| stream := stream MoreSamples.topmost; consulted := 1 |})
  /\ int (OfObject (Some (1 # 1)) (Some (2 # 1)) (Some [3 # 1]))%Q 0
         MoreSamples.topmost
     = (Returned 3, {| stream := stream MoreSamples.topmost; consulted := 1 |}).
Proof. split; vm_compute; reflexivity. Qed.

(** Beyond the doubles the width overflows and [int] returns
    [Infinity]. *)
Example int_overflow :
  let huge := inject_Z (2 ^ 1023) in
  fst (int (OfObject (Some (- huge)) (Some huge) None)%Q 0 MoreSamples.halves)
  = ReturnedNonFinite PlusInfinity.
Proof. vm_compute. reflexivity. Qed.
End NumberRangeFacts.

(** ** NumberModule: binary, octal, hex and bigInt *)
Module NumberTextFacts.
Import Double NumberModule NumberRest NumberRangeFacts.
Local Open Scope Z_scope.







(** How [int] ends when nothing is excluded: a throw for an empty range,
    the randomizer untouched; the one integer of the range, the
    randomizer untouched; or the first draw, whatever the fuel. *)
Lemma int_without_exclude (options : IntOptions) (fuel : nat)
    (r : Randomizer) :
  uniqueExclude options = [] ->
  (effectiveMax options < effectiveMin options
   /\ exists error, int options fuel r = (Thrown error, r))
  \/ (effectiveMin options = effectiveMax options
      /\ int options fuel r = (Returned (effectiveMin options), r))
  \/ (effectiveMin options < effectiveMax options
      /\ int options fuel r
         = (returned
              (fst (generate (effectiveMin options) (effectiveMax options) r)),
            {| stream := stream r; consulted := S (consulted r) |})).
Proof.
  intros Hnone. unfold int. rewrite Hnone.
  destruct (Z.eqb_spec (effectiveMin options) (effectiveMax options))
    as [Heq | Hne]; [right; left; auto |].
  destruct (Z.ltb_spec (effectiveMax options) (effectiveMin options))
    as [Hlt | Hge].
  - left. split; [exact Hlt |].
    destruct (Qle_bool (minOf options) (maxOf options)); eauto.
  - destruct (Z.leb_spec
                (effectiveMax options - effectiveMin options + 1)
                (Z.of_nat (length (@nil Q)))) as [Hlen | _];
      [simpl in Hlen; lia |].
    right. right. split; [lia |].
    pose proof (generate_advances (effectiveMin options)
                  (effectiveMax options) r) as Hnext.
    destruct (generate (effectiveMin options) (effectiveMax options) r)
      as [result r1].
    cbn [fst snd] in *. subst r1. rewrite retry_unfold.
    destruct result; reflexivity.
Qed.



(** The upper bound is passed: [hex({ min: 8, max: 15 })] at the largest
    double below 1 returns [10], which denotes 16. *)
Example hex_beyond_max :
  fst (hex (Between (Some (8 # 1)) (Some (15 # 1)))%Q 0 MoreSamples.topmost)
  = ReturnedText "10".
Proof. vm_compute. reflexivity. Qed.

Lemma toStringRadix_digit (radix v : Z) :
  2 <= radix -> 0 <= v < radix ->
  toStringRadix radix v = String (digitChar v) EmptyString.
Proof.
  intros Hradix Hv. unfold toStringRadix.
  destruct (Z.ltb_spec v 0); [lia |]. cbn [digitsOf].
  rewrite Z.div_small, Z.mod_small by lia. reflexivity.
Qed.

(** Without bounds the range is 0 to [2 ^ k - 1] and the one draw is
    computed without rounding. *)
Lemma radix_default_digit (radix k : Z) (fuel : nat) (r : Randomizer) :
  unitStream r ->
  2 <= radix -> 0 <= k <= 53 -> 2 ^ k <= radix ->
  exists v r',
    textOf radix
      (int (rangeOf (inject_Z (2 ^ k - 1)) (Between None None)) fuel r)
    = (ReturnedText (String (digitChar v) EmptyString), r')
    /\ 0 <= v <= 2 ^ k - 1.
Proof.
  intros Hunit Hradix Hk Hpow.
  set (range := rangeOf (inject_Z (2 ^ k - 1)) (Between None None)).
  assert (Hmin : effectiveMin range = 0) by reflexivity.
  assert (Hmax : effectiveMax range = 2 ^ k - 1) by apply Qfloor_Z.
  assert (Hpos : 0 < 2 ^ k) by lia.
  destruct (int_without_exclude range fuel r eq_refl)
    as [(Hempty & _) | [(Hsame & ->) | (Hrange & ->)]].
  - lia.
  - exists 0, r. rewrite Hmin. cbn [textOf].
    rewrite toStringRadix_digit by lia. split; [reflexivity | lia].
  - rewrite Hmin, Hmax.
    destruct (generate_power_of_two k r Hk (proj1 (Hunit _)) (proj2 (Hunit _)))
      as (v & -> & Hv).
    exists v, {| stream := stream r; consulted := S (consulted r) |}.
    cbn [returned textOf]. rewrite Qfloor_Z.
    rewrite toStringRadix_digit by lia. split; [reflexivity | exact Hv].
Qed.

(** X7.  Called without bounds, [binary] returns [0] or [1], and [octal]
    and [hex] return one digit. *)
Theorem radix_defaults_one_digit (fuel : nat) (r : Randomizer) :
  unitStream r ->
  (exists r', binary (Between None None) fuel r = (ReturnedText "0", r')
              \/ binary (Between None None) fuel r = (ReturnedText "1", r'))
  /\ (exists v r',
        octal (Between None None) fuel r
        = (ReturnedText (String (digitChar v) EmptyString), r')
        /\ 0 <= v <= 7)
  /\ (exists v r',
        hex (Between None None) fuel r
        = (ReturnedText (String (digitChar v) EmptyString), r')
        /\ 0 <= v <= 15).
Proof.
  intros Hunit. split; [| split].
  - destruct (radix_default_digit 2 1 fuel r Hunit) as (v & r' & Hret & Hv);
      try lia.
    exists r'. unfold binary. change 1%Q with (inject_Z (2 ^ 1 - 1)).
    rewrite Hret. change (2 ^ 1 - 1) with 1 in Hv.
    assert (Hcases : v = 0 \/ v = 1) by lia.
    destruct Hcases as [-> | ->]; [left | right]; reflexivity.
  - exact (radix_default_digit 8 3 fuel r Hunit ltac:(lia) ltac:(lia)
             ltac:(lia)).
  - exact (radix_default_digit 16 4 fuel r Hunit ltac:(lia) ltac:(lia)
             ltac:(lia)).
Qed.

Lemma bigInt_outcome (options : BigIntOptions) (numeric : nat -> Z)
    (min max : Z) :
  toBigInt (default (OfDouble 0%Q) (bigMinOf options)) = inr min ->
  toBigInt (default (OfBigInt (min + 999999999999999)) (bigMaxOf options))
  = inr max ->
  (forall length, 0 <= numeric length) ->
  (max < min ->
   bigInt options numeric = ThrownBigInt (MaxNotLargerThanMin max min))
  /\ (min <= max ->
      exists v, bigInt options numeric = ReturnedBigInt v /\ min <= v <= max).
Proof.
  intros Hmin Hmax Hdigits. unfold bigInt. rewrite Hmin, Hmax. split.
  - intros Hlt.
    destruct (Z.eqb_spec max min); [lia |].
    destruct (Z.ltb_spec max min); [reflexivity | lia].
  - intros Hle.
    destruct (Z.eqb_spec max min) as [-> | Hne].
    + exists min. split; [reflexivity | lia].
    + destruct (Z.ltb_spec max min); [lia |].
      eexists. split; [reflexivity |].
      pose proof (Z.rem_bound_pos
                    (numeric (String.length (toStringRadix 10 (max - min))))
                    (max - min + 1) (Hdigits _) ltac:(lia)).
      lia.
Qed.

(** With bounds that [BigInt()] accepts and a digit string that denotes
    a number not below zero: [bigInt] throws when [max] is below [min],
    and otherwise returns a bigint from [min] to [max], both included. *)
Theorem bigInt_within (options : BigIntOptions) (numeric : nat -> Z)
    (min max : Z) :
  toBigInt (default (OfDouble 0%Q) (bigMinOf options)) = inr min ->
  toBigInt (default (OfBigInt (min + 999999999999999)) (bigMaxOf options))
  = inr max ->
  (forall length, 0 <= numeric length) ->
  (max < min ->
   bigInt options numeric = ThrownBigInt (MaxNotLargerThanMin max min))
  /\ (min <= max ->
      exists v, bigInt options numeric = ReturnedBigInt v /\ min <= v <= max).
Proof. apply bigInt_outcome. Qed.

(** With a lower bound alone [bigInt] does not throw: the upper bound is
    [min + 999999999999999]. *)
Theorem bigInt_min_only (min : Z) (numeric : nat -> Z) :
  (forall length, 0 <= numeric length) ->
  exists v,
    bigInt (BigBetween (Some (OfBigInt min)) None) numeric = ReturnedBigInt v
    /\ min <= v <= min + 999999999999999.
Proof.
  intros Hdigits.
  apply (bigInt_outcome (BigBetween (Some (OfBigInt min)) None) numeric
           min (min + 999999999999999) eq_refl eq_refl Hdigits).
  lia.
Qed.
End NumberTextFacts.

(** ** generate.ts: throws, artifacts and the order of the module pages *)
Module GenerateRestFacts.
Import Completion Generate GenerateRest GenerateFacts.

Section Order.
Context {A : Type} (cmp : A -> A -> Z).

(** [insertBy] puts the element behind the ones it must follow and
    leaves the others in their order. *)
Lemma insertBy_split (x : A) (l : list A) :
  exists l1 l2,
    l = l1 ++ l2
    /\ insertBy cmp x l = l1 ++ x :: l2
    /\ List.Forall (fun y => (0 < cmp x y)%Z) l1.
Proof.
  induction l as [| y l IH]; simpl.
  - exists [], []. repeat split. constructor.
  - destruct (Z.leb_spec (cmp x y) 0) as [Hle | Hgt].
    + exists [], (y :: l). repeat split. constructor.
    + destruct IH as (l1 & l2 & -> & Hins & Hall).
      exists (y :: l1), l2. rewrite Hins. repeat split.
      constructor; assumption.
Qed.

Lemma filter_none (f : A -> bool) (l : list A) :
  List.Forall (fun y => f y = false) l -> List.filter f l = [].
Proof.
  induction 1 as [| y l Hy _ IH]; simpl; [reflexivity |].
  rewrite Hy. exact IH.
Qed.

Lemma insertBy_sameRank (universe l : list A) (x z : A) :
  consistentOn cmp universe = true ->
  In x universe -> In z universe -> (forall y, In y l -> In y universe) ->
  List.filter (sameRank cmp z) (insertBy cmp x l)
  = List.filter (sameRank cmp z) (x :: l).
Proof.
  intros Hc Hx Hz Hin.
  destruct (insertBy_split x l) as (l1 & l2 & -> & -> & Hall).
  rewrite !List.filter_app. cbn [List.filter].
  destruct (sameRank cmp z x) eqn:Hzx; [| rewrite List.filter_app; reflexivity].
  rewrite List.filter_app.
  rewrite (filter_none (sameRank cmp z) l1); [reflexivity |].
  rewrite List.Forall_forall in Hall |- *. intros y Hy.
  destruct (sameRank cmp z y) eqn:Hzy; [| reflexivity].
  exfalso. specialize (Hall y Hy).
  unfold sameRank in Hzx, Hzy.
  apply andb_prop in Hzx as [_ Hxz], Hzy as [Hzy _].
  apply Z.leb_le in Hxz, Hzy.
  assert (Hxy : precedes cmp x y).
  { apply (consistentOn_trans cmp universe x z y); auto.
    apply Hin. apply in_or_app. left. exact Hy. }
  unfold precedes in Hxy. lia.
Qed.

Lemma sortBy_sameRank_within (universe l : list A) (z : A) :
  consistentOn cmp universe = true ->
  In z universe -> (forall y, In y l -> In y universe) ->
  List.filter (sameRank cmp z) (sortBy cmp l)
  = List.filter (sameRank cmp z) l.
Proof.
  intros Hc Hz. induction l as [| x l IH]; intros Hin; [reflexivity |].
  cbn [sortBy foldr].
  change (foldr (insertBy cmp) [] l) with (sortBy cmp l).
  rewrite (insertBy_sameRank universe); auto.
  - cbn [List.filter]. rewrite IH; [reflexivity |].
    intros y Hy. apply Hin. right. exact Hy.
  - apply Hin. left. reflexivity.
  - intros y Hy. apply Hin. right.
    apply (Permutation_in _ (sortBy_Permutation cmp l)). exact Hy.
Qed.

(** The sort is stable: elements that a consistent comparator ranks
    alike stay in the order in which they came. *)
Theorem sortBy_stable (l : list A) (z : A) :
  consistentOn cmp l = true ->
  In z l ->
  List.filter (sameRank cmp z) (sortBy cmp l)
  = List.filter (sameRank cmp z) l.
Proof.
  intros Hc Hz. apply (sortBy_sameRank_within l); auto.
Qed.

Lemma sortBy_of_sorted (l : list A) :
  StronglySorted (precedes cmp) l -> sortBy cmp l = l.
Proof.
  induction 1 as [| x l Hs IH Hall]; [reflexivity |].
  cbn [sortBy foldr].
  change (foldr (insertBy cmp) [] l) with (sortBy cmp l). rewrite IH.
  destruct l as [| y l]; [reflexivity |]. cbn [insertBy].
  apply List.Forall_inv in Hall. unfold precedes in Hall.
  destruct (Z.leb_spec (cmp x y) 0); [reflexivity | lia].
Qed.

(** Pages that come in order stay as they are, and sorting a second time
    changes nothing. *)
Theorem sortBy_fixes_sorted (l : list A) :
  (StronglySorted (precedes cmp) l -> sortBy cmp l = l)
  /\ (consistentOn cmp l = true ->
      sortBy cmp (sortBy cmp l) = sortBy cmp l).
Proof.
  split; [apply sortBy_of_sorted |].
  intros Hc. apply sortBy_of_sorted, sortBy_sorted, Hc.
Qed.
End Order.
Section Throws.
Context {Project Diff Content : Type}.
Variable env : Collaborators Project Diff Content.

Lemma collectPages_no_artifact (project : Project) :
  fst (collectPages env project) = [].
Proof.
  unfold collectPages. cbn [bind call hand ret app].
  destruct (processFakerClasses env project); cbn [bind call ret app fst];
    [| reflexivity].
  destruct (processModules env project); cbn [bind call ret app fst];
    [| reflexivity].
  destruct (processFakerRandomizer env project); cbn [bind call ret app fst];
    [| reflexivity].
  destruct (processFakerUtilities env project); reflexivity.
Qed.

(** Whatever throws, what a run has handed over is a beginning of the
    five artifacts in their fixed order; nothing is handed over when the
    project does not load; and a run that ends without a throw has
    handed over all five. *)
Theorem generate_hands_in_order :
  (fst (generate env) = [] /\ isThrow (loadProject env))
  \/ exists project pages,
       loadProject env = Ok project
       /\ fst (generate env) `prefix_of` handedOver project pages
       /\ fst (generate env) <> []
       /\ (snd (generate env) = Ok tt ->
           snd (collectPages env project) = Ok pages
           /\ fst (generate env) = handedOver project pages).
Proof.
  run_start.
  destruct (loadProject env) as [project | reason] eqn:Hload;
    cbn [bind call hand ret app fst snd]; [| left; split; [reflexivity | exact I]].
  right.
  pose proof (collectPages_no_artifact project) as Hnone.
  destruct (generateJson env project) as [[] | reason];
    cbn [bind call hand ret app fst snd].
  2:{ exists project, []. split; [reflexivity |].
      split; [eexists; reflexivity | split; [discriminate | discriminate]]. }
  destruct (collectPages env project) as [written [pages | reason]]
    eqn:Hcollect;
    cbn [fst] in Hnone; subst written; cbn [bind call hand ret app fst snd].
  2:{ exists project, []. split; [reflexivity |].
      split; [eexists; reflexivity | split; [discriminate | discriminate]]. }
  exists project, pages. split; [reflexivity |].
  destruct (writeApiPagesIndex env (pagesIndexOf pages)) as [[] | reason];
    cbn [bind call hand ret app fst snd].
  2:{ split; [eexists; reflexivity | split; [discriminate | discriminate]]. }
  destruct (writeApiDiffIndex env (diffIndexOf pages)) as [[] | reason];
    cbn [bind call hand ret app fst snd].
  2:{ split; [eexists; reflexivity | split; [discriminate | discriminate]]. }
  destruct (writeApiSearchIndex env pages) as [[] | reason];
    cbn [bind call hand ret app fst snd].
  2:{ split; [eexists; reflexivity | split; [discriminate | discriminate]]. }
  destruct (writeSourceBaseUrl env project) as [[] | reason];
    cbn [bind call hand ret app fst snd].
  - split; [exists []; reflexivity | split; [discriminate |]].
    intros _. rewrite Hcollect. split; reflexivity.
  - split; [exists []; reflexivity | split; [discriminate | discriminate]].
Qed.

(** When one of the four page processors throws, the run ends with that
    throw and no index has been handed to a writer: the JSON dump is the
    only artifact. *)
Theorem generate_processor_throws (project : Project) (reason : string) :
  loadProject env = Ok project ->
  generateJson env project = Ok tt ->
  snd (collectPages env project) = Throw reason ->
  generate env = ([TypedocJson project], Throw reason).
Proof.
  intros Hload Hjson Hthrow.
  pose proof (collectPages_no_artifact project) as Hnone.
  run_start. run_step Hload. run_step Hjson.
  destruct (collectPages env project) as [written outcome].
  cbn [fst snd] in Hnone, Hthrow. subst. reflexivity.
Qed.
End Throws.

Section DiffIndex.
Context {Diff Content : Type}.

Lemma diffIndexOf_dom (pages : list (Page Diff Content)) :
  dom (diffIndexOf pages) = list_to_set (map text pages).
Proof.
  induction pages as [| p pages IH] using rev_ind.
  - unfold diffIndexOf, fromEntries. simpl. apply dom_empty_L.
  - rewrite diffIndexOf_snoc, dom_insert_L, IH, map_app, list_to_set_app_L.
    cbn [map]. rewrite list_to_set_cons, list_to_set_nil.
    rewrite (right_id_L ∅ (∪)). apply (comm_L (∪)).
Qed.

Lemma size_list_to_set_le (l : list string) :
  size (list_to_set l : gset string) <= length l
  /\ (size (list_to_set l : gset string) = length l -> NoDup l).
Proof.
  induction l as [| x l [IHle IHnd]].
  - rewrite list_to_set_nil, size_empty. split; [reflexivity | constructor].
  - rewrite list_to_set_cons. cbn [length].
    destruct (decide (x ∈ l)) as [Hin | Hout].
    + assert (Hsame : ({[x]} ∪ list_to_set l : gset string) = list_to_set l).
      { apply subseteq_union_1_L. apply singleton_subseteq_l.
        apply elem_of_list_to_set. exact Hin. }
      rewrite Hsame. split; [lia | intros H; lia].
    + rewrite size_union, size_singleton.
      * split; [lia |]. intros H. apply NoDup_cons. split; [exact Hout |].
        apply IHnd. lia.
      * apply disjoint_singleton_l. rewrite elem_of_list_to_set. exact Hout.
Qed.

(** The diff index has one entry per distinct title: never more entries
    than pages, and as many exactly when no two pages share a title. *)
Theorem diff_index_entries (pages : list (Page Diff Content)) :
  dom (diffIndexOf pages) = list_to_set (map text pages)
  /\ size (diffIndexOf pages) <= length pages
  /\ (size (diffIndexOf pages) = length pages <-> NoDup (map text pages)).
Proof.
  assert (Hsize : size (diffIndexOf pages)
                  = size (list_to_set (map text pages) : gset string)).
  { rewrite <- diffIndexOf_dom. symmetry. apply size_dom. }
  destruct (size_list_to_set_le (map text pages)) as [Hle Hnd].
  rewrite length_map in Hle, Hnd.
  split; [apply diffIndexOf_dom |]. rewrite Hsize.
  split; [exact Hle |]. split; [exact Hnd |].
  intros H. rewrite (size_list_to_set (map text pages) H). apply length_map.
Qed.
End DiffIndex.
End GenerateRestFacts.

(** ** verify-jsdoc-tags.spec.ts: the other checks and how hooks and sets
    compose *)
Module HarnessRestFacts.
Import Js Regex Completion CompletionFacts Harness Stated StringFacts.
Import TrimFacts OccurFacts PlainFacts ScanFacts LinkFacts DomainFacts.
Import HarnessCheckFacts.

(** Examples that do not hold the word [faker], or hold no dot, get an
    empty import list. *)
Theorem materialize_without_match (examples : string) :
  includes examples "faker" = false \/ includes examples "." = false ->
  exampleImports examples = []
  /\ materialize examples
     = "import {  } from '../../../../../src';" +:+ LF +:+ LF +:+ examples.
Proof.
  intros Hnone.
  assert (Hscan : matchAll importAt examples = []).
  { apply scan_nothing. intros prev before from ->.
    unfold importAt. destruct (isChar "." prev); [reflexivity |].
    destruct Hnone as [Hword | Hdot].
    - apply includes_false_suffix, includes_false_startsWith in Hword.
      rewrite Hword. reflexivity.
    - destruct (startsWith from "faker"); [| reflexivity].
      apply includes_false_suffix in Hdot.
      apply (includes_false_dropBytes 5) in Hdot.
      apply splitAtChar_None in Hdot. rewrite Hdot. reflexivity. }
  assert (Himports : exampleImports examples = []).
  { unfold exampleImports, matchImports. rewrite Hscan. reflexivity. }
  split; [exact Himports |]. unfold materialize. rewrite Himports.
  reflexivity.
Qed.

Lemma materialize_without_match_witness :
  exampleImports "new Date() // now" = [].
Proof.
  apply (materialize_without_match "new Date() // now").
  left. reflexivity.
Defined.

Section Checks.
Context {ModuleRefl Signature : Type}.
Context {typedoc : Typedoc ModuleRefl Signature} {runtime : Runtime}.
Variable modules : list (string * (ModuleRefl * list (string * Signature))).

Lemma assertLink_html_Ok (href : string) :
  assertLink modules true href = Ok tt
  <-> ((exists rest, href = "/api/" +:+ rest) ->
       stripDocsDomain href ∈ allowedLinks modules).
Proof.
  rewrite <- startsWith_iff.
  unfold assertLink. cbn [andThen].
  destruct (startsWith href "/api/").
  - rewrite expect_Ok, bool_decide_eq_true. tauto.
  - split; [discriminate | reflexivity].
Qed.

Lemma assertDescription_html_Ok (text : string) :
  assertDescription modules text true = Ok tt
  <-> forall href,
        href ∈ descriptionLinks text true ->
        (exists rest, href = "/api/" +:+ rest) ->
        stripDocsDomain href ∈ allowedLinks modules.
Proof.
  unfold assertDescription. rewrite forEach_Ok.
  split; intros Hall href Hhref; apply assertLink_html_Ok, Hall, Hhref.
Qed.

Lemma descriptionLinks_html_first (before href rest : string) :
  noneEarlier hrefAhead before (hrefOpening +:+ href +:+ String DQUOTE rest) ->
  href <> "" -> lacks (String DQUOTE "") href ->
  descriptionLinks
    (before +:+ hrefOpening +:+ href +:+ String DQUOTE rest) true
  = href :: descriptionLinks rest true.
Proof. apply matchAll_href_leftmost. Qed.

(** The check of a description rendered to HTML passes exactly when
    every [href] value that begins with [/api/] is in the link set (once
    a documentation domain inside it is cut away); other [href] values
    and the well-formedness of URLs are not looked at.  The values of a
    text: each value found stands in it behind [href=] between two
    double quotes and is not empty; such a value before which no other
    begins (as behind text without [href=] and a double quote) is the
    first one found, and the search goes on behind its closing quote; a
    text without [href=] has none.
    So a first value that begins with [/api/], holds no [fakerjs] and is
    not in the link set fails the check; a value without [fakerjs] is
    looked up as it is. *)
Theorem html_links_checked (text : string) :
  (assertDescription modules text true = Ok tt
   <-> forall href,
         href ∈ descriptionLinks text true ->
         (exists rest, href = "/api/" +:+ rest) ->
         stripDocsDomain href ∈ allowedLinks modules)
  /\ (forall href,
        href ∈ descriptionLinks text true ->
        exists before rest,
          text = before +:+ hrefOpening +:+ href +:+ String DQUOTE rest
          /\ href <> "" /\ lacks (String DQUOTE "") href)
  /\ (forall before href rest,
        noneEarlier hrefAhead before
          (hrefOpening +:+ href +:+ String DQUOTE rest) ->
        href <> "" -> lacks (String DQUOTE "") href ->
        descriptionLinks
          (before +:+ hrefOpening +:+ href +:+ String DQUOTE rest) true
        = href :: descriptionLinks rest true)
  /\ (forall before behind,
        lacks hrefOpening before ->
        noneEarlier hrefAhead before (hrefOpening +:+ behind))
  /\ (forall plain, lacks "href=" plain -> descriptionLinks plain true = [])
  /\ (forall href, lacks "fakerjs" href -> stripDocsDomain href = href)
  /\ (forall before page rest,
        noneEarlier hrefAhead before
          (hrefOpening +:+ ("/api/" +:+ page) +:+ String DQUOTE rest) ->
        lacks (String DQUOTE "") ("/api/" +:+ page) ->
        lacks "fakerjs" ("/api/" +:+ page) ->
        "/api/" +:+ page ∉ allowedLinks modules ->
        assertDescription modules
          (before +:+ hrefOpening +:+ ("/api/" +:+ page) +:+ String DQUOTE rest)
          true
        <> Ok tt).
Proof.
  split; [apply assertDescription_html_Ok |].
  split; [| split; [| split; [| split; [| split]]]].
  - intros href Hhref. unfold descriptionLinks in Hhref.
    apply matchAll_occurs in Hhref as (before & from & len & -> & Hmatch).
    apply hrefAt_Some in Hmatch as (rest & -> & Hne & Hquote).
    apply lacks_includes in Hquote.
    exists before, rest. auto.
  - exact descriptionLinks_html_first.
  - exact noneEarlier_href.
  - intros plain Hplain. apply matchAll_href_none, lacks_includes, Hplain.
  - exact stripDocsDomain_none.
  - intros before page rest Hbefore Hquote Hdomain Hout Hpass.
    rewrite assertDescription_html_Ok in Hpass.
    apply Hout. rewrite <- (stripDocsDomain_none _ Hdomain).
    apply Hpass; [| exists page; reflexivity].
    rewrite descriptionLinks_html_first by (assumption || discriminate).
    left.
Qed.

(** The check of the [@param] tags passes exactly when every parameter
    has a description that, stripped and trimmed, is not the sentinel,
    and whose [href] values that begin with [/api/] are in the link set.
    What is compared with the sentinel: of a word without markup and
    without white space around it that stands in markup and white space,
    the word; of white space, the empty text.  What is looked up: a
    first [href] value of the description, and as it is when it holds no
    [fakerjs]. *)
Theorem param_tags_checked (methodName : string) (signature : Signature) :
  (verifyParamTags modules methodName signature = Ok tt
   <-> forall param,
         param ∈ analyzeSignature signature "" methodName ->
         trim (stripTags (description param)) <> MISSING_DESCRIPTION
         /\ forall href,
              href ∈ descriptionLinks (description param) true ->
              (exists rest, href = "/api/" +:+ rest) ->
              stripDocsDomain href ∈ allowedLinks modules)
  /\ (forall word text,
        plainWord word -> wrapped word text -> trim (stripTags text) = word)
  /\ (forall text, blank text -> trim (stripTags text) = "")
  /\ (forall before href rest,
        noneEarlier hrefAhead before
          (hrefOpening +:+ href +:+ String DQUOTE rest) ->
        href <> "" -> lacks (String DQUOTE "") href ->
        descriptionLinks
          (before +:+ hrefOpening +:+ href +:+ String DQUOTE rest) true
        = href :: descriptionLinks rest true)
  /\ (forall href, lacks "fakerjs" href -> stripDocsDomain href = href).
Proof.
  split; [| split; [exact wrapped_checked |];
            split; [exact blank_checked |];
            split; [exact descriptionLinks_html_first
                   | exact stripDocsDomain_none]].
  unfold verifyParamTags. rewrite forEach_Ok.
  assert (Hone : forall param,
             verifyParam modules param = Ok tt
             <-> trim (stripTags (description param)) <> MISSING_DESCRIPTION
                 /\ forall href,
                      href ∈ descriptionLinks (description param) true ->
                      (exists rest, href = "/api/" +:+ rest) ->
                      stripDocsDomain href ∈ allowedLinks modules).
  { intros param. unfold verifyParam.
    rewrite andThen_unit_Ok, expect_Ok, negb_true_iff, String.eqb_neq.
    rewrite assertDescription_html_Ok. reflexivity. }
  split; intros Hall param Hparam; apply Hone, Hall, Hparam.
Qed.

(** The check of the [@since] tag passes exactly when the tag is there,
    is not empty and satisfies [isSemVer]. *)
Theorem since_tag_checked (signature : Signature) :
  verifySinceTag signature = Ok tt
  <-> exists since,
        extractSince signature = Some since
        /\ since <> "" /\ isSemVer since = true.
Proof.
  unfold verifySinceTag. destruct (extractSince signature) as [since |].
  - rewrite andThen_unit_Ok, !expect_Ok, negb_true_iff, String.eqb_neq. split.
    + intros [Hne Hsem]. exists since. auto.
    + intros (since' & Heq & Hne & Hsem). injection Heq as <-. auto.
  - split; [discriminate | intros (since & Heq & _); discriminate].
Qed.
(** A description without an opening bracket holds no markdown link and
    passes the check of plain descriptions; one without [href=] passes
    the check of rendered descriptions. *)
Theorem description_without_links (text : string) :
  (includes text "[" = false ->
   assertDescription modules text false = Ok tt)
  /\ (includes text "href=" = false ->
      assertDescription modules text true = Ok tt).
Proof.
  split; intros Hnone; unfold assertDescription, descriptionLinks, matchAll.
  - rewrite scan_nothing; [reflexivity |].
    intros prev before from ->. apply includes_false_suffix in Hnone.
    unfold markdownLinkAt, afterChar. destruct from as [| c from];
      [reflexivity |].
    rewrite includes_char_cons in Hnone.
    apply orb_false_elim in Hnone as [Hc _]. rewrite Hc. reflexivity.
  - rewrite scan_nothing; [reflexivity |].
    intros prev before from ->. apply includes_false_suffix in Hnone.
    unfold hrefAt.
    destruct (startsWith from ("href=" +:+ String DQUOTE "")) eqn:Hprefix;
      [| reflexivity].
    exfalso. apply includes_false_startsWith in Hnone.
    rewrite (startsWith_app from _ Hprefix) in Hnone.
    discriminate.
Qed.

(** A loop of expectations fails with the failure of its first failing
    round; the rounds behind it are not run. *)
Lemma forEach_Throw {A : Type} (f : A -> result unit) (l : list A)
    (reason : string) :
  forEach f l = Throw reason
  <-> exists before x behind,
        l = before ++ x :: behind
        /\ (forall y, y ∈ before -> f y = Ok tt)
        /\ f x = Throw reason.
Proof.
  induction l as [| y l IH]; cbn [forEach].
  - split; [discriminate |].
    intros (before & x & behind & Hl & _). destruct before; discriminate.
  - destruct (f y) as [[] | reason'] eqn:Hy; cbn [andThen].
    + rewrite IH. split.
      * intros (before & x & behind & -> & Hpass & Hx).
        exists (y :: before), x, behind. split; [reflexivity |].
        split; [| exact Hx]. intros z Hz.
        apply elem_of_cons in Hz as [-> | Hz]; auto.
      * intros (before & x & behind & Hl & Hpass & Hx).
        destruct before as [| b before]; simpl in Hl;
          injection Hl as Hhead Htail; subst.
        -- rewrite Hy in Hx. discriminate.
        -- exists before, x, behind. split; [reflexivity |].
           split; [| exact Hx]. intros z Hz. apply Hpass. right. exact Hz.
    + split.
      * intros H. injection H as <-. exists [], y, l.
        split; [reflexivity |]. split; [| exact Hy].
        intros z Hz. inversion Hz.
      * intros (before & x & behind & Hl & Hpass & Hx).
        destruct before as [| b before]; simpl in Hl;
          injection Hl as Hhead Htail; subst.
        -- rewrite Hy in Hx. exact Hx.
        -- rewrite (Hpass b) in Hy by left. discriminate.
Qed.

(** The checks of the [@see] and [@param] tags report one failure: the
    one of the first entry that fails, all entries before it passing. *)
Theorem first_failure_reported (methodName : string) (signature : Signature)
    (reason : string) :
  (verifySeeTags modules signature = Throw reason
   <-> exists before link behind,
         extractSeeAlsos signature = before ++ link :: behind
         /\ (forall y, y ∈ before -> verifySee modules y = Ok tt)
         /\ verifySee modules link = Throw reason)
  /\ (verifyParamTags modules methodName signature = Throw reason
      <-> exists before param behind,
            analyzeSignature signature "" methodName
            = before ++ param :: behind
            /\ (forall y, y ∈ before -> verifyParam modules y = Ok tt)
            /\ verifyParam modules param = Throw reason).
Proof. split; apply forEach_Throw. Qed.

(** Every allowed reference has its pages: for
    [faker.<field>.<method>] in the reference set, the page of the module
    and the anchor of the method are in the link set. *)
Theorem reference_has_links (reference : string) :
  reference ∈ allowedReferences modules ->
  exists fieldName methodName,
    reference = "faker." +:+ fieldName +:+ "." +:+ methodName
    /\ "/api/" +:+ fieldName +:+ ".html" ∈ allowedLinks modules
    /\ "/api/" +:+ fieldName +:+ ".html#" +:+ toLowerCase methodName
       ∈ allowedLinks modules.
Proof.
  intros Href.
  apply elem_of_allowedReferences in Href
    as (moduleName & refl & methods & methodName & callable
        & Hmodule & Hmethod & ->).
  exists (extractModuleFieldName refl), methodName.
  split; [reflexivity |].
  split; apply elem_of_allowedLinks; exists moduleName, refl, methods;
    (split; [exact Hmodule |]); [left; reflexivity |].
  right. exists methodName, callable. auto.
Qed.

(** The hook of a callable leaves the files of other paths alone, so
    hooks for different files can run in either order; of two hooks for
    one file the later one decides what the file holds. *)
Theorem materializations_compose
    (module1 method1 module2 method2 : string)
    (signature1 signature2 : Signature) (fs : FileSystem) :
  let path1 := resolvePathToMethodFile module1 method1 in
  let path2 := resolvePathToMethodFile module2 method2 in
  let both :=
    materializeExamples module2 method2 signature2
      (materializeExamples module1 method1 signature1 fs) in
  files both !! path2
  = Some (materialize (extractJoinedRawExamples signature2))
  /\ (path1 <> path2 ->
      files both !! path1
      = Some (materialize (extractJoinedRawExamples signature1))
      /\ both
         = materializeExamples module1 method1 signature1
             (materializeExamples module2 method2 signature2 fs))
  /\ (forall other,
        other <> path1 -> other <> path2 ->
        files both !! other = files fs !! other).
Proof.
  intros path1 path2 both. unfold both, materializeExamples, writeFileSync,
    mkdirSyncRecursive. cbn [files directories]. fold path1 path2.
  split; [apply lookup_insert_eq |]. split.
  - intros Hne. split.
    + rewrite lookup_insert_ne by congruence. apply lookup_insert_eq.
    + f_equal.
      * rewrite !(assoc_L (∪)). f_equal. apply (comm_L (∪)).
      * apply insert_insert_ne. congruence.
  - intros other H1 H2. rewrite !lookup_insert_ne by congruence. reflexivity.
Qed.
End Checks.

Section Growing.
Context {ModuleRefl Signature : Type}.
Context {typedoc : Typedoc ModuleRefl Signature} {runtime : Runtime}.

Lemma allowed_sets_grow
    (modules more : list (string * (ModuleRefl * list (string * Signature)))) :
  allowedReferences modules ⊆ allowedReferences (modules ++ more)
  /\ allowedLinks modules ⊆ allowedLinks (modules ++ more).
Proof.
  split; intros x Hx.
  - apply elem_of_allowedReferences in Hx
      as (moduleName & refl & methods & methodName & callable
          & Hmodule & Hmethod & ->).
    apply elem_of_allowedReferences.
    exists moduleName, refl, methods, methodName, callable.
    split; [apply elem_of_app; left; exact Hmodule | auto].
  - apply elem_of_allowedLinks in Hx
      as (moduleName & refl & methods & Hmodule & Hx).
    apply elem_of_allowedLinks. exists moduleName, refl, methods.
    split; [apply elem_of_app; left; exact Hmodule | exact Hx].
Qed.

Lemma forEach_Ok_mono {A : Type} (f g : A -> result unit) (l : list A) :
  (forall x, f x = Ok tt -> g x = Ok tt) ->
  forEach f l = Ok tt -> forEach g l = Ok tt.
Proof.
  intros Hfg. rewrite !forEach_Ok. intros Hall x Hx. apply Hfg, Hall, Hx.
Qed.

(** Adding modules to the project breaks no check that passed: the
    reference set and the link set only grow. *)
Theorem checks_survive_new_modules
    (modules more : list (string * (ModuleRefl * list (string * Signature))))
    (methodName : string) (signature : Signature) (text : string)
    (isHtml : bool) :
  (verifySeeTags modules signature = Ok tt ->
   verifySeeTags (modules ++ more) signature = Ok tt)
  /\ (assertDescription modules text isHtml = Ok tt ->
      assertDescription (modules ++ more) text isHtml = Ok tt)
  /\ (verifyParamTags modules methodName signature = Ok tt ->
      verifyParamTags (modules ++ more) methodName signature = Ok tt).
Proof.
  destruct (allowed_sets_grow modules more) as [Hrefs Hlinks].
  assert (Hlink : forall html url,
             assertLink modules html url = Ok tt ->
             assertLink (modules ++ more) html url = Ok tt).
  { intros html url. unfold assertLink.
    destruct (if html then Ok tt else _) as [[] | reason]; cbn [andThen];
      [| discriminate].
    destruct (if html then startsWith url "/api/" else _); [| reflexivity].
    rewrite !expect_Ok, !bool_decide_eq_true. apply Hlinks. }
  assert (Hdescription : forall html body,
             assertDescription modules body html = Ok tt ->
             assertDescription (modules ++ more) body html = Ok tt).
  { intros html body. unfold assertDescription.
    apply forEach_Ok_mono, Hlink. }
  split; [| split].
  - unfold verifySeeTags. apply forEach_Ok_mono. intros link.
    rewrite !verifySee_Ok. intros H Hprefix.
    destruct (H Hprefix) as (Hopen & Hclose & Hmember). auto.
  - apply Hdescription.
  - unfold verifyParamTags. apply forEach_Ok_mono. intros param.
    unfold verifyParam.
    destruct (expect _ _) as [[] | reason]; cbn [andThen]; [| discriminate].
    apply Hdescription.
Qed.
End Growing.
End HarnessRestFacts.

(** ** Stripping tags *)
Module StripTagsFacts.
Import Js Regex StringFacts HarnessRestFacts.

Lemma tagAt_None (s : string) :
  tagAt s = None
  <-> afterChar "<" s = None
      \/ exists s1,
           afterChar "<" s = Some s1
           /\ (splitAtChar ">" s1 = None \/ afterChar ">" s1 <> None).
Proof.
  unfold tagAt. destruct (afterChar "<" s) as [s1 |]; [| tauto].
  split.
  - intros H. right. exists s1. split; [reflexivity |].
    destruct s1 as [| c s1]; [left; reflexivity |].
    cbn [splitAtChar afterChar] in *.
    destruct (Ascii.eqb c ">"); [right; discriminate |].
    destruct (splitAtChar ">" s1) as [[b r] |]; [discriminate | left; reflexivity].
  - intros [H | (s1' & Heq & H)]; [discriminate |].
    injection Heq as <-. destruct H as [H | H].
    + rewrite H. reflexivity.
    + destruct s1 as [| c s1]; [reflexivity |].
      cbn [splitAtChar afterChar] in *.
      destruct (Ascii.eqb c ">"); [reflexivity | contradiction].
Qed.

(** Stripping adds no character. *)
Lemma stripTagsFrom_keeps_absent (c : ascii) (s : string) :
  includes s (String c "") = false ->
  forall skip, includes (stripTagsFrom skip s) (String c "") = false.
Proof.
  induction s as [| d s IH]; intros H skip; [exact H |].
  rewrite includes_char_cons in H. apply orb_false_elim in H as [Hd Hs].
  cbn [stripTagsFrom]. destruct skip as [| k]; [| apply IH, Hs].
  destruct (tagAt (String d s)); [apply IH, Hs |].
  rewrite includes_char_cons, Hd. apply IH, Hs.
Qed.

(** No tag starts anywhere in what stripping leaves. *)
Lemma stripTagsFrom_no_tag (s : string) :
  forall skip before from,
    stripTagsFrom skip s = before +:+ from -> tagAt from = None.
Proof.
  induction s as [| c s IH]; intros skip before from Hout.
  - cbn [stripTagsFrom] in Hout.
    destruct before; [| discriminate]. destruct from; [| discriminate].
    reflexivity.
  - cbn [stripTagsFrom] in Hout. destruct skip as [| k]; [| eauto].
    destruct (tagAt (String c s)) as [len |] eqn:Htag; [eauto |].
    destruct before as [| b before].
    + change ("" +:+ from) with from in Hout. subst from.
      apply tagAt_None. apply tagAt_None in Htag.
      cbn [afterChar] in *.
      destruct (Ascii.eqb c "<"); [| left; reflexivity].
      right. exists (stripTagsFrom 0 s). split; [reflexivity |].
      destruct Htag as [Htag | (s1 & Heq & Htag)]; [discriminate |].
      injection Heq as <-. destruct Htag as [Hnone | Hclose].
      * left. apply splitAtChar_None.
        apply stripTagsFrom_keeps_absent. apply splitAtChar_None. exact Hnone.
      * right. destruct s as [| d s]; [contradiction |].
        cbn [afterChar] in Hclose.
        destruct (Ascii.eqb d ">") eqn:Hd; [| contradiction].
        apply Ascii.eqb_eq in Hd. subst d. cbn. discriminate.
    + rewrite append_cons in Hout. injection Hout as _ Hout. eauto.
Qed.

Lemma stripTagsFrom_of_no_tag (s : string) :
  (forall before from, s = before +:+ from -> tagAt from = None) ->
  stripTagsFrom 0 s = s.
Proof.
  induction s as [| c s IH]; intros Hnone; [reflexivity |].
  cbn [stripTagsFrom]. rewrite (Hnone "" (String c s) eq_refl).
  f_equal. apply IH. intros before from ->.
  apply (Hnone (String c before) from). reflexivity.
Qed.

Lemma stripTagsFrom_length (s : string) :
  forall skip, String.length (stripTagsFrom skip s) <= String.length s.
Proof.
  induction s as [| c s IH]; intros skip; [reflexivity |].
  cbn [stripTagsFrom String.length]. destruct skip as [| k].
  - destruct (tagAt (String c s)).
    + specialize (IH (Nat.pred n)). lia.
    + cbn [String.length]. specialize (IH 0). lia.
  - specialize (IH k). lia.
Qed.

(** What [replace(/<[^>]+>/g, '')] leaves holds no tag any more:
    stripping a second time changes nothing, and the text never grows. *)
Theorem stripTags_idempotent (s : string) :
  stripTags (stripTags s) = stripTags s
  /\ String.length (stripTags s) <= String.length s
  /\ (forall before from, stripTags s = before +:+ from -> tagAt from = None).
Proof.
  split; [| split].
  - unfold stripTags. apply stripTagsFrom_of_no_tag.
    apply stripTagsFrom_no_tag.
  - apply stripTagsFrom_length.
  - apply stripTagsFrom_no_tag.
Qed.
End StripTagsFacts.

(** ** Concrete runs *)
Module RestRuns.
Import NumberModule NumberRest NumberRangeFacts NumberTextFacts.
Import Completion Generate GenerateRest GenerateRestFacts.
Import Js Harness HarnessRestFacts.

Lemma halves_unitStream : unitStream MoreSamples.halves.
Proof.
  intros n.
  split; [vm_compute; reflexivity | split; [discriminate | reflexivity]].
Qed.

Lemma safeRange_ten : safeRange (OfNumber (10 # 1)).
Proof.
  unfold safeRange.
  change (effectiveMin (OfNumber (10 # 1))) with 0%Z.
  change (effectiveMax (OfNumber (10 # 1))) with 10%Z. lia.
Qed.

Lemma int_returns_within_witness :
  fst (int (OfNumber (10 # 1)) 0 MoreSamples.halves) = Returned 5
  /\ (effectiveMin (OfNumber (10 # 1)) <= 5
      <= effectiveMax (OfNumber (10 # 1)) + 1)%Z.
Proof.
  assert (Hrun : fst (int (OfNumber (10 # 1)) 0 MoreSamples.halves)
                 = Returned 5) by (vm_compute; reflexivity).
  split; [exact Hrun |].
  pose proof (int_returns_within (OfNumber (10 # 1)) 0 MoreSamples.halves
                halves_unitStream safeRange_ten) as H.
  rewrite Hrun in H. exact (proj1 (proj1 H)).
Defined.

Lemma int_range_excluded_witness :
  int (OfObject (Some (5 # 1)) (Some (6 # 1)) (Some [6 # 1; 5 # 1; 6 # 1]))%Q
      3 MoreSamples.halves
  = (Thrown MoreExcludedThanRange, MoreSamples.halves).
Proof.
  apply int_range_excluded.
  - reflexivity.
  - intros z Hz.
    change (effectiveMin _) with 5%Z in Hz.
    change (effectiveMax _) with 6%Z in Hz.
    assert (Hcases : z = 5%Z \/ z = 6%Z) by lia.
    destruct Hcases as [-> | ->]; reflexivity.
Defined.

Lemma int_admissible_exists_witness :
  exists z : Z,
    (1 <= z <= 7)%Z
    /\ includesNumber [2 # 1; 4 # 1; 6 # 1]%Q (inject_Z z) = false.
Proof.
  apply (int_admissible_exists
           (OfObject (Some (1 # 1)) (Some (7 # 1))
                     (Some [2 # 1; 4 # 1; 6 # 1]))%Q
           0 MoreSamples.halves).
  - reflexivity.
  - intros error. vm_compute. discriminate.
Defined.



Lemma radix_defaults_one_digit_witness :
  exists r',
    binary (Between None None) 0 MoreSamples.halves = (ReturnedText "0", r')
    \/ binary (Between None None) 0 MoreSamples.halves = (ReturnedText "1", r').
Proof.
  apply (radix_defaults_one_digit 0 MoreSamples.halves halves_unitStream).
Defined.

Lemma bigInt_within_witness :
  exists v,
    bigInt (BigBetween (Some (OfBigInt 10)) (Some (OfDouble (100 # 1))))
           (fun _ => 295%Z)
    = ReturnedBigInt v
    /\ (10 <= v <= 100)%Z.
Proof.
  apply (bigInt_within
           (BigBetween (Some (OfBigInt 10)) (Some (OfDouble (100 # 1))))
           (fun _ => 295%Z) 10 100 eq_refl eq_refl).
  - intros length. lia.
  - lia.
Defined.

Lemma bigInt_min_only_witness :
  exists v,
    bigInt (BigBetween (Some (OfBigInt 1000000)) None) (fun n => Z.of_nat n)
    = ReturnedBigInt v
    /\ (1000000 <= v <= 1000000 + 999999999999999)%Z.
Proof.
  apply (bigInt_min_only 1000000 (fun n => Z.of_nat n)).
  intros length. lia.
Defined.

Lemma sortBy_stable_witness :
  List.filter
    (sameRank (byTitle Samples.orderedProject) (Samples.page "Number" 1))
    (sortBy (byTitle Samples.orderedProject) MoreSamples.twinPages)
  = [Samples.page "Number" 1; Samples.page "Number" 3].
Proof.
  rewrite (sortBy_stable (byTitle Samples.orderedProject)
             MoreSamples.twinPages (Samples.page "Number" 1));
    [reflexivity | reflexivity |].
  left. reflexivity.
Defined.

Lemma generate_processor_throws_witness :
  generate MoreSamples.brokenModules
  = ([TypedocJson tt], Throw "module without methods").
Proof.
  apply (generate_processor_throws MoreSamples.brokenModules tt);
    reflexivity.
Defined.

Lemma reference_has_links_witness :
  exists fieldName methodName,
    "faker.number.int" = "faker." +:+ fieldName +:+ "." +:+ methodName
    /\ "/api/" +:+ fieldName +:+ ".html"
       ∈ @allowedLinks _ _ Samples.tagsTypedoc (Samples.runtime 0)
           Samples.project
    /\ "/api/" +:+ fieldName +:+ ".html#"
         +:+ @toLowerCase (Samples.runtime 0) methodName
       ∈ @allowedLinks _ _ Samples.tagsTypedoc (Samples.runtime 0)
           Samples.project.
Proof.
  apply (@reference_has_links _ _ Samples.tagsTypedoc (Samples.runtime 0)
           Samples.project "faker.number.int").
  apply HarnessCheckFacts.elem_of_allowedReferences.
  exists "number", "number", [("int", Samples.intTags)], "int", Samples.intTags.
  split; [left | split; [left | reflexivity]].
Defined.
End RestRuns.
